(** * E-commerce analytics: attribute extraction, incident intake and store queries

    A shallow embedding of the attribute extractor
    ([attribute_extraction.py]), of the service layer ([api/services.py]),
    of the incident record ([supplier_incidents.py]) and of the analytics
    queries ([attribute_analysis.py], [supplier_incidents.py]), together with
    the properties the specification states about them; and of the tools
    around them: the audit flags ([audit_attributes.py]), the list cells of
    the export ([ingest_products.py]), the missing share
    ([validate_products.py]), the merge of settings ([settings.py]) and the
    routes ([api/main.py]). *)

From Stdlib Require Import ZArith NArith QArith Qround List String Ascii Bool Lia.
From Stdlib Require Import Sorting.Sorted Sorting.Permutation.
From stdpp Require Import gmap strings list fin_maps.
Import ListNotations.

#[local] Set Warnings "-register-all".
#[local] Open Scope string_scope.
#[local] Open Scope list_scope.

(** ** Text

    A Python [str] is a sequence of Unicode code points.  Source literals are
    written as UTF-8 string literals and decoded by [u]. *)

Definition text := list N.

Fixpoint utf8_decode (bs : list N) : text :=
  match bs with
  | [] => []
  | b :: r =>
    if (b <? 128)%N then b :: utf8_decode r
    else if (b <? 224)%N then
      match r with
      | b1 :: r1 => ((b - 192) * 64 + (b1 - 128))%N :: utf8_decode r1
      | _ => []
      end
    else if (b <? 240)%N then
      match r with
      | b1 :: b2 :: r2 =>
        ((b - 224) * 4096 + (b1 - 128) * 64 + (b2 - 128))%N :: utf8_decode r2
      | _ => []
      end
    else
      match r with
      | b1 :: b2 :: b3 :: r3 =>
        ((b - 240) * 262144 + (b1 - 128) * 4096 + (b2 - 128) * 64 + (b3 - 128))%N
          :: utf8_decode r3
      | _ => []
      end
  end.

Definition u (s : string) : text :=
  utf8_decode (map Byte.to_N (list_byte_of_string s)).

Definition in_range (lo hi c : N) : bool := ((lo <=? c) && (c <=? hi))%N.

Definition is_ascii (c : N) : bool := (c <? 128)%N.

(** [str.isspace] / [\s]: the white-space code points of CPython's
    [_PyUnicode_IsWhitespace]. *)
Definition is_space (c : N) : bool :=
  in_range 9 13 c || in_range 28 32 c || (c =? 133)%N || (c =? 160)%N
  || (c =? 5760)%N || in_range 8192 8202 c || (c =? 8232)%N || (c =? 8233)%N
  || (c =? 8239)%N || (c =? 8287)%N || (c =? 12288)%N.

(** The part of the Unicode character database that the extractor consults
    outside ASCII.  The ASCII range is written out below; these tables stand
    for the interpreter's data on the other code points. *)
Record unicode_db := {
  ext_decimal : N -> option N;
    (* digit value of a non-ASCII code point of category Nd *)
  ext_alnum : N -> bool;
    (* [str.isalnum] of a non-ASCII code point *)
  ext_lower : text -> N -> text -> text;
    (* lower-case expansion of a non-ASCII code point, given the text before
       it (nearest code point first) and the text after it *)
  ext_upper : N -> text
    (* upper-case expansion of a non-ASCII code point *)
}.

(** No white-space code point is alphanumeric. *)
Definition unicode_ok (U : unicode_db) : Prop :=
  forall c, is_space c = true -> ext_alnum U c = false.

(** A table that knows the Romanian letters with diacritics (and nothing else
    outside ASCII). *)
Definition ro_lower_cp (c : N) : N :=
  if (c =? 258)%N then 259          (* Ă -> ă *)
  else if (c =? 194)%N then 226     (* Â -> â *)
  else if (c =? 206)%N then 238     (* Î -> î *)
  else if (c =? 536)%N then 537     (* Ș -> ș *)
  else if (c =? 538)%N then 539     (* Ț -> ț *)
  else if (c =? 350)%N then 351     (* Ş -> ş *)
  else if (c =? 354)%N then 355     (* Ţ -> ţ *)
  else c.

Definition ro_upper_cp (c : N) : N :=
  if (c =? 259)%N then 258
  else if (c =? 226)%N then 194
  else if (c =? 238)%N then 206
  else if (c =? 537)%N then 536
  else if (c =? 539)%N then 538
  else if (c =? 351)%N then 350
  else if (c =? 355)%N then 354
  else c.

Definition ro_letter (c : N) : bool :=
  existsb (N.eqb c) [258; 259; 194; 226; 206; 238; 536; 537; 538; 539; 350; 351; 354; 355]%N.

Definition romanian_db : unicode_db :=
  {| ext_decimal := fun _ => None;
     ext_alnum := ro_letter;
     ext_lower := fun _ c _ => [ro_lower_cp c];
     ext_upper := fun c => [ro_upper_cp c] |}.

(** ** Python values, exceptions and results *)

Inductive value :=
| VNone
| VBool (b : bool)
| VInt (n : Z)
| VFloat (q : Q)
| VStr (s : text)
| VDateTime (iso : text)         (* a [datetime], by its [isoformat()] *)
| VList (l : list value)
| VDict (d : gmap string value).

Inductive exn :=
| ValueError (msg : string)
| TypeError (msg : string)
| KeyError (key : string)
| AttributeError (msg : string)
| BadRequestError (msg : string).

Inductive result (A : Type) :=
| Ok (a : A)
| Raise (e : exn).
Arguments Ok {A} a.
Arguments Raise {A} e.

Definition bind {A B} (x : result A) (f : A -> result B) : result B :=
  match x with
  | Ok a => f a
  | Raise e => Raise e
  end.

Notation "'let*' x ':=' c1 'in' c2" := (bind c1 (fun x => c2))
  (at level 10, x name, c1 at level 100, c2 at level 200).

Section Extraction.

Variable U : unicode_db.

(** [\d]: a decimal digit, with its value. *)
Definition decimal_value (c : N) : option N :=
  if is_ascii c then (if in_range 48 57 c then Some (c - 48)%N else None)
  else ext_decimal U c.

Definition is_digit (c : N) : bool :=
  match decimal_value c with Some _ => true | None => false end.

Definition is_alnum (c : N) : bool :=
  if is_ascii c then in_range 48 57 c || in_range 65 90 c || in_range 97 122 c
  else ext_alnum U c.

(** [\w]: alphanumeric or underscore. *)
Definition is_word (c : N) : bool := is_alnum c || (c =? 95)%N.

Definition ascii_lower (c : N) : N := if in_range 65 90 c then (c + 32)%N else c.
Definition ascii_upper (c : N) : N := if in_range 97 122 c then (c - 32)%N else c.

Fixpoint lower_from (before s : text) : text :=
  match s with
  | [] => []
  | c :: r =>
    (if is_ascii c then [ascii_lower c] else ext_lower U before c r)
      ++ lower_from (c :: before) r
  end.

(** [str.lower()] *)
Definition lower (s : text) : text := lower_from [] s.

(** [str.upper()] *)
Definition upper (s : text) : text :=
  flat_map (fun c => if is_ascii c then [ascii_upper c] else ext_upper U c) s.

Fixpoint lstrip (s : text) : text :=
  match s with
  | c :: r => if is_space c then lstrip r else s
  | [] => []
  end.

(** [str.strip()] *)
Definition strip (s : text) : text := rev (lstrip (rev (lstrip s))).

(** [s.replace(" ", "")] *)
Definition remove_spaces (s : text) : text := List.filter (fun c => negb (c =? 32)%N) s.

Fixpoint is_prefix (p s : text) : bool :=
  match p, s with
  | [], _ => true
  | a :: p', b :: s' => (a =? b)%N && is_prefix p' s'
  | _ :: _, [] => false
  end.

(** [keyword in text] *)
Fixpoint contains (s k : text) : bool :=
  is_prefix k s || match s with [] => false | _ :: r => contains r k end.

(** [" ".join(parts)] *)
Fixpoint join_space (parts : list text) : text :=
  match parts with
  | [] => []
  | [p] => p
  | p :: ps => p ++ 32%N :: join_space ps
  end.

(** ** The regular-expression engine

    The patterns of the extractor use literals, character classes, bounded
    and unbounded repetition of a single class (greedy or lazy), alternation,
    capture groups, [\b] and [$].  The matcher is the backtracking matcher of
    [re]: alternatives and repetition counts are tried in priority order and
    the first complete match is returned. *)

Inductive regex :=
| Eps
| Chr (p : N -> bool)
| Seq (a b : regex)
| Alt (a b : regex)
| Rep (greedy : bool) (lo : nat) (hi : option nat) (p : N -> bool)
| Grp (i : nat) (a : regex)
| WordB
| Eos.

Record mstate := {
  ms_prev : option N;            (* the code point before the position *)
  ms_rest : text;                (* the text from the position on *)
  ms_caps : list (nat * text)    (* closed groups, the latest first *)
}.

Definition step (p : N -> bool) (s : mstate) : option mstate :=
  match ms_rest s with
  | c :: r =>
    if p c then Some {| ms_prev := Some c; ms_rest := r; ms_caps := ms_caps s |}
    else None
  | [] => None
  end.

Definition word_opt (o : option N) : bool :=
  match o with Some c => is_word c | None => false end.

(** [\b]: exactly one side of the position is a word character. *)
Definition at_boundary (s : mstate) : bool :=
  xorb (word_opt (ms_prev s)) (word_opt (head (ms_rest s))).

(** [$] without MULTILINE: the end, or just before a final newline. *)
Definition at_end (s : mstate) : bool :=
  match ms_rest s with
  | [] => true
  | [c] => (c =? 10)%N
  | _ => false
  end.

Definition or_else {A} (x y : option A) : option A :=
  match x with Some _ => x | None => y end.

Section Matcher.

Context {A : Type}.

Fixpoint m_exact (p : N -> bool) (n : nat) (k : mstate -> option A) (s : mstate)
  : option A :=
  match n with
  | O => k s
  | S n' =>
    match step p s with
    | Some s' => m_exact p n' k s'
    | None => None
    end
  end.

Fixpoint m_upto (p : N -> bool) (greedy : bool) (n : nat)
    (k : mstate -> option A) (s : mstate) : option A :=
  match n with
  | O => k s
  | S n' =>
    let more := match step p s with
                | Some s' => m_upto p greedy n' k s'
                | None => None
                end in
    if greedy then or_else more (k s) else or_else (k s) more
  end.

Definition close_group (i : nat) (s0 s1 : mstate) : mstate :=
  {| ms_prev := ms_prev s1; ms_rest := ms_rest s1;
     ms_caps := (i, take (length (ms_rest s0) - length (ms_rest s1)) (ms_rest s0))
                  :: ms_caps s1 |}.

Fixpoint m (r : regex) (k : mstate -> option A) (s : mstate) : option A :=
  match r with
  | Eps => k s
  | Chr p => match step p s with Some s' => k s' | None => None end
  | Seq a b => m a (m b k) s
  | Alt a b => or_else (m a k s) (m b k s)
  | Rep greedy lo hi p =>
    m_exact p lo
      (fun s' => m_upto p greedy
                   (match hi with Some h => h - lo | None => length (ms_rest s') end)
                   k s') s
  | Grp i a => m a (fun s' => k (close_group i s s')) s
  | WordB => if at_boundary s then k s else None
  | Eos => if at_end s then k s else None
  end.

End Matcher.

(** A match object: where it starts, [group(0)] and the numbered groups. *)
Record match_obj := {
  mo_start : nat;
  mo_group0 : text;
  mo_caps : list (nat * text)
}.

Definition match_at (r : regex) (pos : nat) (prev : option N) (rest : text)
  : option match_obj :=
  m r (fun s' => Some {| mo_start := pos;
                         mo_group0 := take (length rest - length (ms_rest s')) rest;
                         mo_caps := ms_caps s' |})
    {| ms_prev := prev; ms_rest := rest; ms_caps := [] |}.

Fixpoint search_from (r : regex) (pos : nat) (prev : option N) (rest : text)
  : option match_obj :=
  or_else (match_at r pos prev rest)
    match rest with
    | [] => None
    | c :: rest' => search_from r (S pos) (Some c) rest'
    end.

(** [pattern.search(text)] *)
Definition search (r : regex) (s : text) : option match_obj := search_from r 0 None s.

Fixpoint assoc_group (i : nat) (caps : list (nat * text)) : option text :=
  match caps with
  | [] => None
  | (j, t) :: caps' => if Nat.eqb i j then Some t else assoc_group i caps'
  end.

(** [match.group(i)] for a group that took part in the match. *)
Definition group (i : nat) (mo : match_obj) : option text :=
  match i with
  | O => Some (mo_group0 mo)
  | _ => assoc_group i (mo_caps mo)
  end.

Fixpoint seq_all (rs : list regex) : regex :=
  match rs with
  | [] => Eps
  | [r] => r
  | r :: rs' => Seq r (seq_all rs')
  end.

(** A cased literal under IGNORECASE matches the code points whose simple
    lower case is the literal; [i] also matches U+0130 and U+0131. *)
Definition ci (lit c : N) : bool := (c =? lit)%N || (c =? lit - 32)%N.
Definition ci_i (c : N) : bool := ci 105 c || (c =? 304)%N || (c =? 305)%N.
Definition lit (l c : N) : bool := (c =? l)%N.

Definition ci_char (l : N) : N -> bool := if (l =? 105)%N then ci_i else ci l.

Definition ci_lits (s : text) : regex := seq_all (map (fun l => Chr (ci_char l)) s).

Definition is_hex (c : N) : bool :=
  in_range 48 57 c || in_range 97 102 c || in_range 65 70 c.
Definition is_upper_az (c : N) : bool := in_range 65 90 c.
Definition is_word_or_dash (c : N) : bool := is_word c || (c =? 45)%N.

(** [(\d{1,3})\s?(ml)\b], IGNORECASE *)
Definition VOLUME_PATTERN : regex :=
  seq_all [Grp 1 (Rep true 1 (Some 3) is_digit); Rep true 0 (Some 1) is_space;
           Grp 2 (ci_lits (u "ml")); WordB].

(** [(\d{2,4})\s?(mm)\b], IGNORECASE *)
Definition LENGTH_PATTERN : regex :=
  seq_all [Grp 1 (Rep true 2 (Some 4) is_digit); Rep true 0 (Some 1) is_space;
           Grp 2 (ci_lits (u "mm")); WordB].

(** [\b(\d{2,3}/\d{2,3})\b] *)
Definition GRIT_PATTERN : regex :=
  seq_all [WordB;
           Grp 1 (seq_all [Rep true 2 (Some 3) is_digit; Chr (lit 47);
                           Rep true 2 (Some 3) is_digit]);
           WordB].

(** [(#[0-9a-fA-F]{2,4}|[A-Z]{1,2}\d{2,3})\b] *)
Definition SHADE_PATTERN : regex :=
  seq_all [Grp 1 (Alt (Seq (Chr (lit 35)) (Rep true 2 (Some 4) is_hex))
                      (Seq (Rep true 1 (Some 2) is_upper_az)
                           (Rep true 2 (Some 3) is_digit)));
           WordB].

(** [(\d{2,3})\s?%] *)
Definition STRENGTH_PATTERN : regex :=
  seq_all [Grp 1 (Rep true 2 (Some 3) is_digit); Rep true 0 (Some 1) is_space;
           Chr (lit 37)].

(** [colect(ia|iei)\s+([\w-]{3,30}?)(?:\s+\d|\s*$)], IGNORECASE *)
Definition COLLECTION_PATTERN : regex :=
  seq_all [ci_lits (u "colect");
           Grp 1 (Alt (ci_lits (u "ia")) (ci_lits (u "iei")));
           Rep true 1 None is_space;
           Grp 2 (Rep false 3 (Some 30) is_word_or_dash);
           Alt (Seq (Rep true 1 None is_space) (Chr is_digit))
               (Seq (Rep true 0 None is_space) Eos)].

Definition FINISH_KEYWORDS : list text :=
  map u ["mat"; "matte"; "gloss"; "lucios"; "glitter"; "shimmer"; "reflectiv"].
Definition CURING_KEYWORDS : list text :=
  map u ["uv/led"; "uv led"; "uv"; "led"].
Definition LIQUID_TYPES : list text :=
  map u ["cleaner"; "remover"; "aceton"; "slip solution"; "degresant"; "primer"].
Definition SCENT_KEYWORDS : list text :=
  map u ["lavanda"; "lavandă"; "capsuni"; "căpșuni"; "vanilie"; "cocos"; "trandafir"].
Definition MATERIAL_KEYWORDS : list text :=
  map u ["inox"; "otel"; "oțel"; "carbon"; "abs"; "plastic"].
Definition SHAPE_KEYWORDS : list text :=
  map u ["oval"; "banană"; "banana"; "drept"; "straight"; "half-moon"; "semilună"].
Definition COLOR_KEYWORDS : list text :=
  map u ["alb"; "negru"; "rosu"; "roșu"; "roz"; "nude"; "albastru"; "verde"; "mov";
         "galben"; "portocaliu"; "auriu"; "argintiu"].

Definition _first_match (pattern : regex) (t : text) : option text :=
  match search pattern t with
  | Some mo => group 1 mo
  | None => None
  end.

Fixpoint _first_keyword (t : text) (keywords : list text) : option text :=
  match keywords with
  | [] => None
  | keyword :: rest => if contains t keyword then Some keyword else _first_keyword t rest
  end.

Fixpoint digits_value (acc : N) (s : text) : option N :=
  match s with
  | [] => Some acc
  | c :: r =>
    match decimal_value c with
    | Some d => digits_value (acc * 10 + d)%N r
    | None => None
    end
  end.

(** [float(s)] on a non-empty string of decimal digits, the only strings the
    extractor passes to it; on any other string the model raises. *)
Definition py_float (s : text) : result Q :=
  match s with
  | [] => Raise (ValueError "could not convert string to float")
  | _ =>
    match digits_value 0 s with
    | Some n => Ok (inject_Z (Z.of_N n))
    | None => Raise (ValueError "could not convert string to float")
    end
  end.

Definition nonempty (s : text) : bool :=
  match s with [] => false | _ => true end.

(** [if x := found: attributes[key] = float(x)] *)
Definition assign_float (key : string) (found : option text)
    (attributes : gmap string value) : result (gmap string value) :=
  match found with
  | Some x =>
    if nonempty x then let* f := py_float x in Ok (<[key := VFloat f]> attributes)
    else Ok attributes
  | None => Ok attributes
  end.

(** [if x := found: attributes[key] = norm(x)] *)
Definition assign_str (key : string) (found : option text) (norm : text -> text)
    (attributes : gmap string value) : gmap string value :=
  match found with
  | Some x => if nonempty x then <[key := VStr (norm x)]> attributes else attributes
  | None => attributes
  end.

(** [if mo := found: attributes[key] = norm(mo.group(i))] *)
Definition assign_group (key : string) (found : option match_obj) (i : nat)
    (norm : text -> text) (attributes : gmap string value) : gmap string value :=
  match found with
  | Some mo =>
    match group i mo with
    | Some g => <[key := VStr (norm g)]> attributes
    | None => attributes
    end
  | None => attributes
  end.

Definition haystack_of (name : text) (description : option text) : text :=
  join_space (List.filter nonempty [name; default [] description]).

(** Return a dict of attr_* fields derived from provided text fields. *)
Definition extract_attributes (name : text) (description : option text)
  : result (gmap string value) :=
  let haystack := haystack_of name description in
  let haystack_lower := lower haystack in
  let attributes : gmap string value := ∅ in
  let* attributes := assign_float "attr_volume_ml"
                  (_first_match VOLUME_PATTERN haystack) attributes in
  let attributes := assign_str "attr_grit"
                      (_first_match GRIT_PATTERN haystack) id attributes in
  let attributes := assign_group "attr_shade_code"
                      (search SHADE_PATTERN haystack) 0 upper attributes in
  let attributes := assign_str "attr_finish"
                      (_first_keyword haystack_lower FINISH_KEYWORDS) id attributes in
  let attributes := assign_str "attr_curing_type"
                      (_first_keyword haystack_lower CURING_KEYWORDS)
                      (fun curing => upper (remove_spaces curing)) attributes in
  let attributes := assign_str "attr_liquid_type"
                      (_first_keyword haystack_lower LIQUID_TYPES) id attributes in
  let attributes := assign_str "attr_scent"
                      (_first_keyword haystack_lower SCENT_KEYWORDS) id attributes in
  let* attributes := assign_float "attr_strength_percent"
                  (_first_match STRENGTH_PATTERN haystack) attributes in
  let* attributes := assign_float "attr_length_mm"
                  (_first_match LENGTH_PATTERN haystack) attributes in
  let attributes := assign_str "attr_material"
                      (_first_keyword haystack_lower MATERIAL_KEYWORDS) id attributes in
  let attributes := assign_str "attr_shape"
                      (_first_keyword haystack_lower SHAPE_KEYWORDS) id attributes in
  let attributes := assign_str "attr_color_name"
                      (_first_keyword haystack_lower COLOR_KEYWORDS) id attributes in
  let attributes := assign_group "attr_collection"
                      (search COLLECTION_PATTERN haystack) 2 strip attributes in
  Ok attributes.

(** *** What it means for a pattern to match

    [matches r s w s'] says that [r] can match the text [w] at the position
    [s], leaving the matcher at [s'].  It is the reading of the pattern,
    without the order in which the engine tries the possibilities. *)

Inductive run (p : N -> bool) : mstate -> text -> mstate -> Prop :=
| run_nil s : run p s [] s
| run_cons s c s1 w s' :
    head (ms_rest s) = Some c -> step p s = Some s1 -> run p s1 w s' ->
    run p s (c :: w) s'.

Inductive matches : regex -> mstate -> text -> mstate -> Prop :=
| M_Eps s : matches Eps s [] s
| M_Chr p s c s' :
    head (ms_rest s) = Some c -> step p s = Some s' -> matches (Chr p) s [c] s'
| M_Seq a b s w1 s1 w2 s2 :
    matches a s w1 s1 -> matches b s1 w2 s2 -> matches (Seq a b) s (w1 ++ w2) s2
| M_AltL a b s w s' : matches a s w s' -> matches (Alt a b) s w s'
| M_AltR a b s w s' : matches b s w s' -> matches (Alt a b) s w s'
| M_Rep g lo hi p s w s' :
    run p s w s' -> lo <= length w ->
    (forall h, hi = Some h -> length w <= Nat.max lo h) ->
    matches (Rep g lo hi p) s w s'
| M_Grp i a s w s' : matches a s w s' -> matches (Grp i a) s w (close_group i s s')
| M_WordB s : at_boundary s = true -> matches WordB s [] s
| M_Eos s : at_end s = true -> matches Eos s [] s.

(** The matcher placed after the prefix [pre] of a text, with [rest] ahead. *)
Definition state_at (pre rest : text) : mstate :=
  {| ms_prev := last pre; ms_rest := rest; ms_caps := [] |}.

(** [r] matches [w] somewhere in [t], closing the groups [caps]. *)
Definition occurs_at (r : regex) (t pre w : text) (caps : list (nat * text)) : Prop :=
  exists rest s', t = pre ++ rest /\ matches r (state_at pre rest) w s'
                  /\ caps = ms_caps s'.

Definition occurs (r : regex) (t : text) : Prop :=
  exists pre w caps, occurs_at r t pre w caps.

(** [k] is a substring of [t]. *)
Definition substring (k t : text) : Prop := exists pre post, t = pre ++ k ++ post.

(** *** The extractor as a table of rules

    Each key of the result is decided by one rule: a pattern whose first group
    is converted to a float, a pattern whose first group is stored verbatim, a
    pattern one of whose groups is normalised and stored, or an ordered list of
    keywords. *)

Inductive rule :=
| RFloat (pat : regex)
| RVerbatim (pat : regex)
| RGroup (pat : regex) (i : nat) (norm : text -> text)
| RKeyword (keywords : list text) (norm : text -> text).

Definition attribute_rules : list (string * rule) :=
  [ ("attr_volume_ml", RFloat VOLUME_PATTERN);
    ("attr_grit", RVerbatim GRIT_PATTERN);
    ("attr_shade_code", RGroup SHADE_PATTERN 0 upper);
    ("attr_finish", RKeyword FINISH_KEYWORDS id);
    ("attr_curing_type", RKeyword CURING_KEYWORDS (fun curing => upper (remove_spaces curing)));
    ("attr_liquid_type", RKeyword LIQUID_TYPES id);
    ("attr_scent", RKeyword SCENT_KEYWORDS id);
    ("attr_strength_percent", RFloat STRENGTH_PATTERN);
    ("attr_length_mm", RFloat LENGTH_PATTERN);
    ("attr_material", RKeyword MATERIAL_KEYWORDS id);
    ("attr_shape", RKeyword SHAPE_KEYWORDS id);
    ("attr_color_name", RKeyword COLOR_KEYWORDS id);
    ("attr_collection", RGroup COLLECTION_PATTERN 2 strip) ].

Fixpoint assoc {A} (key : string) (l : list (string * A)) : option A :=
  match l with
  | [] => None
  | (k, a) :: l' => if String.eqb key k then Some a else assoc key l'
  end.

(** The value a rule gives on the combined text, if any. *)
Definition rule_value (r : rule) (haystack : text) : option value :=
  match r with
  | RFloat pat =>
    match _first_match pat haystack with
    | Some x =>
      if nonempty x then
        match py_float x with Ok f => Some (VFloat f) | Raise _ => None end
      else None
    | None => None
    end
  | RVerbatim pat =>
    match _first_match pat haystack with
    | Some x => if nonempty x then Some (VStr x) else None
    | None => None
    end
  | RGroup pat i norm =>
    match search pat haystack with
    | Some mo => match group i mo with Some g => Some (VStr (norm g)) | None => None end
    | None => None
    end
  | RKeyword keywords norm =>
    match _first_keyword (lower haystack) keywords with
    | Some k => if nonempty k then Some (VStr (norm k)) else None
    | None => None
    end
  end.

(** [attributes[key] = v] when the rule gave [v], no change otherwise. *)
Definition store_found (key : string) (found : option value)
    (attributes : gmap string value) : gmap string value :=
  match found with
  | Some v => <[key := v]> attributes
  | None => attributes
  end.

Definition apply_rules (rules : list (string * rule)) (haystack : text)
    (attributes : gmap string value) : gmap string value :=
  fold_left (fun acc kr => store_found (fst kr) (rule_value (snd kr) haystack) acc)
    rules attributes.

(** The rule has something to match in the combined text. *)
Definition rule_matches (r : rule) (haystack : text) : Prop :=
  match r with
  | RFloat pat | RVerbatim pat | RGroup pat _ _ => occurs pat haystack
  | RKeyword keywords _ => exists k, In k keywords /\ substring k (lower haystack)
  end.

(** The matcher placed after [pre], when [prev] came before [pre]. *)
Definition ctx_state (prev : option N) (pre rest : text) : mstate :=
  {| ms_prev := or_else (last pre) prev; ms_rest := rest; ms_caps := [] |}.

(** A non-empty string of decimal digits. *)
Definition digit_string (d : text) : Prop :=
  d <> [] /\ Forall (fun c => is_digit c = true) d.

(** A pattern that starts with its first group, which is always a string of
    digits. *)
Definition float_pattern (pat : regex) : Prop :=
  forall s w s', matches pat s w s' ->
    exists d w', w = d ++ w' /\ assoc_group 1 (ms_caps s') = Some d /\ digit_string d.

(** What group 2 of the collection pattern holds: 3 to 30 word characters or
    hyphens. *)
Definition token (tok : text) : Prop :=
  3 <= length tok <= 30 /\ Forall (fun c => is_word_or_dash c = true) tok.

(** [w] is [lits] up to case, as IGNORECASE reads a literal. *)
Definition ci_equal (lits w : text) : Prop :=
  Forall2 (fun l c => ci_char l c = true) lits w.

Definition collection_marker (mk : text) : Prop :=
  ci_equal (u "colectia") mk \/ ci_equal (u "colectiei") mk.

Definition white (ws : text) : Prop := Forall (fun c => is_space c = true) ws.

(** What may follow the token: white space and then a digit, or nothing but
    white space up to the end of the text. *)
Definition collection_tail (tail : text) : Prop :=
  (exists ws d rest, tail = ws ++ d :: rest /\ ws <> [] /\ white ws
                     /\ is_digit d = true)
  \/ white tail.

(** After [pre], the text reads: marker, white space, the token [tok], and a
    tail as above. *)
Definition collection_occurrence (t pre tok : text) : Prop :=
  exists mk ws tail,
    t = pre ++ mk ++ ws ++ tok ++ tail
    /\ collection_marker mk /\ ws <> [] /\ white ws /\ token tok
    /\ collection_tail tail.

Fixpoint until_digit (s : text) : text :=
  match s with
  | [] => []
  | c :: r => if is_digit c then [] else c :: until_digit r
  end.

(** The reading "after a case-insensitive marker, the collection is the text
    up to the next digit or the end of the text, trimmed". *)
Definition collection_after_marker : Prop :=
  forall name description attributes pre mk post,
    extract_attributes name description = Ok attributes ->
    haystack_of name description = pre ++ mk ++ post ->
    lower mk = u "colecția" \/ lower mk = u "colectiei" ->
    attributes !! "attr_collection" = Some (VStr (strip (until_digit post))).

Definition attribute_keys : list string :=
  [ "attr_volume_ml"; "attr_grit"; "attr_shade_code"; "attr_finish";
    "attr_curing_type"; "attr_liquid_type"; "attr_scent"; "attr_strength_percent";
    "attr_length_mm"; "attr_material"; "attr_shape"; "attr_color_name";
    "attr_collection" ].

Definition is_float_key (key : string) : bool :=
  existsb (String.eqb key) ["attr_volume_ml"; "attr_strength_percent"; "attr_length_mm"].

(** A float under the three numeric keys, a non-empty string under the others. *)
Definition well_typed (key : string) (v : value) : Prop :=
  if is_float_key key then exists q, v = VFloat q
  else exists s, v = VStr s /\ s <> [].

(** [k] is the keyword of the list whose occurrence in [t] starts first. *)
Definition first_in_text (keywords : list text) (t k : text) : Prop :=
  In k keywords /\
  exists pre post, t = pre ++ k ++ post /\
    forall k' pre' post', In k' keywords -> k' <> k -> t = pre' ++ k' ++ post' ->
      length pre < length pre'.

(** The reading "within a category the first match in the combined text
    wins", as a statement about the extractor. *)
Definition first_in_text_wins : Prop :=
  forall name description key keywords norm k attributes,
    In (key, RKeyword keywords norm) attribute_rules ->
    first_in_text keywords (lower (haystack_of name description)) k ->
    extract_attributes name description = Ok attributes ->
    attributes !! key = Some (VStr (norm k)).

End Extraction.


(** ** The store and the environment

    The document store holds two indices the model needs, each a map from the
    document id to the document.  The store is taken to accept every write;
    calls that read the clock, draw a UUID or read the settings take their
    values from the environment. *)

Record world := {
  products : gmap text (gmap string value);
  supplier_incidents : gmap text (gmap string value)
}.

Record env := {
  uuid4_hex : text;                 (* [uuid4().hex] *)
  utcnow : value;                   (* [datetime.utcnow()] *)
  now_iso : text;                   (* [_now_iso()] *)
  product_url_for : value -> value  (* [settings.product_url_for(sku)] *)
}.

(** Python truthiness. *)
Definition truthy (v : value) : bool :=
  match v with
  | VNone => false
  | VBool b => b
  | VInt n => negb (n =? 0)%Z
  | VFloat q => negb (Qeq_bool q 0)
  | VStr s => nonempty s
  | VDateTime _ => true
  | VList l => match l with [] => false | _ => true end
  | VDict d => match map_to_list d with [] => false | _ => true end
  end.

(** [a or b] *)
Definition py_or (a b : value) : value := if truthy a then a else b.

(** [d.get(key, default)] *)
Definition get (d : gmap string value) (key : string) (dflt : value) : value :=
  default dflt (d !! key).

Definition as_number (v : value) : option Q :=
  match v with
  | VInt n => Some (inject_Z n)
  | VBool b => Some (inject_Z (if b then 1 else 0))
  | VFloat q => Some q
  | _ => None
  end.

Fixpoint text_ltb (a b : text) : bool :=
  match a, b with
  | _, [] => false
  | [], _ :: _ => true
  | x :: a', y :: b' => (x <? y)%N || ((x =? y)%N && text_ltb a' b')
  end.

(** [a > b] on numbers and on strings; a number against a string, or None
    against anything, raises TypeError.  Comparisons between lists, dicts and
    datetimes are not modelled and raise as well. *)
Definition py_gt (a b : value) : result bool :=
  match as_number a, as_number b with
  | Some x, Some y => Ok (negb (Qle_bool x y))
  | _, _ =>
    match a, b with
    | VStr x, VStr y => Ok (text_ltb y x)
    | _, _ => Raise (TypeError "'>' not supported between these instances")
    end
  end.

(** *** The incident record ([supplier_incidents.py]) *)

Record SupplierIncident := {
  incident_id : value;
  supplier_id : value;
  supplier_name : value;
  date_reported : value;
  sku : value;
  product_type : value;
  category_main : value;
  qty_total_in_shipment : value;
  qty_damaged : value;
  damage_type : value;
  shipment_id : value;
  transport_company : value;
  root_cause_guess : value;
  batch_id : value;
  packaging_primary : value;
  packaging_secondary : value;
  packaging_cushioning : value;
  comment : value;
  created_at : value
}.

Definition incident_fields : list string :=
  [ "incident_id"; "supplier_id"; "supplier_name"; "date_reported"; "sku";
    "product_type"; "category_main"; "qty_total_in_shipment"; "qty_damaged";
    "damage_type"; "shipment_id"; "transport_company"; "root_cause_guess";
    "batch_id"; "packaging_primary"; "packaging_secondary";
    "packaging_cushioning"; "comment"; "created_at" ].

Definition required (body : gmap string value) (key : string) : result value :=
  match body !! key with
  | Some v => Ok v
  | None => Raise (TypeError "missing a required argument")
  end.

(** [SupplierIncident] called with the entries of [body] as keyword
    arguments: the generated [__init__] of the dataclass.  A
    key that is no field, or a missing field without default, raises
    TypeError; the fields are not type-checked. *)
Definition new_incident (e : env) (body : gmap string value) : result SupplierIncident :=
  if forallb (fun kv => existsb (String.eqb (fst kv)) incident_fields) (map_to_list body)
  then
    let* incident_id := required body "incident_id" in
    let* supplier_id := required body "supplier_id" in
    let* supplier_name := required body "supplier_name" in
    let* date_reported := required body "date_reported" in
    let* sku := required body "sku" in
    let* product_type := required body "product_type" in
    let* category_main := required body "category_main" in
    let* qty_total_in_shipment := required body "qty_total_in_shipment" in
    let* qty_damaged := required body "qty_damaged" in
    Ok {| incident_id := incident_id;
          supplier_id := supplier_id;
          supplier_name := supplier_name;
          date_reported := date_reported;
          sku := sku;
          product_type := product_type;
          category_main := category_main;
          qty_total_in_shipment := qty_total_in_shipment;
          qty_damaged := qty_damaged;
          damage_type := get body "damage_type" (VList []);
          shipment_id := get body "shipment_id" VNone;
          transport_company := get body "transport_company" VNone;
          root_cause_guess := get body "root_cause_guess" VNone;
          batch_id := get body "batch_id" VNone;
          packaging_primary := get body "packaging_primary" VNone;
          packaging_secondary := get body "packaging_secondary" VNone;
          packaging_cushioning := get body "packaging_cushioning" VNone;
          comment := get body "comment" VNone;
          created_at := get body "created_at" (utcnow e) |}
  else Raise (TypeError "got an unexpected keyword argument").

(** [asdict(incident)] *)
Definition asdict (i : SupplierIncident) : gmap string value :=
  list_to_map
    [ ("incident_id", incident_id i); ("supplier_id", supplier_id i);
      ("supplier_name", supplier_name i); ("date_reported", date_reported i);
      ("sku", sku i); ("product_type", product_type i);
      ("category_main", category_main i);
      ("qty_total_in_shipment", qty_total_in_shipment i);
      ("qty_damaged", qty_damaged i); ("damage_type", damage_type i);
      ("shipment_id", shipment_id i); ("transport_company", transport_company i);
      ("root_cause_guess", root_cause_guess i); ("batch_id", batch_id i);
      ("packaging_primary", packaging_primary i);
      ("packaging_secondary", packaging_secondary i);
      ("packaging_cushioning", packaging_cushioning i); ("comment", comment i);
      ("created_at", created_at i) ].

(** [v.isoformat()] *)
Definition isoformat (v : value) : result value :=
  match v with
  | VDateTime iso => Ok (VStr iso)
  | _ => Raise (AttributeError "object has no attribute 'isoformat'")
  end.

Definition _serialize_incident (incident : SupplierIncident)
  : result (gmap string value) :=
  let payload := asdict incident in
  let* reported := isoformat (date_reported incident) in
  let payload := <["date_reported" := reported]> payload in
  let* created := isoformat (created_at incident) in
  let payload := <["created_at" := created]> payload in
  Ok payload.

(** The id under which [client.index] files a document: a non-empty string
    (the client refuses an empty id; ids of other types are not modelled). *)
Definition document_id (id : value) : result text :=
  match id with
  | VStr (c :: s) => Ok (c :: s)
  | VStr [] => Raise (ValueError "Empty value passed for parameter 'id'")
  | _ => Raise (TypeError "document id must be a string")
  end.

Definition insert_incident (incident : SupplierIncident) (w : world)
  : result unit * world :=
  match _serialize_incident incident with
  | Raise x => (Raise x, w)
  | Ok document =>
    match document_id (incident_id incident) with
    | Raise x => (Raise x, w)
    | Ok id =>
      (Ok tt, {| products := products w;
                 supplier_incidents := <[id := document]> (supplier_incidents w) |})
    end
  end.

(** *** The service layer ([api/services.py]) *)

Definition create_incident (e : env) (payload : gmap string value) (w : world)
  : result (gmap string value) * world :=
  let body := payload in
  let body :=
    if negb (truthy (get body "incident_id" VNone))
    then <["incident_id" := VStr (u "INC-" ++ take 12 (uuid4_hex e))]> body
    else body in
  let damage_type := get body "damage_type" VNone in
  let body :=
    match damage_type with
    | VStr _ => <["damage_type" := VList [damage_type]]> body
    | _ => body
    end in
  match py_gt (get body "qty_damaged" (VInt 0))
              (get body "qty_total_in_shipment" (VInt 0)) with
  | Raise x => (Raise x, w)
  | Ok true =>
    (Raise (ValueError "qty_damaged cannot exceed qty_total_in_shipment"), w)
  | Ok false =>
    match new_incident e body with
    | Raise x => (Raise x, w)
    | Ok incident =>
      match insert_incident incident w with
      | (Raise x, w') => (Raise x, w')
      | (Ok _, w') =>
        (Ok (<["incident_id" := incident_id incident]>
               (<["created" := VBool true]> ∅)), w')
      end
    end
  end.

Definition not_none (v : value) : bool :=
  match v with VNone => false | _ => true end.

(** [{k: v for k, v in d.items() if v is not None}] *)
Definition drop_none (d : gmap string value) : gmap string value :=
  filter (fun kv => not_none (snd kv) = true) d.

(** The text the extractor makes of an argument: a falsy argument counts as
    the empty string, and joining a truthy argument that is no string raises
    TypeError. *)
Definition as_text (v : value) : result text :=
  if truthy v then
    match v with
    | VStr s => Ok s
    | _ => Raise (TypeError "sequence item: expected str instance")
    end
  else Ok [].

Section Services.

Variable U : unicode_db.


(** Insert or update a product document with derived attributes. *)
Definition upsert_product (e : env) (payload : gmap string value) (w : world)
  : result (gmap string value) * world :=
  let base_doc := drop_none payload in
  match base_doc !! "sku" with
  | None => (Raise (KeyError "sku"), w)
  | Some sku =>
    let name := get base_doc "name" (VStr []) in
    let description :=
      py_or (get base_doc "description_html" VNone)
            (get base_doc "description_short" VNone) in
    let base_doc := delete "attributes" base_doc in
    match (let* n := as_text name in
           let* d := as_text description in
           extract_attributes U n (Some d)) with
    | Raise x => (Raise x, w)
    | Ok derived =>
      match get payload "attributes" (VDict ∅) with
      | VDict overrides =>
        let explicit_attrs := drop_none overrides in
        let derived := explicit_attrs ∪ derived in
        let base_doc := derived ∪ base_doc in
        let base_doc := <["updated_at" := VStr (now_iso e)]> base_doc in
        match document_id sku with
        | Raise x => (Raise x, w)
        | Ok id =>
          let w' := {| products := <[id := base_doc]> (products w);
                       supplier_incidents := supplier_incidents w |} in
          (Ok (<["sku" := sku]>
                 (<["indexed" := VBool true]>
                    (<["attributes" := VDict derived]>
                       (<["url" := product_url_for e sku]> ∅)))), w')
        end
      | _ => (Raise (AttributeError "object has no attribute 'items'"), w)
      end
    end
  end.


End Services.

(** The reading "every accepted incident carries a non-empty set of
    damage-type tags". *)
Definition accepted_incidents_have_tags : Prop :=
  forall e payload w r w',
    create_incident e payload w = (Ok r, w') ->
    exists id document tags,
      r !! "incident_id" = Some (VStr id)
      /\ supplier_incidents w' !! id = Some document
      /\ document !! "damage_type" = Some (VList tags) /\ tags <> [].

(** The value stored under [damage_type] for a submitted payload. *)
Definition normalized_damage_type (payload : gmap string value) : value :=
  match payload !! "damage_type" with
  | Some (VStr tag) => VList [VStr tag]
  | Some tags => tags
  | None => VList []
  end.

Definition sample_env : env :=
  {| uuid4_hex := u "0123456789abcdef0123456789abcdef";
     utcnow := VDateTime (u "2025-05-10T12:00:01");
     now_iso := u "2025-05-10T12:00:02";
     product_url_for := fun _ => VNone |}.


(** The dict a call returned, when it returned. *)
Definition returned (x : result (gmap string value)) : gmap string value :=
  match x with Ok r => r | Raise _ => ∅ end.

Definition empty_world : world := {| products := ∅; supplier_incidents := ∅ |}.

(** An incident payload as the API hands it over, with every optional field
    left out by the caller. *)
Definition sample_incident (qty_total qty_dmg : Z) (tags : value)
  : gmap string value :=
  list_to_map
    [ ("incident_id", VNone); ("supplier_id", VStr (u "SUP-1"));
      ("supplier_name", VStr (u "Furnizor Test"));
      ("date_reported", VDateTime (u "2025-05-10T12:00:00"));
      ("sku", VStr (u "SKU-1")); ("product_type", VStr (u "nail_polish"));
      ("category_main", VStr (u "Gel Polish"));
      ("qty_total_in_shipment", VInt qty_total); ("qty_damaged", VInt qty_dmg);
      ("damage_type", tags); ("shipment_id", VNone); ("transport_company", VNone);
      ("root_cause_guess", VNone); ("batch_id", VNone);
      ("packaging_primary", VNone); ("packaging_secondary", VNone);
      ("packaging_cushioning", VNone); ("comment", VNone) ].

(** ** The store's side of the analytics queries

    The analytics functions build a search request and read the response; the
    filtering, sorting, bucketing and the bucket script are carried out by the
    store.  This is the store's reading of those requests, over the documents
    of an index and the field types of [elastic_mappings.py]. *)

Inductive field_type :=
| Keyword
| Text
| ScaledFloat (factor : Z)
| Float
| Integer
| Date
| Boolean.

Definition PRODUCTS_MAPPING : list (string * field_type) :=
  [ ("sku", Keyword); ("name", Text); ("group_code", Keyword); ("active", Keyword);
    ("stock_status", Keyword); ("brand", Keyword); ("description_html", Text);
    ("description_short", Text); ("description_feed", Text);
    ("price", ScaledFloat 100); ("price_list", ScaledFloat 100);
    ("price_final", ScaledFloat 100); ("vat_included", Boolean);
    ("vat_rate", ScaledFloat 10); ("image_url", Keyword); ("image_main", Keyword);
    ("image_secondary_1", Keyword); ("image_secondary_2", Keyword);
    ("category_path", Keyword); ("category_main", Keyword);
    ("subcategory_level1", Keyword); ("subcategory_level2", Keyword);
    ("meta_title", Text); ("meta_description", Text); ("keywords", Keyword);
    ("cross_sell_skus", Keyword); ("up_sell_skus", Keyword);
    ("ingredients_html", Text); ("total_revenue", ScaledFloat 100);
    ("attr_volume_ml", Float); ("attr_color_name", Keyword);
    ("attr_shade_code", Keyword); ("attr_finish", Keyword);
    ("attr_curing_type", Keyword); ("attr_collection", Keyword);
    ("attr_liquid_type", Keyword); ("attr_scent", Keyword);
    ("attr_strength_percent", Float); ("attr_length_mm", Float);
    ("attr_material", Keyword); ("attr_grit", Keyword); ("attr_shape", Keyword);
    ("updated_at", Date) ].

(** The values a field holds: arrays are flattened and nulls dropped. *)
Fixpoint field_values (v : value) : list value :=
  match v with
  | VNone => []
  | VList l => flat_map field_values l
  | _ => [v]
  end.

Definition values_of (doc : gmap string value) (field : string) : list value :=
  field_values (get doc field VNone).

(** The strings of a keyword field. *)
Definition keywords (doc : gmap string value) (field : string) : list text :=
  flat_map (fun v => match v with VStr s => [s] | _ => [] end) (values_of doc field).


(** The integers of an integer field. *)
Definition integers (doc : gmap string value) (field : string) : list Z :=
  flat_map (fun v => match v with VInt n => [n] | _ => [] end) (values_of doc field).

Definition mapped (mapping : list (string * field_type)) (field : string) : bool :=
  match assoc field mapping with Some _ => true | None => false end.

(** [{"exists": {"field": field}}]: the field is mapped (the indices are
    created with dynamic mapping off) and the document holds a value for it. *)
Definition exists_query (mapping : list (string * field_type)) (field : string)
    (doc : gmap string value) : bool :=
  mapped mapping field && match values_of doc field with [] => false | _ => true end.

Definition text_eqb (a b : text) : bool := bool_decide (a = b).

(** [{"term": {field: v}}] on a keyword field. *)
Definition term_query (field : string) (v : text) (doc : gmap string value) : bool :=
  existsb (text_eqb v) (keywords doc field).


Definition maximum (l : list Z) : option Z :=
  match l with
  | [] => None
  | x :: l' => Some (fold_left Z.max l' x)
  end.

Definition text_leb (a b : text) : bool := negb (text_ltb b a).






Section Sorting.

Context {A : Type} (leb : A -> A -> bool).

Fixpoint insert_sorted (x : A) (l : list A) : list A :=
  match l with
  | [] => [x]
  | y :: l' => if leb x y then x :: l else y :: insert_sorted x l'
  end.

(** The order in which the store returns hits or buckets: sorted by [leb],
    ties in the order of the index. *)
Fixpoint sort_by (l : list A) : list A :=
  match l with
  | [] => []
  | x :: l' => insert_sorted x (sort_by l')
  end.

End Sorting.

Definition index_docs (index : gmap text (gmap string value))
  : list (gmap string value) :=
  map snd (map_to_list index).




(** *** Buckets *)

(** A terms aggregation: one bucket per value of the field, the largest
    buckets first (equal counts by key), cut at [size]. *)
Definition bucket_leb (a b : text * list (gmap string value)) : bool :=
  Nat.ltb (length (snd b)) (length (snd a))
  || (Nat.eqb (length (snd a)) (length (snd b)) && text_leb (fst a) (fst b)).

Definition terms_buckets (field : string) (size : nat) (docs : list (gmap string value))
  : list (text * list (gmap string value)) :=
  take size
    (sort_by bucket_leb
       (map (fun k => (k, List.filter (term_query field k) docs))
            (remove_dups (flat_map (fun doc => keywords doc field) docs)))).

(** A sum aggregation on an integer field. *)
Definition sum_field (field : string) (docs : list (gmap string value)) : Z :=
  fold_right Z.add 0%Z (flat_map (fun doc => integers doc field) docs).

(** A value_count aggregation. *)
Definition value_count (field : string) (docs : list (gmap string value)) : Z :=
  Z.of_nat (length (flat_map (fun doc => values_of doc field) docs)).

(** The bucket script of the damage-rate requests:
    [params.total == 0 ? 0 : params.damaged / params.total]. *)
Definition damage_rate_script (damaged total : Q) : Q :=
  if Qeq_bool total 0 then 0 else damaged / total.

(** The metrics of one bucket of a damage-rate request.  With the default gap
    policy the store does not run a bucket script on a bucket without
    documents, and such a bucket carries no [damage_rate]. *)
Record rate_bucket := {
  rb_doc_count : nat;
  rb_total_qty : Q;
  rb_damaged_qty : Q;
  rb_damage_rate : option Q
}.

Definition rate_metrics (docs : list (gmap string value)) : rate_bucket :=
  let total := inject_Z (sum_field "qty_total_in_shipment" docs) in
  let damaged := inject_Z (sum_field "qty_damaged" docs) in
  {| rb_doc_count := length docs;
     rb_total_qty := total;
     rb_damaged_qty := damaged;
     rb_damage_rate :=
       match docs with
       | [] => None
       | _ => Some (damage_rate_script damaged total)
       end |}.

(** [bucket["damage_rate"]["value"]] *)
Definition read_damage_rate (b : rate_bucket) : result Q :=
  match rb_damage_rate b with
  | Some v => Ok v
  | None => Raise (KeyError "damage_rate")
  end.

Fixpoint all_ok {A} (l : list (result A)) : result (list A) :=
  match l with
  | [] => Ok []
  | x :: l' => let* a := x in let* r := all_ok l' in Ok (a :: r)
  end.

(** *** [supplier_incidents.py]: the KPI queries *)

Record kpi_row := {
  row_supplier_id : text;
  row_product_type : option text;
  row_damage_rate : Q;
  row_qty_total : Q;
  row_qty_damaged : Q
}.

Definition kpi_of_bucket (supplier : text) (type : option text)
    (docs : list (gmap string value)) : result kpi_row :=
  let bucket := rate_metrics docs in
  let* rate := read_damage_rate bucket in
  Ok {| row_supplier_id := supplier;
        row_product_type := type;
        row_damage_rate := rate;
        row_qty_total := rb_total_qty bucket;
        row_qty_damaged := rb_damaged_qty bucket |}.

Definition damage_rate_per_supplier (product_type : option text) (w : world)
  : result (list kpi_row) :=
  let docs := index_docs (supplier_incidents w) in
  let docs :=
    match product_type with
    | Some (c :: t) => List.filter (term_query "product_type" (c :: t)) docs
    | _ => docs
    end in
  all_ok (map (fun b => kpi_of_bucket (fst b) None (snd b))
              (terms_buckets "supplier_id" 50 docs)).

Definition damage_rate_per_supplier_and_type (w : world) : result (list kpi_row) :=
  let docs := index_docs (supplier_incidents w) in
  all_ok
    (flat_map
       (fun supplier_bucket =>
          map (fun type_bucket =>
                 kpi_of_bucket (fst supplier_bucket) (Some (fst type_bucket))
                   (snd type_bucket))
              (terms_buckets "product_type" 10 (snd supplier_bucket)))
       (terms_buckets "supplier_id" 50 docs)).

Definition ascii_digit (c : N) : option Z :=
  if in_range 48 57 c then Some (Z.of_N c - 48)%Z else None.

(** The calendar month of an ISO date-time, counted in months. *)
Definition month_of_iso (s : text) : option Z :=
  match s with
  | y1 :: y2 :: y3 :: y4 :: 45%N :: m1 :: m2 :: _ =>
    match ascii_digit y1, ascii_digit y2, ascii_digit y3, ascii_digit y4,
          ascii_digit m1, ascii_digit m2 with
    | Some a, Some b, Some c, Some d, Some e, Some f =>
      Some ((1000 * a + 100 * b + 10 * c + d) * 12 + (10 * e + f - 1))%Z
    | _, _, _, _, _, _ => None
    end
  | _ => None
  end.

Definition doc_month (doc : gmap string value) : option Z :=
  match doc !! "date_reported" with
  | Some (VStr s) => month_of_iso s
  | _ => None
  end.

Definition digit_char (d : Z) : N := (48 + Z.to_N (d mod 10))%N.

(** [key_as_string] of a month bucket. *)
Definition iso_of_month (m : Z) : text :=
  let y := (m / 12)%Z in
  let mm := (m mod 12 + 1)%Z in
  [digit_char (y / 1000); digit_char (y / 100); digit_char (y / 10); digit_char y;
   45%N; digit_char (mm / 10); digit_char mm] ++ u "-01T00:00:00.000Z".

Definition least_Z (l : list Z) : option Z :=
  match l with [] => None | x :: l' => Some (fold_left Z.min l' x) end.

(** A date histogram by calendar month: every month from the first to the
    last that holds a document, the empty ones included. *)
Definition month_buckets (docs : list (gmap string value))
  : list (Z * list (gmap string value)) :=
  let months := omap doc_month docs in
  match least_Z months, maximum months with
  | Some lo, Some hi =>
    map (fun i => let m := (lo + Z.of_nat i)%Z in
                  (m, List.filter (fun doc => bool_decide (doc_month doc = Some m)) docs))
        (seq 0 (Z.to_nat (hi - lo + 1)))
  | _, _ => []
  end.

Record monthly_row := {
  row_month : text;
  row_month_damage_rate : Q;
  row_month_qty_total : Q;
  row_month_qty_damaged : Q
}.

Definition monthly_damage_rate_for_supplier (supplier : text) (w : world)
  : result (list monthly_row) :=
  let docs := List.filter (term_query "supplier_id" supplier)
                (index_docs (supplier_incidents w)) in
  all_ok
    (map (fun b =>
            let bucket := rate_metrics (snd b) in
            let* rate := read_damage_rate bucket in
            Ok {| row_month := iso_of_month (fst b);
                  row_month_damage_rate := rate;
                  row_month_qty_total := rb_total_qty bucket;
                  row_month_qty_damaged := rb_damaged_qty bucket |})
         (month_buckets docs)).

(** *** [attribute_analysis.py]: coverage *)

Record coverage_row := {
  row_category_main : text;
  row_total_skus : Z;
  row_with_attribute : Z;
  row_coverage_ratio : Q
}.

Definition attribute_coverage_by_category (attribute_field : string) (w : world)
  : list coverage_row :=
  map (fun bucket =>
         let total := value_count "sku" (snd bucket) in
         let with_attr :=
           value_count "sku"
             (List.filter (exists_query PRODUCTS_MAPPING attribute_field) (snd bucket)) in
         let coverage :=
           (if (total =? 0)%Z then 0 else inject_Z with_attr / inject_Z total)%Q in
         {| row_category_main := fst bucket;
            row_total_skus := total;
            row_with_attribute := with_attr;
            row_coverage_ratio := coverage |})
      (terms_buckets "category_main" 200 (index_docs (products w))).

(** Every stored incident has damaged at most its total, and neither is
    negative. *)
Definition valid_quantities (w : world) : Prop :=
  forall doc, In doc (index_docs (supplier_incidents w)) ->
    (0 <= sum_field "qty_damaged" [doc] <= sum_field "qty_total_in_shipment" [doc])%Z.

Definition unit_ratio (q : Q) : Prop := (0 <= q /\ q <= 1)%Q.

(** The reading "every damage rate lies in [0, 1]", whatever the store
    holds. *)
Definition damage_rate_always_unit : Prop :=
  forall product_type w rows row,
    damage_rate_per_supplier product_type w = Ok rows -> In row rows ->
    unit_ratio (row_damage_rate row).


(** ** The rest of the services, the tools and the routes *)

(** The zero-denominator rule and, for a store whose incidents are valid, the
    unit interval. *)
Definition rate_ok (w : world) (rate total : Q) : Prop :=
  (total == 0 -> rate = 0)%Q /\ (valid_quantities w -> unit_ratio rate).

(** The documents a KPI query works on: all incidents, or those of the given
    product type when that is a non-empty string. *)
Definition kpi_docs (product_type : option text) (w : world) : list (gmap string value) :=
  match product_type with
  | Some (c :: t) => List.filter (term_query "product_type" (c :: t))
                       (index_docs (supplier_incidents w))
  | _ => index_docs (supplier_incidents w)
  end.

(** The body [create_incident] works on: the payload with a generated id
    when it brings none, and a lone damage-type string wrapped in a list. *)
Definition incident_body (e : env) (payload : gmap string value) : gmap string value :=
  let body :=
    if negb (truthy (get payload "incident_id" VNone))
    then <["incident_id" := VStr (u "INC-" ++ take 12 (uuid4_hex e))]> payload
    else payload in
  match get body "damage_type" VNone with
  | VStr tag => <["damage_type" := VList [VStr tag]]> body
  | _ => body
  end.

(** The document [insert_incident] files for an incident whose dates are
    datetimes. *)
Definition incident_document (i : SupplierIncident) (reported created : text)
  : gmap string value :=
  <["created_at" := VStr created]> (<["date_reported" := VStr reported]> (asdict i)).

Definition required_fields : list string :=
  [ "incident_id"; "supplier_id"; "supplier_name"; "date_reported"; "sku";
    "product_type"; "category_main"; "qty_total_in_shipment"; "qty_damaged" ].

(** The default of a field of the dataclass. *)
Definition incident_default (e : env) (field : string) : value :=
  if String.eqb field "damage_type" then VList []
  else if String.eqb field "created_at" then utcnow e
  else VNone.





Record distribution_row := {
  dist_supplier_id : text;
  dist_damage_types : list (text * Z)
}.

(** [supplier_incidents.damage_types_distribution_per_supplier] *)
Definition damage_types_distribution_per_supplier (w : world) : list distribution_row :=
  map (fun supplier_bucket =>
         {| dist_supplier_id := fst supplier_bucket;
            dist_damage_types :=
              map (fun type_bucket =>
                     (fst type_bucket, Z.of_nat (length (snd type_bucket))))
                  (terms_buckets "damage_type" 20 (snd supplier_bucket)) |})
      (terms_buckets "supplier_id" 50 (index_docs (supplier_incidents w))).

(** The incidents of one supplier. *)
Definition supplier_docs (supplier : text) (w : world) : list (gmap string value) :=
  List.filter (term_query "supplier_id" supplier) (index_docs (supplier_incidents w)).



(** The digit values the interpreter's tables give lie in 0..9. *)
Definition decimal_digits_ok (U : unicode_db) : Prop :=
  forall c n, ext_decimal U c = Some n -> (n <= 9)%N.

(** The largest number a numeric key can hold: its pattern takes at most
    four digits for the length and three for the others. *)
Definition number_bound (key : string) : Z :=
  if String.eqb key "attr_length_mm" then 9999%Z else 999%Z.

(** The values of the curing type. *)
Definition CURING_VALUES : list text := map u ["UV/LED"; "UVLED"; "UV"; "LED"].

(** Group 1 of the pattern holds at most [n] code points. *)
Definition width_pattern (U : unicode_db) (n : nat) (pat : regex) : Prop :=
  forall s w s', matches U pat s w s' ->
    exists d, assoc_group 1 (ms_caps s') = Some d /\ length d <= n.

(** *** [audit_attributes.py] *)

Definition USUAL_GRITS : list text := map u ["80/80"; "100/180"; "150/180"; "180/240"].

(** [v == n] for an integer literal [n]: numbers compare by value, any other
    value is unequal. *)
Definition py_eq_int (v : value) (n : Z) : bool :=
  match as_number v with
  | Some q => Qeq_bool q (inject_Z n)
  | None => false
  end.

(** [audit_attributes.flag_attributes]; the membership test hashes the grit,
    which raises TypeError on a list or a dict. *)
Definition flag_attributes (doc : gmap string value) : result (list text) :=
  let volume := get doc "attr_volume_ml" VNone in
  let* flags :=
    match volume with
    | VNone => Ok []
    | _ =>
      if py_eq_int volume 0 then Ok [u "volum 0 ml"]
      else
        let* above := py_gt volume (VInt 200) in
        Ok (if above then [u "volum > 200 ml"] else [])
    end in
  let grit := get doc "attr_grit" VNone in
  if truthy grit then
    match grit with
    | VList _ | VDict _ => Raise (TypeError "unhashable type")
    | VStr g =>
      Ok (if existsb (text_eqb g) USUAL_GRITS then flags
          else flags ++ [u "grit neuzual"])
    | _ => Ok (flags ++ [u "grit neuzual"])
    end
  else Ok flags.

(** The flags of a volume [q] and a grit [g], when present. *)
Definition volume_flags (volume : option Q) : list text :=
  match volume with
  | None => []
  | Some q => if Qeq_bool q 0 then [u "volum 0 ml"]
              else if Qle_bool q 200 then [] else [u "volum > 200 ml"]
  end.

Definition grit_flags (grit : option text) : list text :=
  match grit with
  | None => []
  | Some g => if existsb (text_eqb g) USUAL_GRITS then [] else [u "grit neuzual"]
  end.

(** *** [ingest_products.py] *)

(** [s.split(sep)] for a one-character separator. *)
Fixpoint split_on (sep : N) (s : text) : list text :=
  match s with
  | [] => [[]]
  | c :: r =>
    if (c =? sep)%N then [] :: split_on sep r
    else
      match split_on sep r with
      | p :: ps => (c :: p) :: ps
      | [] => [[c]]
      end
  end.

(** [ingest_products._split_list] on a cell of the export, which is a string
    or None. *)
Definition _split_list (value : option text) : option (list text) :=
  match value with
  | None => None
  | Some s =>
    match List.filter nonempty (map strip (split_on 44 s)) with
    | [] => None
    | parts => Some parts
    end
  end.

(** [", ".join(parts)] *)
Fixpoint join_comma (parts : list text) : text :=
  match parts with
  | [] => []
  | [p] => p
  | p :: ps => p ++ 44%N :: 32%N :: join_comma ps
  end.

(** A list entry as [_split_list] returns it: not empty, without a comma and
    without white space at either end. *)
Definition clean_part (p : text) : Prop :=
  p <> [] /\ ~ In 44%N p
  /\ (forall c, head p = Some c -> is_space c = false)
  /\ (forall c, last p = Some c -> is_space c = false).

(** *** [validate_products.py] *)

(** [client.count(index=index, query=query)["count"]] for the query
    [{"bool": {"must_not": {"exists": {"field": field}}}}] on the products
    index. *)
Definition count_missing (field : string) (w : world) : Z :=
  Z.of_nat (length (List.filter (fun doc => negb (exists_query PRODUCTS_MAPPING field doc))
                                (index_docs (products w)))).

(** [client.count(index=index)["count"]] *)
Definition count_products (w : world) : Z :=
  Z.of_nat (length (index_docs (products w))).

(** [validate_products.missing_percentage] on the products index. *)
Definition missing_percentage (field : string) (total : Z) (w : world) : Q :=
  if (total =? 0)%Z then 0 else inject_Z (count_missing field w) / inject_Z total.

(** *** [settings.py] *)

(** What [_merge] stores under a key of the override: the merge of the two
    values when both are dicts, the override's value otherwise. *)
Fixpoint merge_entry (old : option value) (v : value) {struct v} : value :=
  match v, old with
  | VDict override, Some (VDict base) =>
    VDict (map_fold (fun key v' result =>
                       <[key := merge_entry (result !! key) v']> result)
                    base override)
  | _, _ => v
  end.

(** [settings._merge] *)
Definition _merge (base override : gmap string value) : gmap string value :=
  map_fold (fun key v result => <[key := merge_entry (result !! key) v]> result)
           base override.

(** How deep the dicts of a value nest. *)
Fixpoint depth (v : value) : nat :=
  match v with
  | VDict d => S (map_fold (fun _ x acc => Nat.max (depth x) acc) 0 d)
  | _ => 0
  end.

(** *** [api/main.py]: the routes.
    The routes in the order the module declares them.  A request path is
    taken by its segments; a path parameter takes one non-empty segment, and
    the first route whose method and path match serves the request. *)

Module Api.

Inductive http_method := GET | POST.

Inductive segment :=
| Lit (s : text)
| Param (name : string).

Inductive endpoint :=
| healthcheck
| ingest_product
| get_product
| get_missing_attributes
| create_incident
| list_incidents
| get_supplier_kpis
| get_supplier_kpis_by_type
| get_supplier_monthly_kpis
| get_damage_distribution
| get_daily_stats.

Definition literal (s : string) : segment := Lit (u s).

Definition routes : list (http_method * list segment * endpoint) :=
  [ (GET, [literal "healthz"], healthcheck);
    (POST, [literal "api"; literal "products"], ingest_product);
    (GET, [literal "api"; literal "products"; Param "sku"], get_product);
    (GET, [literal "api"; literal "products"; literal "missing-attributes"], get_missing_attributes);
    (POST, [literal "api"; literal "incidents"], create_incident);
    (GET, [literal "api"; literal "incidents"], list_incidents);
    (GET, [literal "api"; literal "incidents"; literal "kpis"], get_supplier_kpis);
    (GET, [literal "api"; literal "incidents"; literal "kpis"; literal "by-type"],
     get_supplier_kpis_by_type);
    (GET, [literal "api"; literal "incidents"; literal "kpis"; Param "supplier_id"; literal "monthly"],
     get_supplier_monthly_kpis);
    (GET, [literal "api"; literal "incidents"; literal "summary"; literal "damage-types"],
     get_damage_distribution);
    (GET, [literal "api"; literal "stats"; literal "daily"; Param "sku"], get_daily_stats) ].

Fixpoint match_path (pattern : list segment) (path : list text)
  : option (list (string * text)) :=
  match pattern, path with
  | [], [] => Some []
  | Lit s :: pattern', x :: path' =>
    if text_eqb s x then match_path pattern' path' else None
  | Param name :: pattern', x :: path' =>
    if nonempty x then option_map (cons (name, x)) (match_path pattern' path')
    else None
  | _, _ => None
  end.

Definition method_eqb (a b : http_method) : bool :=
  match a, b with GET, GET | POST, POST => true | _, _ => false end.

Fixpoint dispatch_in (rs : list (http_method * list segment * endpoint))
    (m : http_method) (path : list text) : option (endpoint * list (string * text)) :=
  match rs with
  | [] => None
  | (m', pattern, e) :: rs' =>
    if method_eqb m m' then
      match match_path pattern path with
      | Some params => Some (e, params)
      | None => dispatch_in rs' m path
      end
    else dispatch_in rs' m path
  end.

Definition dispatch : http_method -> list text -> option (endpoint * list (string * text)) :=
  dispatch_in routes.

End Api.

(** An accepted incident, on the empty store. *)
Definition created_sample : result (gmap string value) * world :=
  create_incident sample_env (sample_incident 100 5 (VList [VStr (u "leakage")]))
    empty_world.




(** * Properties *)

(** ** The matcher against the reading of the patterns *)

Section EngineFacts.

Variable U : unicode_db.

Lemma or_else_Some {A} (x y : option A) (a : A) :
  or_else x y = Some a -> x = Some a \/ (x = None /\ y = Some a).
Proof. destruct x; simpl; intros H; [left | right]; auto. Qed.

Lemma or_else_is_Some {A} (x y : option A) :
  is_Some x \/ is_Some y -> is_Some (or_else x y).
Proof. destruct x; simpl; intros [H | H]; eauto; destruct H; discriminate. Qed.

Lemma step_inv p s s' :
  step p s = Some s' ->
  exists c, ms_rest s = c :: ms_rest s' /\ p c = true
            /\ ms_prev s' = Some c /\ ms_caps s' = ms_caps s.
Proof.
  unfold step. destruct (ms_rest s) as [|c r] eqn:E; [discriminate|].
  destruct (p c) eqn:Hp; [|discriminate].
  intros [= <-]. exists c. simpl. auto.
Qed.

Lemma step_head p s s' : step p s = Some s' -> is_Some (head (ms_rest s)).
Proof. intros (c & E & _)%step_inv. rewrite E. simpl. eauto. Qed.

Lemma run_rest p s w s' : run p s w s' -> ms_rest s = w ++ ms_rest s'.
Proof.
  induction 1 as [|s c s1 w s' Hh Hs _ IH]; [reflexivity|].
  apply step_inv in Hs as (c' & E & _). rewrite E in Hh. simpl in Hh.
  injection Hh as ->. rewrite E, IH. reflexivity.
Qed.

Lemma run_caps p s w s' : run p s w s' -> ms_caps s' = ms_caps s.
Proof.
  induction 1 as [|s c s1 w s' Hh Hs _ IH]; [reflexivity|].
  apply step_inv in Hs as (c' & _ & _ & _ & E). congruence.
Qed.

Lemma run_Forall p s w s' : run p s w s' -> Forall (fun c => p c = true) w.
Proof.
  induction 1 as [|s c s1 w s' Hh Hs _ IH]; constructor; auto.
  apply step_inv in Hs as (c' & E & Hp & _). rewrite E in Hh. simpl in Hh.
  congruence.
Qed.

Lemma run_app p s w1 s1 w2 s2 :
  run p s w1 s1 -> run p s1 w2 s2 -> run p s (w1 ++ w2) s2.
Proof. induction 1; simpl; eauto using run. Qed.

Lemma run_split p s w s' n :
  run p s w s' -> n <= length w ->
  exists s1, run p s (take n w) s1 /\ run p s1 (drop n w) s'.
Proof.
  intros H. revert n. induction H as [|s c s1 w s' Hh Hs Hr IH]; intros n Hn.
  - destruct n; simpl in *; [|lia]. eauto using run.
  - destruct n as [|n]; simpl.
    + exists s. split; eauto using run.
    + simpl in Hn. destruct (IH n) as (s2 & H1 & H2); [lia|].
      exists s2. split; eauto using run.
Qed.

Section Continuations.

Context {A : Type}.
Implicit Types k : mstate -> option A.

Lemma m_exact_run p s w s' k : run p s w s' -> m_exact p (length w) k s = k s'.
Proof.
  induction 1 as [|s c s1 w s' Hh Hs _ IH]; simpl; [reflexivity|].
  rewrite Hs. exact IH.
Qed.

Lemma m_exact_sound p n k s x :
  m_exact p n k s = Some x ->
  exists w s', run p s w s' /\ length w = n /\ k s' = Some x.
Proof.
  revert s. induction n as [|n IH]; simpl; intros s H.
  - exists [], s. eauto using run.
  - destruct (step p s) as [s1|] eqn:Hs; [|discriminate].
    destruct (IH _ H) as (w & s' & Hr & Hl & Hk).
    destruct (step_head _ _ _ Hs) as [c Hc].
    exists (c :: w), s'. simpl. eauto using run.
Qed.

Lemma m_upto_sound p g n k s x :
  m_upto p g n k s = Some x ->
  exists w s', run p s w s' /\ length w <= n /\ k s' = Some x.
Proof.
  revert s. induction n as [|n IH]; simpl; intros s H.
  - exists [], s. eauto using run.
  - assert (Hcases : k s = Some x \/
              exists s1, step p s = Some s1 /\ m_upto p g n k s1 = Some x).
    { destruct g; apply or_else_Some in H as [H | [_ H]]; auto;
        destruct (step p s) eqn:Hs; try discriminate; eauto. }
    destruct Hcases as [Hk | (s1 & Hs & Hm)].
    + exists [], s. split; [constructor|]. split; [simpl; lia | exact Hk].
    + destruct (IH _ Hm) as (w & s' & Hr & Hl & Hk).
      destruct (step_head _ _ _ Hs) as [c Hc].
      exists (c :: w), s'. simpl. split; [eauto using run|]. split; [lia | exact Hk].
Qed.

Lemma m_upto_complete p g n k s w s' :
  run p s w s' -> length w <= n -> is_Some (k s') -> is_Some (m_upto p g n k s).
Proof.
  intros Hr. revert n. induction Hr as [|s c s1 w s' Hh Hs _ IH]; intros n Hn Hk.
  - destruct n; simpl; [exact Hk|].
    destruct g; apply or_else_is_Some; auto.
  - destruct n as [|n]; simpl in *; [lia|].
    rewrite Hs. assert (is_Some (m_upto p g n k s1)) by (apply IH; [lia | exact Hk]).
    destruct g; apply or_else_is_Some; auto.
Qed.

Lemma m_sound r : forall k s x,
  m U r k s = Some x -> exists w s', matches U r s w s' /\ k s' = Some x.
Proof.
  induction r as [|p|a IHa b IHb|a IHa b IHb|g lo hi p|i a IHa| |]; simpl; intros k s x H.
  - exists [], s. eauto using matches.
  - destruct (step p s) as [s'|] eqn:Hs; [|discriminate].
    destruct (step_head _ _ _ Hs) as [c Hc].
    exists [c], s'. eauto using matches.
  - apply IHa in H as (w1 & s1 & H1 & H).
    apply IHb in H as (w2 & s2 & H2 & H).
    exists (w1 ++ w2), s2. eauto using matches.
  - apply or_else_Some in H as [H | [_ H]].
    + apply IHa in H as (w & s' & H1 & H). eauto using matches.
    + apply IHb in H as (w & s' & H1 & H). eauto using matches.
  - apply m_exact_sound in H as (w1 & s1 & Hr1 & Hl1 & H).
    apply m_upto_sound in H as (w2 & s2 & Hr2 & Hl2 & H).
    exists (w1 ++ w2), s2. split; [|exact H].
    constructor; [eauto using run_app | rewrite length_app; lia |].
    intros h ->. rewrite length_app. lia.
  - apply IHa in H as (w & s' & H1 & H).
    exists w, (close_group i s s'). eauto using matches.
  - destruct (at_boundary U s) eqn:Hb; [|discriminate].
    exists [], s. eauto using matches.
  - destruct (at_end s) eqn:Hb; [|discriminate].
    exists [], s. eauto using matches.
Qed.

Lemma m_complete r s w s' :
  matches U r s w s' -> forall k, is_Some (k s') -> is_Some (m U r k s).
Proof.
  induction 1 as [s|p s c s' Hh Hs|a b s w1 s1 w2 s2 _ IH1 _ IH2
                  |a b s w s' _ IH|a b s w s' _ IH|g lo hi p s w s' Hr Hlo Hhi
                  |i a s w s' _ IH|s Hb|s Hb]; simpl; intros k Hk.
  - exact Hk.
  - rewrite Hs. exact Hk.
  - apply IH1, IH2, Hk.
  - apply or_else_is_Some. left. apply IH, Hk.
  - apply or_else_is_Some. right. apply IH, Hk.
  - destruct (run_split _ _ _ _ lo Hr Hlo) as (s1 & H1 & H2).
    assert (Hl : length (take lo w) = lo) by (rewrite length_take; lia).
    rewrite <- Hl at 1. rewrite (m_exact_run _ _ _ _ _ H1).
    eapply m_upto_complete; [exact H2| |exact Hk].
    rewrite length_drop. destruct hi as [h|].
    + specialize (Hhi h eq_refl). lia.
    + apply run_rest in H2. rewrite H2, length_app, length_drop. lia.
  - apply IH, Hk.
  - rewrite Hb. exact Hk.
  - rewrite Hb. exact Hk.
Qed.

End Continuations.

Lemma matches_rest r s w s' : matches U r s w s' -> ms_rest s = w ++ ms_rest s'.
Proof.
  induction 1 as [s|p s c s' Hh Hs|a b s w1 s1 w2 s2 _ IH1 _ IH2
                  |a b s w s' _ IH|a b s w s' _ IH|g lo hi p s w s' Hr Hlo Hhi
                  |i a s w s' _ IH|s Hb|s Hb]; simpl; auto.
  - apply step_inv in Hs as (c' & E & _). rewrite E in Hh. simpl in Hh.
    injection Hh as ->. exact E.
  - rewrite IH1, IH2, app_assoc. reflexivity.
  - eauto using run_rest.
Qed.

Lemma take_consumed (w r : text) : take (length (w ++ r) - length r) (w ++ r) = w.
Proof.
  rewrite length_app. replace (length w + length r - length r) with (length w) by lia.
  apply take_app_length.
Qed.

Lemma close_group_caps r i s w s' :
  matches U r s w s' -> ms_caps (close_group i s s') = (i, w) :: ms_caps s'.
Proof.
  intros H%matches_rest. unfold close_group. simpl. rewrite H, take_consumed.
  reflexivity.
Qed.

Lemma ctx_state_cons prev c pre rest :
  ctx_state prev (c :: pre) rest = ctx_state (Some c) pre rest.
Proof. unfold ctx_state. rewrite last_cons. destruct (last pre); reflexivity. Qed.

Lemma ctx_state_None pre rest : ctx_state None pre rest = state_at pre rest.
Proof. unfold ctx_state, state_at. destruct (last pre); reflexivity. Qed.

Lemma match_at_sound r pos prev rest mo :
  match_at U r pos prev rest = Some mo ->
  exists w s', matches U r (ctx_state prev [] rest) w s'
    /\ mo = {| mo_start := pos; mo_group0 := w; mo_caps := ms_caps s' |}.
Proof.
  unfold match_at. intros H. apply m_sound in H as (w & s' & Hm & [= <-]).
  exists w, s'. split; [exact Hm|].
  apply matches_rest in Hm. simpl in Hm. rewrite Hm, take_consumed. reflexivity.
Qed.

Lemma match_at_complete r pos prev rest w s' :
  matches U r (ctx_state prev [] rest) w s' -> is_Some (match_at U r pos prev rest).
Proof. intros H. unfold match_at. eapply m_complete; [exact H|]. eauto. Qed.

Lemma search_from_none r : forall rest pos prev,
  search_from U r pos prev rest = None ->
  forall pre rest' w s', rest = pre ++ rest' ->
    ~ matches U r (ctx_state prev pre rest') w s'.
Proof.
  induction rest as [|c rest IH]; simpl; intros pos prev H pre rest' w s' E Hm.
  - destruct pre; [|discriminate]. simpl in E. subst rest'.
    destruct (match_at_complete r pos prev [] w s' Hm) as [mo Hmo].
    rewrite Hmo in H. discriminate.
  - destruct pre as [|c' pre]; simpl in E.
    + subst rest'. destruct (match_at_complete r pos prev _ w s' Hm) as [mo Hmo].
      rewrite Hmo in H. discriminate.
    + injection E as -> ->. rewrite ctx_state_cons in Hm.
      destruct (match_at U r pos prev (c' :: pre ++ rest')); [discriminate|].
      simpl in H. eapply IH; eauto.
Qed.

Lemma search_from_sound r : forall rest pos prev mo,
  search_from U r pos prev rest = Some mo ->
  exists pre rest' w s',
    rest = pre ++ rest' /\ matches U r (ctx_state prev pre rest') w s'
    /\ mo = {| mo_start := pos + length pre; mo_group0 := w; mo_caps := ms_caps s' |}
    /\ forall pre2 rest2 w2 s2, rest = pre2 ++ rest2 -> length pre2 < length pre ->
          ~ matches U r (ctx_state prev pre2 rest2) w2 s2.
Proof.
  induction rest as [|c rest IH]; simpl; intros pos prev mo H.
  - apply or_else_Some in H as [H | [_ H]]; [|discriminate].
    apply match_at_sound in H as (w & s' & Hm & ->).
    exists [], [], w, s'. simpl. rewrite Nat.add_0_r.
    repeat split; auto. intros; lia.
  - apply or_else_Some in H as [H | [Hn H]].
    + apply match_at_sound in H as (w & s' & Hm & ->).
      exists [], (c :: rest), w, s'. simpl. rewrite Nat.add_0_r.
      repeat split; auto. intros; lia.
    + apply IH in H as (pre & rest' & w & s' & -> & Hm & -> & Hleft).
      exists (c :: pre), rest', w, s'. rewrite ctx_state_cons. simpl.
      replace (pos + S (length pre)) with (S pos + length pre) by lia.
      repeat split; auto.
      intros pre2 rest2 w2 s2 E Hlen Hm2.
      destruct pre2 as [|c2 pre2]; simpl in E.
      * subst rest2.
        destruct (match_at_complete r pos prev _ w2 s2 Hm2) as [mo Hmo].
        rewrite Hmo in Hn. discriminate.
      * injection E as -> E. rewrite ctx_state_cons in Hm2.
        simpl in Hlen. eapply Hleft; eauto. lia.
Qed.

(** [search] returns the leftmost occurrence of the pattern, and [None]
    exactly when the pattern occurs nowhere. *)
Lemma search_Some r t mo :
  search U r t = Some mo ->
  exists pre, occurs_at U r t pre (mo_group0 mo) (mo_caps mo)
    /\ mo_start mo = length pre
    /\ forall pre2 w2 caps2, length pre2 < length pre -> ~ occurs_at U r t pre2 w2 caps2.
Proof.
  unfold search. intros H.
  apply search_from_sound in H as (pre & rest & w & s' & -> & Hm & -> & Hleft).
  rewrite ctx_state_None in Hm.
  exists pre. simpl. split; [|split; [reflexivity|]].
  - exists rest, s'. auto.
  - intros pre2 w2 caps2 Hlen (rest2 & s2 & E & Hm2 & _).
    rewrite <- ctx_state_None in Hm2. eapply Hleft; eauto.
Qed.

Lemma search_None r t : search U r t = None <-> ~ occurs U r t.
Proof.
  split.
  - intros H (pre & w & caps & rest & s' & E & Hm & _).
    rewrite <- ctx_state_None in Hm. eapply search_from_none; eauto.
  - intros Hn. destruct (search U r t) as [mo|] eqn:E; [|reflexivity].
    apply search_Some in E as (pre & Hocc & _). exfalso. apply Hn.
    exists pre, (mo_group0 mo), (mo_caps mo). exact Hocc.
Qed.

Lemma search_is_Some r t : is_Some (search U r t) <-> occurs U r t.
Proof.
  split.
  - intros [mo H]. apply search_Some in H as (pre & Hocc & _).
    exists pre, (mo_group0 mo), (mo_caps mo). exact Hocc.
  - intros Hocc. destruct (search U r t) as [mo|] eqn:E; [eauto|].
    apply search_None in E. contradiction.
Qed.

End EngineFacts.

(** ** The patterns of the extractor *)

Section ExtractorFacts.

Variable U : unicode_db.

Ltac inv_matches :=
  repeat match goal with
  | H : matches _ (Seq _ _) _ _ _ |- _ => inversion H; subst; clear H
  | H : matches _ (Grp ?i _) _ _ _ |- _ =>
    let Hb := fresh "Hbody" in
    inversion H as [ | | | | | |? ? ? ? ? Hb| | ]; subst; clear H;
    pose proof (close_group_caps _ _ i _ _ _ Hb)
  | H : matches _ (Alt _ _) _ _ _ |- _ => inversion H; subst; clear H
  | H : matches _ (Rep _ _ _ _) _ _ _ |- _ => inversion H; subst; clear H
  | H : matches _ (Chr _) _ _ _ |- _ => inversion H; subst; clear H
  | H : matches _ WordB _ _ _ |- _ => inversion H; subst; clear H
  | H : matches _ Eos _ _ _ |- _ => inversion H; subst; clear H
  | H : matches _ Eps _ _ _ |- _ => inversion H; subst; clear H
  end.

Lemma step_caps p s s' : step p s = Some s' -> ms_caps s' = ms_caps s.
Proof. intros (c & _ & _ & _ & E)%step_inv. exact E. Qed.

Ltac caps :=
  repeat match goal with
  | H : ms_caps (close_group ?i ?a ?b) = _ |- context [ms_caps (close_group ?i ?a ?b)] =>
    rewrite H
  | H : step _ _ = Some ?b |- context [ms_caps ?b] => rewrite (step_caps _ _ _ H)
  | H : run _ _ _ ?b |- context [ms_caps ?b] => rewrite (run_caps _ _ _ _ H)
  end.

Lemma run_digit_string s d s' lo :
  run (is_digit U) s d s' -> S lo <= length d -> digit_string U d.
Proof.
  intros Hr Hl. split; [|eauto using run_Forall].
  intros ->. simpl in Hl. lia.
Qed.

Lemma volume_group1 s w s' :
  matches U (VOLUME_PATTERN U) s w s' ->
  exists d w', w = d ++ w' /\ assoc_group 1 (ms_caps s') = Some d /\ digit_string U d.
Proof.
  unfold VOLUME_PATTERN. vm_compute (u "ml"). cbn [seq_all ci_lits map].
  intros H. inv_matches. caps. simpl.
  do 2 eexists. split; [reflexivity|]. eauto using run_digit_string.
Qed.

Lemma length_group1 s w s' :
  matches U (LENGTH_PATTERN U) s w s' ->
  exists d w', w = d ++ w' /\ assoc_group 1 (ms_caps s') = Some d /\ digit_string U d.
Proof.
  unfold LENGTH_PATTERN. vm_compute (u "mm"). cbn [seq_all ci_lits map].
  intros H. inv_matches. caps. simpl.
  do 2 eexists. split; [reflexivity|]. eauto using run_digit_string.
Qed.

Lemma strength_group1 s w s' :
  matches U (STRENGTH_PATTERN U) s w s' ->
  exists d w', w = d ++ w' /\ assoc_group 1 (ms_caps s') = Some d /\ digit_string U d.
Proof.
  unfold STRENGTH_PATTERN. cbn [seq_all].
  intros H. inv_matches. caps. simpl.
  do 2 eexists. split; [reflexivity|]. eauto using run_digit_string.
Qed.

Lemma digits_value_Some d : forall acc,
  Forall (fun c => is_digit U c = true) d -> is_Some (digits_value U acc d).
Proof.
  induction d as [|c d IH]; simpl; intros acc H; [eauto|].
  inversion H as [|? ? Hc Hd]; subst. unfold is_digit in Hc.
  destruct (decimal_value U c); [|discriminate]. apply IH, Hd.
Qed.

Lemma py_float_digit_string d : digit_string U d -> exists f, py_float U d = Ok f.
Proof.
  intros [Hne Hd]. unfold py_float. destruct d as [|c d]; [contradiction|].
  destruct (digits_value_Some (c :: d) 0%N Hd) as [n ->]. eauto.
Qed.

Lemma is_prefix_spec p : forall s, is_prefix p s = true <-> exists post, s = p ++ post.
Proof.
  induction p as [|a p IH]; simpl; intros s.
  - split; eauto.
  - destruct s as [|b s]; simpl.
    + split; [discriminate | intros [post H]; discriminate].
    + rewrite andb_true_iff, N.eqb_eq, IH. split.
      * intros [-> [post ->]]. eauto.
      * intros [post [= -> ->]]. eauto.
Qed.

Lemma contains_spec t k : contains t k = true <-> substring k t.
Proof.
  unfold substring. induction t as [|c t IH]; simpl.
  - rewrite orb_false_r, is_prefix_spec. split.
    + intros [post H]. exists [], post. exact H.
    + intros (pre & post & H). destruct pre; simpl in H; [eauto|discriminate].
  - rewrite orb_true_iff, is_prefix_spec, IH. split.
    + intros [[post H] | (pre & post & H)].
      * exists [], post. exact H.
      * exists (c :: pre), post. simpl. rewrite H. reflexivity.
    + intros (pre & post & H). destruct pre as [|c' pre]; simpl in H.
      * left. eauto.
      * right. injection H as -> H. eauto.
Qed.

Lemma first_keyword_Some t ks k :
  _first_keyword t ks = Some k ->
  exists before after, ks = before ++ k :: after
    /\ (forall k', In k' before -> ~ substring k' t) /\ substring k t.
Proof.
  induction ks as [|k0 ks IH]; simpl; [discriminate|].
  destruct (contains t k0) eqn:E.
  - intros [= ->]. exists [], ks. simpl. split; [reflexivity|].
    split; [tauto | apply contains_spec, E].
  - intros H. destruct (IH H) as (before & after & -> & Hb & Hk).
    exists (k0 :: before), after. split; [reflexivity|]. split; [|exact Hk].
    intros k' [<-|Hin]; [|auto]. rewrite <- contains_spec, E. discriminate.
Qed.

Lemma first_keyword_first t before k after :
  (forall k', In k' before -> ~ substring k' t) -> substring k t ->
  _first_keyword t (before ++ k :: after) = Some k.
Proof.
  induction before as [|k0 before IH]; simpl; intros Hb Hk.
  - apply contains_spec in Hk. rewrite Hk. reflexivity.
  - destruct (contains t k0) eqn:E.
    + exfalso. apply (Hb k0); [auto | apply contains_spec, E].
    + apply IH; auto.
Qed.

Lemma first_keyword_None t ks :
  (forall k, In k ks -> ~ substring k t) -> _first_keyword t ks = None.
Proof.
  intros H. destruct (_first_keyword t ks) as [k|] eqn:E; [|reflexivity].
  apply first_keyword_Some in E as (before & after & -> & _ & Hk).
  exfalso. apply (H k); [apply in_elt | exact Hk].
Qed.

Lemma nonempty_true x : nonempty x = true -> x <> [].
Proof. destruct x; [discriminate | discriminate]. Qed.

(** A match of the shade pattern starts with [#] or with a capital letter. *)
Lemma shade_group0 s w s' :
  matches U (SHADE_PATTERN U) s w s' ->
  exists c w', w = c :: w' /\ is_ascii c = true.
Proof.
  unfold SHADE_PATTERN. cbn [seq_all]. intros H. inv_matches.
  - match goal with H : step (lit 35) _ = Some _ |- _ =>
      apply step_inv in H as (c' & E & Hp & _) end.
    match goal with H : head _ = Some _ |- _ => rewrite E in H; injection H as -> end.
    unfold lit in Hp. apply N.eqb_eq in Hp. subst c. simpl. eauto.
  - match goal with H : run is_upper_az _ ?w _, Hl : 1 <= length ?w |- _ =>
      apply run_Forall in H; destruct w as [|c w1]; [simpl in Hl; lia|];
      inversion H as [|? ? Hc _]; subst end.
    exists c. eexists. split; [reflexivity|].
    unfold is_upper_az, in_range in Hc. unfold is_ascii.
    apply andb_true_iff in Hc as [_ Hc]. apply N.leb_le in Hc. apply N.ltb_lt. lia.
Qed.

Lemma upper_nonempty c w : is_ascii c = true -> upper U (c :: w) <> [].
Proof. intros H. unfold upper. simpl. rewrite H. discriminate. Qed.

(** Group 2 of a match of the collection pattern is a token. *)
Lemma collection_group2 s w s' :
  matches U (COLLECTION_PATTERN U) s w s' ->
  exists tok, assoc_group 2 (ms_caps s') = Some tok /\ token U tok.
Proof.
  unfold COLLECTION_PATTERN.
  vm_compute (u "colect"). vm_compute (u "ia"). vm_compute (u "iei").
  cbn [seq_all ci_lits map]. intros H. inv_matches; caps; simpl;
    (eexists; split; [reflexivity|]);
    match goal with
    | Hr : run (is_word_or_dash U) _ ?w _, Hh : forall h, Some 30 = Some h -> _ |- _ =>
      specialize (Hh 30 eq_refl); apply run_Forall in Hr; split; [lia | exact Hr]
    end.
Qed.

Lemma word_not_space c :
  unicode_ok U -> is_word_or_dash U c = true -> is_space c = false.
Proof.
  intros Hok H. destruct (is_space c) eqn:Hs; [|reflexivity]. exfalso.
  unfold is_word_or_dash, is_word, is_alnum in H.
  destruct (is_ascii c) eqn:Ha.
  - unfold is_space, in_range, is_ascii in *.
    rewrite ?orb_true_iff, ?andb_true_iff, ?N.leb_le, ?N.eqb_eq, ?N.ltb_lt in *. lia.
  - rewrite (Hok c Hs) in H. unfold is_ascii in Ha.
    rewrite ?orb_true_iff, ?N.eqb_eq in H. apply N.ltb_ge in Ha.
    destruct H as [[H|H]|H]; [discriminate | lia | lia].
Qed.

Lemma lstrip_no_space s : Forall (fun c => is_space c = false) s -> lstrip s = s.
Proof. destruct 1 as [|c s Hc _]; simpl; [reflexivity|]. rewrite Hc. reflexivity. Qed.

Lemma strip_no_space s : Forall (fun c => is_space c = false) s -> strip s = s.
Proof.
  intros H. unfold strip. rewrite (lstrip_no_space _ H).
  rewrite lstrip_no_space; [apply rev_involutive|].
  apply List.Forall_rev, H.
Qed.

Lemma strip_token tok : unicode_ok U -> token U tok -> strip tok = tok /\ tok <> [].
Proof.
  intros Hok [Hl Hw]. split.
  - apply strip_no_space. eapply List.Forall_impl; [|exact Hw].
    intros c. apply word_not_space, Hok.
  - intros ->. simpl in Hl. lia.
Qed.

Lemma first_match_occurs pat t x : _first_match U pat t = Some x -> occurs U pat t.
Proof.
  unfold _first_match. destruct (search U pat t) as [mo|] eqn:E; [|discriminate].
  intros _. apply search_is_Some. eauto.
Qed.

Lemma first_match_float pat t x :
  float_pattern U pat -> _first_match U pat t = Some x ->
  digit_string U x /\ substring x t.
Proof.
  intros Hp. unfold _first_match.
  destruct (search U pat t) as [mo|] eqn:E; [|discriminate].
  apply search_Some in E as (pre & (rest & s' & -> & Hm & Hc) & _).
  pose proof (matches_rest _ _ _ _ _ Hm) as Hrest. simpl in Hrest.
  apply Hp in Hm as (d & w' & Hw & Hd & Hds). simpl. rewrite Hc, Hd.
  intros [= <-]. split; [exact Hds|].
  exists pre, (w' ++ ms_rest s'). rewrite Hrest, Hw, <- app_assoc. reflexivity.
Qed.

Lemma assign_float_store key pat t attributes :
  float_pattern U pat ->
  assign_float U key (_first_match U pat t) attributes
  = Ok (store_found key (rule_value U (RFloat pat) t) attributes).
Proof.
  intros Hp. unfold assign_float, rule_value.
  destruct (_first_match U pat t) as [x|] eqn:E; [|reflexivity].
  destruct (nonempty x); [|reflexivity].
  destruct (py_float_digit_string x (proj1 (first_match_float _ _ _ Hp E))) as [f ->].
  reflexivity.
Qed.

Lemma assign_verbatim_store key pat t attributes :
  assign_str key (_first_match U pat t) id attributes
  = store_found key (rule_value U (RVerbatim pat) t) attributes.
Proof.
  unfold assign_str, rule_value.
  destruct (_first_match U pat t) as [x|]; [|reflexivity].
  destruct (nonempty x); reflexivity.
Qed.

Lemma assign_keyword_store key ks norm t attributes :
  assign_str key (_first_keyword (lower U t) ks) norm attributes
  = store_found key (rule_value U (RKeyword ks norm) t) attributes.
Proof.
  unfold assign_str, rule_value.
  destruct (_first_keyword (lower U t) ks) as [x|]; [|reflexivity].
  destruct (nonempty x); reflexivity.
Qed.

Lemma assign_group_store key pat i norm t attributes :
  assign_group key (search U pat t) i norm attributes
  = store_found key (rule_value U (RGroup pat i norm) t) attributes.
Proof.
  unfold assign_group, rule_value.
  destruct (search U pat t) as [mo|]; [|reflexivity].
  destruct (group i mo); reflexivity.
Qed.

(** The extractor never raises, and its result is the table of rules applied
    to the combined text. *)
Lemma extract_attributes_rules name description :
  extract_attributes U name description
  = Ok (apply_rules U (attribute_rules U) (haystack_of name description) ∅).
Proof.
  unfold extract_attributes. cbv zeta.
  rewrite (assign_float_store _ _ _ _ volume_group1). cbn [bind].
  rewrite (assign_float_store _ _ _ _ strength_group1). cbn [bind].
  rewrite (assign_float_store _ _ _ _ length_group1). cbn [bind].
  rewrite assign_verbatim_store, !assign_group_store, !assign_keyword_store.
  reflexivity.
Qed.

Lemma assoc_None {A} key (l : list (string * A)) :
  ~ In key (map fst l) -> assoc key l = None.
Proof.
  induction l as [|[k a] l IH]; simpl; intros H; [reflexivity|].
  destruct (String.eqb_spec key k) as [->|Hne]; [exfalso; auto|]. apply IH. auto.
Qed.

Lemma assoc_In {A} key (l : list (string * A)) a :
  assoc key l = Some a -> In (key, a) l.
Proof.
  induction l as [|[k b] l IH]; simpl; [discriminate|].
  destruct (String.eqb_spec key k) as [->|Hne]; [intros [= ->]; auto | auto].
Qed.

Lemma In_assoc {A} key (l : list (string * A)) a :
  List.NoDup (map fst l) -> In (key, a) l -> assoc key l = Some a.
Proof.
  induction l as [|[k b] l IH]; simpl; intros Hnd Hin; [contradiction|].
  inversion Hnd as [|? ? Hk Hl]; subst.
  destruct Hin as [[= -> ->]|Hin].
  - rewrite String.eqb_refl. reflexivity.
  - destruct (String.eqb_spec key k) as [->|Hne]; [|auto].
    exfalso. apply Hk. apply (in_map fst) in Hin. exact Hin.
Qed.

Lemma store_found_lookup key found (attributes : gmap string value) k :
  store_found key found attributes !! k
  = if String.eqb k key then or_else found (attributes !! k) else attributes !! k.
Proof.
  unfold store_found. destruct (String.eqb_spec k key) as [->|Hne].
  - destruct found; simpl; [apply lookup_insert_eq | reflexivity].
  - destruct found; [|reflexivity]. apply lookup_insert_ne. congruence.
Qed.

Lemma apply_rules_lookup rules t : forall attributes key,
  List.NoDup (map fst rules) ->
  apply_rules U rules t attributes !! key
  = match assoc key rules with
    | Some r => or_else (rule_value U r t) (attributes !! key)
    | None => attributes !! key
    end.
Proof.
  unfold apply_rules.
  induction rules as [|[k r] rules IH]; simpl; intros attributes key Hnd; [reflexivity|].
  inversion Hnd as [|? ? Hk Hl]; subst.
  rewrite (IH _ _ Hl), store_found_lookup.
  destruct (String.eqb_spec key k) as [->|Hne]; [|reflexivity].
  rewrite (assoc_None _ _ Hk). reflexivity.
Qed.

Lemma attribute_keys_NoDup : List.NoDup (map fst (attribute_rules U)).
Proof.
  cbn [attribute_rules map fst].
  repeat (constructor; [cbn [In]; intros H; repeat destruct H as [H|H];
                        try discriminate H; exact H|]).
  constructor.
Qed.

(** Reading a key of the result: the value of that key's rule. *)
Lemma extract_attributes_lookup name description :
  exists attributes,
    extract_attributes U name description = Ok attributes
    /\ forall key,
         attributes !! key
         = match assoc key (attribute_rules U) with
           | Some r => rule_value U r (haystack_of name description)
           | None => None
           end.
Proof.
  eexists. split; [apply extract_attributes_rules|].
  intros key. rewrite apply_rules_lookup by apply attribute_keys_NoDup.
  rewrite lookup_empty. destruct (assoc key (attribute_rules U)) as [r|]; [|reflexivity].
  destruct (rule_value U r _); reflexivity.
Qed.

Lemma rule_float_sound pat t v :
  float_pattern U pat -> rule_value U (RFloat pat) t = Some v ->
  occurs U pat t
  /\ exists d q, v = VFloat q /\ digit_string U d /\ substring d t /\ py_float U d = Ok q.
Proof.
  intros Hp. simpl. destruct (_first_match U pat t) as [x|] eqn:E; [|discriminate].
  destruct (nonempty x); [|discriminate].
  destruct (py_float U x) as [q|] eqn:Hq; [|discriminate]. intros [= <-].
  split; [eauto using first_match_occurs|].
  destruct (first_match_float _ _ _ Hp E) as [Hd Hs]. exists x, q. auto.
Qed.

Lemma rule_verbatim_sound pat t v :
  rule_value U (RVerbatim pat) t = Some v ->
  occurs U pat t /\ exists x, v = VStr x /\ x <> [].
Proof.
  simpl. destruct (_first_match U pat t) as [x|] eqn:E; [|discriminate].
  destruct (nonempty x) eqn:Hx; [|discriminate]. intros [= <-].
  split; [eauto using first_match_occurs|]. exists x. auto using nonempty_true.
Qed.

Lemma rule_keyword_sound ks norm t v :
  rule_value U (RKeyword ks norm) t = Some v ->
  exists k, In k ks /\ substring k (lower U t) /\ k <> [] /\ v = VStr (norm k).
Proof.
  simpl. destruct (_first_keyword (lower U t) ks) as [k|] eqn:E; [|discriminate].
  destruct (nonempty k) eqn:Hk; [|discriminate]. intros [= <-].
  apply first_keyword_Some in E as (before & after & -> & _ & Hs).
  exists k. auto using in_elt, nonempty_true.
Qed.

Lemma rule_group_sound pat i norm t v :
  rule_value U (RGroup pat i norm) t = Some v ->
  occurs U pat t
  /\ exists mo g pre, search U pat t = Some mo
       /\ occurs_at U pat t pre (mo_group0 mo) (mo_caps mo)
       /\ group i mo = Some g /\ v = VStr (norm g).
Proof.
  simpl. destruct (search U pat t) as [mo|] eqn:E; [|discriminate].
  destruct (group i mo) as [g|] eqn:Hg; [|discriminate]. intros [= <-].
  split; [apply search_is_Some; eauto|].
  destruct (search_Some _ _ _ _ E) as (pre & Hocc & _). exists mo, g, pre. auto.
Qed.

Lemma rule_value_matches r t v : rule_value U r t = Some v -> rule_matches U r t.
Proof.
  destruct r as [pat|pat|pat i norm|ks norm]; intros H.
  - simpl in *. destruct (_first_match U pat t) eqn:E; [|discriminate].
    eauto using first_match_occurs.
  - apply rule_verbatim_sound in H as [H _]. exact H.
  - apply rule_group_sound in H as [H _]. exact H.
  - apply rule_keyword_sound in H as (k & Hin & Hs & _). exists k. auto.
Qed.

Lemma curing_norm_nonempty k :
  In k (CURING_KEYWORDS) -> upper U (remove_spaces k) <> [].
Proof.
  intros H. vm_compute in H.
  repeat destruct H as [H|H]; try contradiction; subst k; vm_compute; discriminate.
Qed.

Lemma shade_value t v :
  rule_value U (RGroup (SHADE_PATTERN U) 0 (upper U)) t = Some v ->
  exists s, v = VStr s /\ s <> [].
Proof.
  intros H. apply rule_group_sound in H as (_ & mo & g & pre & _ & Hocc & Hg & ->).
  destruct Hocc as (rest & s' & _ & Hm & _). simpl in Hg. injection Hg as <-.
  apply shade_group0 in Hm as (c & w' & -> & Hc).
  eexists. split; [reflexivity|]. apply upper_nonempty, Hc.
Qed.

Lemma collection_value t v :
  unicode_ok U ->
  rule_value U (RGroup (COLLECTION_PATTERN U) 2 strip) t = Some v ->
  exists tok, v = VStr tok /\ token U tok.
Proof.
  intros Hok H. apply rule_group_sound in H as (_ & mo & g & pre & _ & Hocc & Hg & ->).
  destruct Hocc as (rest & s' & _ & Hm & Hc). simpl in Hg.
  apply collection_group2 in Hm as (tok & Htok & Ht).
  rewrite Hc, Htok in Hg. injection Hg as <-.
  destruct (strip_token _ Hok Ht) as [-> _]. eauto.
Qed.

Lemma token_nonempty tok : token U tok -> tok <> [].
Proof. intros [Hl _] ->. simpl in Hl. lia. Qed.

(** Every value a rule of the table gives has the type of its key. *)
Lemma rule_value_typed key r t v :
  unicode_ok U -> In (key, r) (attribute_rules U) -> rule_value U r t = Some v ->
  In key attribute_keys /\ well_typed key v.
Proof.
  intros Hok Hin Hv. unfold attribute_rules in Hin. cbn [In] in Hin.
  repeat destruct Hin as [Hin|Hin]; try contradiction;
    injection Hin as <- <-;
    (split; [cbn; tauto|]); unfold well_typed; cbn [is_float_key existsb String.eqb Ascii.eqb Bool.eqb orb].
  - apply rule_float_sound in Hv as (_ & d & q & -> & _); [eauto | exact volume_group1].
  - apply rule_verbatim_sound in Hv as (_ & x & -> & Hx). eauto.
  - eapply shade_value, Hv.
  - apply rule_keyword_sound in Hv as (k & _ & _ & Hk & ->). eauto.
  - apply rule_keyword_sound in Hv as (k & Hin & _ & _ & ->).
    eauto using curing_norm_nonempty.
  - apply rule_keyword_sound in Hv as (k & _ & _ & Hk & ->). eauto.
  - apply rule_keyword_sound in Hv as (k & _ & _ & Hk & ->). eauto.
  - apply rule_float_sound in Hv as (_ & d & q & -> & _); [eauto | exact strength_group1].
  - apply rule_float_sound in Hv as (_ & d & q & -> & _); [eauto | exact length_group1].
  - apply rule_keyword_sound in Hv as (k & _ & _ & Hk & ->). eauto.
  - apply rule_keyword_sound in Hv as (k & _ & _ & Hk & ->). eauto.
  - apply rule_keyword_sound in Hv as (k & _ & _ & Hk & ->). eauto.
  - apply collection_value in Hv as (tok & -> & Ht); [|exact Hok].
    eauto using token_nonempty.
Qed.

(** A float in the result is the number written by digits of the text. *)
Lemma rule_value_float key r t q :
  In (key, r) (attribute_rules U) -> rule_value U r t = Some (VFloat q) ->
  exists d, digit_string U d /\ substring d t /\ py_float U d = Ok q.
Proof.
  intros Hin Hv. unfold attribute_rules in Hin. cbn [In] in Hin.
  repeat destruct Hin as [Hin|Hin]; try contradiction; injection Hin as <- <-.
  all: try (apply rule_keyword_sound in Hv as (k & _ & _ & _ & [=]); fail).
  all: try (apply rule_group_sound in Hv as (_ & mo & g & pre & _ & _ & _ & [=]); fail).
  all: try (apply rule_verbatim_sound in Hv as (_ & x & [=] & _); fail).
  - apply rule_float_sound in Hv as (_ & d & q' & [= <-] & H); [eauto | exact volume_group1].
  - apply rule_float_sound in Hv as (_ & d & q' & [= <-] & H); [eauto | exact strength_group1].
  - apply rule_float_sound in Hv as (_ & d & q' & [= <-] & H); [eauto | exact length_group1].
Qed.

(** *** The collection pattern, read as a shape of the text *)

Lemma step_head_true p s c s' :
  head (ms_rest s) = Some c -> step p s = Some s' -> p c = true.
Proof.
  intros Hh (c' & E & Hp & _)%step_inv. rewrite E in Hh. simpl in Hh. congruence.
Qed.

Lemma at_end_white s : at_end s = true -> white (ms_rest s).
Proof.
  unfold at_end, white. destruct (ms_rest s) as [|c [|c' r]]; intros H;
    [constructor| |discriminate].
  apply N.eqb_eq in H. subst c. repeat constructor.
Qed.

Lemma white_app ws1 ws2 : white ws1 -> white ws2 -> white (ws1 ++ ws2).
Proof. unfold white. intros. apply Forall_app. auto. Qed.

Lemma length_nonempty {A} (l : list A) : 1 <= length l -> l <> [].
Proof. intros H ->. simpl in H. lia. Qed.

Lemma collection_shape s w s' :
  matches U (COLLECTION_PATTERN U) s w s' ->
  exists mk ws tok tail,
    ms_rest s = mk ++ ws ++ tok ++ tail
    /\ collection_marker mk /\ ws <> [] /\ white ws /\ token U tok
    /\ collection_tail U tail
    /\ assoc_group 2 (ms_caps s') = Some tok.
Proof.
  intros H. pose proof (matches_rest _ _ _ _ _ H) as Hrest. revert H Hrest.
  unfold COLLECTION_PATTERN.
  vm_compute (u "colect"). vm_compute (u "ia"). vm_compute (u "iei").
  cbn [seq_all ci_lits map]. intros H Hrest. inv_matches.
  all: match goal with
       | Hm : run is_space (close_group 1 _ _) ?ws _,
         Ht : run (is_word_or_dash U) _ ?tok _,
         Hb : forall h, Some 30 = Some h -> _ |- _ =>
         specialize (Hb 30 eq_refl);
         match type of Hrest with
         | ms_rest _ = (?m1 ++ ?m2 ++ ws ++ tok ++ ?tl) ++ ?r =>
           exists (m1 ++ m2), ws, tok, (tl ++ r)
         end;
         split; [rewrite Hrest, <- !app_assoc; reflexivity|];
         split; [unfold collection_marker, ci_equal;
                 first [left; vm_compute (u "colectia"); simpl app;
                        repeat constructor; eauto using step_head_true; fail
                       |right; vm_compute (u "colectiei"); simpl app;
                        repeat constructor; eauto using step_head_true]|];
         split; [apply length_nonempty; assumption|];
         split; [exact (run_Forall _ _ _ _ Hm)|];
         split; [split; [simpl in Hb; lia | exact (run_Forall _ _ _ _ Ht)]|]
       end.
  all: split; [|caps; reflexivity].
  all: match goal with
       | Hs : step (is_digit U) _ = Some _, Hr : run is_space (close_group 2 _ _) ?ws2 _
         |- _ =>
         left; eexists ws2, _, _; rewrite <- app_assoc;
         split; [reflexivity|];
         split; [apply length_nonempty; assumption|];
         split; [exact (run_Forall _ _ _ _ Hr) | eauto using step_head_true]
       | He : at_end _ = true, Hr : run is_space (close_group 2 _ _) ?ws2 _ |- _ =>
         right; rewrite app_nil_r;
         apply white_app; [exact (run_Forall _ _ _ _ Hr) | apply at_end_white, He]
       end.
Qed.

Lemma chr_intro p prev c r caps :
  p c = true ->
  matches U (Chr p) (Build_mstate prev (c :: r) caps) [c] (Build_mstate (Some c) r caps).
Proof. intros H. apply M_Chr; [reflexivity|]. unfold step. simpl. rewrite H. reflexivity. Qed.

Lemma run_intro p w : forall prev r caps,
  Forall (fun c => p c = true) w ->
  exists prev', run p (Build_mstate prev (w ++ r) caps) w (Build_mstate prev' r caps).
Proof.
  induction w as [|c w IH]; intros prev r caps H.
  - exists prev. constructor.
  - inversion H as [|? ? Hc Hw]; subst.
    destruct (IH (Some c) r caps Hw) as [prev' Hr]. exists prev'.
    eapply run_cons; [reflexivity| |exact Hr].
    unfold step. simpl. rewrite Hc. reflexivity.
Qed.

Lemma rep_intro g lo hi p w prev r caps :
  Forall (fun c => p c = true) w -> lo <= length w ->
  (forall h, hi = Some h -> length w <= Nat.max lo h) ->
  exists prev',
    matches U (Rep g lo hi p) (Build_mstate prev (w ++ r) caps) w
      (Build_mstate prev' r caps).
Proof.
  intros Hw Hlo Hhi. destruct (run_intro p w prev r caps Hw) as [prev' Hr].
  exists prev'. constructor; assumption.
Qed.

Lemma lits_intro lits : forall w prev r caps,
  lits <> [] -> ci_equal lits w ->
  exists prev',
    matches U (ci_lits lits) (Build_mstate prev (w ++ r) caps) w
      (Build_mstate prev' r caps).
Proof.
  unfold ci_lits, ci_equal.
  induction lits as [|l lits IH]; intros w prev r caps Hne H; [contradiction|].
  inversion H as [|? c ? w' Hc Hw]; subst.
  destruct lits as [|l2 lits].
  - inversion Hw; subst. exists (Some c). simpl. apply chr_intro, Hc.
  - destruct (IH w' (Some c) r caps) as [prev' Hm]; [discriminate | exact Hw|].
    exists prev'. change (c :: w') with ([c] ++ w').
    cbn [map seq_all]. cbn [map seq_all] in Hm.
    eapply M_Seq; [apply chr_intro, Hc | exact Hm].
Qed.

Lemma grp_intro i a s w prev' r' caps' :
  matches U a s w (Build_mstate prev' r' caps') ->
  matches U (Grp i a) s w (Build_mstate prev' r' ((i, w) :: caps')).
Proof.
  intros H. pose proof (M_Grp U i a _ _ _ H) as Hg.
  pose proof (close_group_caps _ _ i _ _ _ H) as Hc.
  unfold close_group in *. simpl in *. injection Hc as Hc. rewrite Hc in Hg. exact Hg.
Qed.

Lemma collection_tail_intro tail prev caps :
  collection_tail U tail ->
  exists w s',
    matches U (Alt (Seq (Rep true 1 None is_space) (Chr (is_digit U)))
                   (Seq (Rep true 0 None is_space) Eos))
      (Build_mstate prev tail caps) w s'
    /\ ms_caps s' = caps.
Proof.
  intros [(ws & d & rest & -> & Hne & Hws & Hd) | Hw].
  - destruct (rep_intro true 1 None is_space ws prev (d :: rest) caps Hws)
      as [prev' Hm]; [|discriminate|].
    { destruct ws; [contradiction | simpl; lia]. }
    eexists _, _. split; [|shelve].
    apply M_AltL. eapply M_Seq; [exact Hm | apply chr_intro, Hd].
    Unshelve. reflexivity.
  - destruct (rep_intro true 0 None is_space tail prev [] caps Hw)
      as [prev' Hm]; [lia|discriminate|].
    rewrite app_nil_r in Hm.
    eexists _, _. split; [|shelve].
    apply M_AltR. eapply M_Seq; [exact Hm | apply M_Eos; reflexivity].
    Unshelve. reflexivity.
Qed.

Lemma marker_intro mk prev r caps :
  collection_marker mk ->
  exists m1 m2 p1 p2,
    mk = m1 ++ m2
    /\ matches U (ci_lits (u "colect")) (Build_mstate prev (m1 ++ m2 ++ r) caps) m1
         (Build_mstate p1 (m2 ++ r) caps)
    /\ matches U (Grp 1 (Alt (ci_lits (u "ia")) (ci_lits (u "iei"))))
         (Build_mstate p1 (m2 ++ r) caps) m2
         (Build_mstate p2 r ((1, m2) :: caps)).
Proof.
  intros [H | H].
  - change (u "colectia") with (u "colect" ++ u "ia") in H.
    apply Forall2_app_inv_l in H as (m1 & m2 & H1 & H2 & ->).
    destruct (lits_intro (u "colect") m1 prev (m2 ++ r) caps) as [p1 Hm1];
      [discriminate | exact H1|].
    destruct (lits_intro (u "ia") m2 p1 r caps) as [p2 Hm2];
      [discriminate | exact H2|].
    exists m1, m2, p1, p2. split; [reflexivity|]. split; [exact Hm1|].
    apply grp_intro, M_AltL, Hm2.
  - change (u "colectiei") with (u "colect" ++ u "iei") in H.
    apply Forall2_app_inv_l in H as (m1 & m2 & H1 & H2 & ->).
    destruct (lits_intro (u "colect") m1 prev (m2 ++ r) caps) as [p1 Hm1];
      [discriminate | exact H1|].
    destruct (lits_intro (u "iei") m2 p1 r caps) as [p2 Hm2];
      [discriminate | exact H2|].
    exists m1, m2, p1, p2. split; [reflexivity|]. split; [exact Hm1|].
    apply grp_intro, M_AltR, Hm2.
Qed.

Lemma collection_intro mk ws tok tail prev :
  collection_marker mk -> ws <> [] -> white ws -> token U tok ->
  collection_tail U tail ->
  exists w s',
    matches U (COLLECTION_PATTERN U) (Build_mstate prev (mk ++ ws ++ tok ++ tail) [])
      w s'
    /\ assoc_group 2 (ms_caps s') = Some tok.
Proof.
  intros Hmk Hne Hws [Hlen Htok] Htail.
  destruct (marker_intro mk prev (ws ++ tok ++ tail) [] Hmk)
    as (m1 & m2 & p0 & p1 & -> & Ha & Hb).
  destruct (rep_intro true 1 None is_space ws p1 (tok ++ tail) [(1, m2)] Hws)
    as [p2 Hm2]; [destruct ws; [contradiction | simpl; lia] | discriminate|].
  destruct (rep_intro false 3 (Some 30) (is_word_or_dash U) tok p2 tail [(1, m2)] Htok)
    as [p3 Hm3]; [lia | intros h [= <-]; simpl; lia|].
  apply (grp_intro 2) in Hm3.
  destruct (collection_tail_intro tail p3 [(2, tok); (1, m2)] Htail)
    as (w4 & s' & Hm4 & Hc).
  exists (m1 ++ m2 ++ ws ++ tok ++ w4), s'. split; [|rewrite Hc; reflexivity].
  unfold COLLECTION_PATTERN. cbn [seq_all]. rewrite <- app_assoc.
  eapply M_Seq; [exact Ha|]. eapply M_Seq; [exact Hb|].
  eapply M_Seq; [exact Hm2|]. eapply M_Seq; [exact Hm3 | exact Hm4].
Qed.

(** The collection pattern occurs after [pre] with group 2 equal to [tok]
    exactly when the text has the shape [collection_occurrence] there. *)
Lemma collection_occurs_iff t pre tok :
  (exists w caps, occurs_at U (COLLECTION_PATTERN U) t pre w caps
                  /\ assoc_group 2 caps = Some tok)
  <-> collection_occurrence U t pre tok.
Proof.
  split.
  - intros (w & caps & (rest & s' & -> & Hm & ->) & Hg).
    apply collection_shape in Hm as (mk & ws & tok' & tail & Hr & Hmk & Hne & Hws & Ht & Htl & Hg').
    rewrite Hg in Hg'. injection Hg' as <-. simpl in Hr. subst rest.
    exists mk, ws, tail. repeat (split; [assumption || reflexivity|]). assumption.
  - intros (mk & ws & tail & -> & Hmk & Hne & Hws & Ht & Htl).
    destruct (collection_intro mk ws tok tail (last pre) Hmk Hne Hws Ht Htl)
      as (w & s' & Hm & Hg).
    exists w, (ms_caps s'). split; [|exact Hg].
    exists (mk ++ ws ++ tok ++ tail), s'. auto.
Qed.

Definition head_not (p : N -> bool) (l : text) : Prop :=
  match l with
  | [] => True
  | c :: _ => p c = false
  end.

Lemma prefix_unique (p : N -> bool) : forall a b a' b',
  a ++ b = a' ++ b' ->
  Forall (fun c => p c = true) a -> Forall (fun c => p c = true) a' ->
  head_not p b -> head_not p b' -> a = a' /\ b = b'.
Proof.
  induction a as [|c a IH]; intros b [|c' a'] b' E Ha Ha' Hb Hb'; simpl in *.
  - auto.
  - subst b. inversion Ha'; subst. simpl in Hb. congruence.
  - subst b'. inversion Ha; subst. simpl in Hb'. congruence.
  - injection E as -> E. inversion Ha; inversion Ha'; subst.
    destruct (IH _ _ _ E) as [-> ->]; auto.
Qed.

Lemma space_not_word c : unicode_ok U -> is_space c = true -> is_word_or_dash U c = false.
Proof.
  intros Hok Hs. destruct (is_word_or_dash U c) eqn:E; [|reflexivity].
  rewrite (word_not_space c Hok E) in Hs. discriminate.
Qed.

Lemma token_tail_head tok tail :
  unicode_ok U -> token U tok -> head_not is_space (tok ++ tail).
Proof.
  intros Hok [Hl Hw]. destruct tok as [|c tok]; [simpl in Hl; lia|].
  inversion Hw; subst. simpl. apply word_not_space; assumption.
Qed.

Lemma collection_tail_head tail :
  unicode_ok U -> collection_tail U tail -> head_not (is_word_or_dash U) tail.
Proof.
  intros Hok [(ws & d & rest & -> & Hne & Hws & _) | Hw].
  - destruct ws as [|c ws]; [contradiction|]. inversion Hws; subst. simpl.
    apply space_not_word; assumption.
  - destruct tail as [|c tail]; [exact I|]. inversion Hw; subst. simpl.
    apply space_not_word; assumption.
Qed.

Lemma ci_equal_length lits w : ci_equal lits w -> length w = length lits.
Proof. intros H. symmetry. exact (Forall2_length _ _ _ H). Qed.

Lemma marker_clash mk r mk' r' :
  ci_equal (u "colectia") mk -> ci_equal (u "colectiei") mk' ->
  mk ++ r = mk' ++ r' -> False.
Proof.
  intros H H' E.
  assert (Hl : 7 < length mk) by (rewrite (ci_equal_length _ _ H); vm_compute; lia).
  assert (Hl' : 7 < length mk') by (rewrite (ci_equal_length _ _ H'); vm_compute; lia).
  destruct (lookup_lt_is_Some_2 mk 7 Hl) as [c Hc].
  destruct (lookup_lt_is_Some_2 mk' 7 Hl') as [c' Hc'].
  assert (c = c').
  { pose proof (lookup_app_l_Some _ r _ _ Hc) as X.
    pose proof (lookup_app_l_Some _ r' _ _ Hc') as X'.
    rewrite E in X. congruence. }
  subst c'.
  pose proof (Forall2_lookup_lr _ _ _ 7 97%N c H eq_refl Hc) as Ha.
  pose proof (Forall2_lookup_lr _ _ _ 7 101%N c H' eq_refl Hc') as He.
  unfold ci_char, ci in Ha, He. simpl in Ha, He.
  rewrite ?orb_true_iff, ?N.eqb_eq in Ha, He. lia.
Qed.

Lemma marker_unique mk r mk' r' :
  collection_marker mk -> collection_marker mk' -> mk ++ r = mk' ++ r' ->
  mk = mk' /\ r = r'.
Proof.
  intros [H|H] [H'|H'] E.
  - apply app_inj_1; [|exact E].
    rewrite (ci_equal_length _ _ H), (ci_equal_length _ _ H'). reflexivity.
  - exfalso. eauto using marker_clash.
  - exfalso. symmetry in E. eauto using marker_clash.
  - apply app_inj_1; [|exact E].
    rewrite (ci_equal_length _ _ H), (ci_equal_length _ _ H'). reflexivity.
Qed.

(** At a given place of the text the shape determines the token. *)
Lemma collection_occurrence_unique t pre tok tok' :
  unicode_ok U ->
  collection_occurrence U t pre tok -> collection_occurrence U t pre tok' ->
  tok = tok'.
Proof.
  intros Hok (mk & ws & tail & -> & Hmk & Hne & Hws & Ht & Htl)
         (mk' & ws' & tail' & E & Hmk' & Hne' & Hws' & Ht' & Htl').
  apply app_inv_head in E.
  apply marker_unique in E as [_ E]; [|assumption..].
  apply (prefix_unique is_space) in E as [_ E];
    [|assumption|assumption|apply token_tail_head; assumption..].
  apply (prefix_unique (is_word_or_dash U)) in E as [E _];
    [exact E|apply Ht|apply Ht'|apply collection_tail_head; assumption..].
Qed.

End ExtractorFacts.

(** ** The specification's statements about the extractor *)

Lemma romanian_db_ok : unicode_ok romanian_db.
Proof.
  intros c Hs. simpl. unfold ro_letter. simpl.
  unfold is_space, in_range in Hs.
  rewrite ?orb_true_iff, ?andb_true_iff, ?N.leb_le, ?N.eqb_eq in Hs.
  rewrite ?orb_false_iff, ?N.eqb_neq. lia.
Qed.

(** C4. On the name "Oja semipermanenta Colectia Glam 15 ml #A021 Roz Lucios"
    with the description "Finisaj glitter, UV/LED" the extractor returns a
    mapping with volume 15.0, a shade code that contains "A021", curing type
    "UV/LED" and collection "Glam". *)
Theorem extract_glam_example (U : unicode_db) :
  exists attributes,
    extract_attributes U (u "Oja semipermanenta Colectia Glam 15 ml #A021 Roz Lucios")
      (Some (u "Finisaj glitter, UV/LED")) = Ok attributes
    /\ attributes !! "attr_volume_ml" = Some (VFloat (15 # 1))
    /\ (exists shade, attributes !! "attr_shade_code" = Some (VStr shade)
                      /\ substring (u "A021") shade)
    /\ attributes !! "attr_curing_type" = Some (VStr (u "UV/LED"))
    /\ attributes !! "attr_collection" = Some (VStr (u "Glam")).
Proof.
  set (r := extract_attributes U _ _). vm_compute in r. subst r.
  eexists. split; [reflexivity|].
  split; [vm_compute; reflexivity|].
  split; [|split; vm_compute; reflexivity].
  exists (u "#A021"). split; [vm_compute; reflexivity|].
  exists (u "#"), []. reflexivity.
Qed.

(** C8. A key whose rule has nothing to match in the combined text is absent
    from the result; and a key that is present was matched by its rule, its
    value is neither None nor an empty string, and a float value is the number
    written by digits of the text, so that no value stands in for a missing
    match. *)
Theorem extract_attributes_sparse (U : unicode_db) (name : text)
    (description : option text) :
  unicode_ok U ->
  exists attributes,
    extract_attributes U name description = Ok attributes
    /\ (forall key r, In (key, r) (attribute_rules U) ->
          ~ rule_matches U r (haystack_of name description) ->
          attributes !! key = None)
    /\ (forall key v, attributes !! key = Some v ->
          (exists r, In (key, r) (attribute_rules U)
                     /\ rule_matches U r (haystack_of name description))
          /\ v <> VNone /\ v <> VStr []
          /\ (forall q, v = VFloat q ->
                exists d, digit_string U d
                  /\ substring d (haystack_of name description)
                  /\ py_float U d = Ok q)).
Proof.
  intros Hok. destruct (extract_attributes_lookup U name description) as (attributes & E & L).
  exists attributes. split; [exact E|]. split.
  - intros key r Hin Hn. rewrite L.
    rewrite (In_assoc _ _ _ (attribute_keys_NoDup U) Hin).
    destruct (rule_value U r _) as [v|] eqn:Hv; [|reflexivity].
    exfalso. eauto using rule_value_matches.
  - intros key v Hv. rewrite L in Hv.
    destruct (assoc key (attribute_rules U)) as [r|] eqn:Ha; [|discriminate].
    apply assoc_In in Ha.
    destruct (rule_value_typed U key r _ v Hok Ha Hv) as [_ Ht].
    split; [eauto using rule_value_matches|].
    unfold well_typed in Ht.
    split; [|split].
    + destruct (is_float_key key); [destruct Ht as [q ->] | destruct Ht as (s & -> & _)];
        discriminate.
    + destruct (is_float_key key); [destruct Ht as [q ->]; discriminate|].
      destruct Ht as (s & -> & Hs). congruence.
    + intros q ->. eauto using rule_value_float.
Qed.

Lemma extract_attributes_sparse_witness :
  unicode_ok romanian_db
  /\ exists attributes,
       extract_attributes romanian_db (u "Pila banană 180/240") None = Ok attributes
       /\ attributes !! "attr_volume_ml" = None.
Proof.
  split; [exact romanian_db_ok|].
  destruct (extract_attributes_sparse romanian_db (u "Pila banană 180/240") None
              romanian_db_ok) as (attributes & E & _ & _).
  exists attributes. split; [exact E|].
  replace attributes
    with (returned (extract_attributes romanian_db (u "Pila banană 180/240") None))
    by (rewrite E; reflexivity).
  vm_compute. reflexivity.
Defined.

(** C10. The extractor returns a mapping for every name and every description
    (None and the empty string included); every key of the mapping is one of
    the thirteen attribute keys, the three numeric keys hold floats and the
    other keys hold non-empty strings. *)
Theorem extract_attributes_total_typed (U : unicode_db) (name : text)
    (description : option text) :
  unicode_ok U ->
  exists attributes,
    extract_attributes U name description = Ok attributes
    /\ forall key v, attributes !! key = Some v ->
         In key attribute_keys /\ well_typed key v.
Proof.
  intros Hok. destruct (extract_attributes_lookup U name description) as (attributes & E & L).
  exists attributes. split; [exact E|].
  intros key v Hv. rewrite L in Hv.
  destruct (assoc key (attribute_rules U)) as [r|] eqn:Ha; [|discriminate].
  apply assoc_In in Ha. eauto using rule_value_typed.
Qed.

Lemma extract_attributes_total_typed_witness :
  unicode_ok romanian_db
  /\ exists attributes,
       extract_attributes romanian_db (u "Degresant acetonă 99% lavandă 30 ml") None
       = Ok attributes
       /\ forall key v, attributes !! key = Some v ->
            In key attribute_keys /\ well_typed key v.
Proof.
  split; [exact romanian_db_ok|].
  exact (extract_attributes_total_typed romanian_db
           (u "Degresant acetonă 99% lavandă 30 ml") None romanian_db_ok).
Defined.

Lemma keyword_lists_nonempty (U : unicode_db) key keywords norm k :
  In (key, RKeyword keywords norm) (attribute_rules U) -> In k keywords -> k <> [].
Proof.
  intros Hin Hk. unfold attribute_rules in Hin. cbn [In] in Hin.
  repeat destruct Hin as [Hin|Hin]; try contradiction; try discriminate Hin;
    injection Hin as <- <- <-; vm_compute in Hk;
    repeat destruct Hk as [Hk|Hk]; try contradiction; subst k; discriminate.
Qed.

(** C3 (amended). In each keyword category the extractor takes the first
    keyword, in the order of the category's list, that is a substring of the
    lower-cased combined text, and stores it (normalised, for the curing
    type). *)
Theorem first_keyword_in_list_order (U : unicode_db) (name : text)
    (description : option text) key keywords norm before k after :
  In (key, RKeyword keywords norm) (attribute_rules U) ->
  keywords = before ++ k :: after ->
  (forall k', In k' before -> ~ substring k' (lower U (haystack_of name description))) ->
  substring k (lower U (haystack_of name description)) ->
  exists attributes,
    extract_attributes U name description = Ok attributes
    /\ attributes !! key = Some (VStr (norm k)).
Proof.
  intros Hin -> Hb Hk.
  destruct (extract_attributes_lookup U name description) as (attributes & E & L).
  exists attributes. split; [exact E|].
  rewrite L, (In_assoc _ _ _ (attribute_keys_NoDup U) Hin). simpl.
  rewrite (first_keyword_first _ _ _ _ Hb Hk).
  assert (Hne : k <> []) by (eapply keyword_lists_nonempty; [exact Hin | apply in_elt]).
  destruct k; [contradiction | reflexivity].
Qed.

Lemma first_keyword_in_list_order_witness :
  exists attributes,
    extract_attributes romanian_db (u "Degresant acetonă 99% lavandă 30 ml") None
    = Ok attributes
    /\ attributes !! "attr_liquid_type" = Some (VStr (u "aceton")).
Proof.
  apply (first_keyword_in_list_order romanian_db
           (u "Degresant acetonă 99% lavandă 30 ml") None
           "attr_liquid_type" (LIQUID_TYPES) id
           [u "cleaner"; u "remover"] (u "aceton")
           [u "slip solution"; u "degresant"; u "primer"]).
  - cbn. tauto.
  - reflexivity.
  - intros k' Hk' Hs. apply contains_spec in Hs. cbn [In] in Hk'.
    destruct Hk' as [<-|[<-|[]]]; vm_compute in Hs; discriminate.
  - apply contains_spec. vm_compute. reflexivity.
Defined.

(** C3 as stated fails: in "Degresant acetonă 99% lavandă 30 ml" the keyword
    "degresant" starts the text, yet the liquid type is "aceton", which stands
    earlier in the list. *)
Lemma first_in_text_refuted : ~ first_in_text_wins romanian_db.
Proof.
  intros H.
  destruct (extract_attributes_lookup romanian_db
              (u "Degresant acetonă 99% lavandă 30 ml") None) as (attributes & E & _).
  specialize (H (u "Degresant acetonă 99% lavandă 30 ml") None
                "attr_liquid_type" (LIQUID_TYPES) id (u "degresant") attributes).
  assert (Hv : attributes !! "attr_liquid_type" = Some (VStr (u "degresant"))).
  { apply H; [cbn; tauto| |exact E].
    split; [vm_compute; tauto|].
    exists [], (u " acetonă 99% lavandă 30 ml"). split; [vm_compute; reflexivity|].
    intros k' pre' post' Hin Hne Ht. destruct pre' as [|c pre']; [|simpl; lia].
    exfalso. vm_compute in Hin. vm_compute in Ht. vm_compute in Hne.
    repeat destruct Hin as [Hin|Hin]; try contradiction; subst k';
      try discriminate Ht. apply Hne. reflexivity. }
  replace attributes
    with (returned (extract_attributes romanian_db
                      (u "Degresant acetonă 99% lavandă 30 ml") None))
    in Hv by (rewrite E; reflexivity).
  vm_compute in Hv. discriminate.
Qed.

(** ** Incident intake *)

Lemma get_insert_ne (d : gmap string value) k k' v dflt :
  k <> k' -> get (<[k := v]> d) k' dflt = get d k' dflt.
Proof. intros H. unfold get. rewrite lookup_insert_ne by exact H. reflexivity. Qed.

Lemma py_gt_int d t : (d > t)%Z -> py_gt (VInt d) (VInt t) = Ok true.
Proof.
  intros H. unfold py_gt. simpl.
  destruct (Qle_bool (inject_Z d) (inject_Z t)) eqn:E; [|reflexivity].
  apply Qle_bool_iff in E. rewrite <- Zle_Qle in E. lia.
Qed.

(** C2. When [qty_damaged] exceeds [qty_total_in_shipment] (taken as 0 when
    absent), [create_incident] raises the ValueError "qty_damaged cannot
    exceed qty_total_in_shipment" and leaves the store as it was. *)
Theorem create_incident_rejects_excess (e : env) (payload : gmap string value)
    (w : world) (d t : Z) :
  payload !! "qty_damaged" = Some (VInt d) ->
  get payload "qty_total_in_shipment" (VInt 0) = VInt t ->
  (d > t)%Z ->
  create_incident e payload w
  = (Raise (ValueError "qty_damaged cannot exceed qty_total_in_shipment"), w).
Proof.
  intros Hd Ht Hgt. unfold create_incident. cbv zeta.
  set (body1 := if negb _ then _ else _).
  set (body2 := match get body1 "damage_type" VNone with VStr _ => _ | _ => body1 end).
  assert (H1 : forall k dflt, k <> "incident_id" -> get body1 k dflt = get payload k dflt).
  { intros k dflt Hk. unfold body1. destruct (negb _); [|reflexivity].
    apply get_insert_ne. congruence. }
  assert (H2 : forall k dflt, k <> "incident_id" -> k <> "damage_type" ->
                 get body2 k dflt = get payload k dflt).
  { intros k dflt Hk Hk'. unfold body2.
    destruct (get body1 "damage_type" VNone); try (apply H1; exact Hk).
    rewrite get_insert_ne by congruence. apply H1, Hk. }
  rewrite !H2 by discriminate. rewrite Ht. unfold get at 1. rewrite Hd. simpl default.
  rewrite (py_gt_int _ _ Hgt). reflexivity.
Qed.

Lemma create_incident_rejects_excess_witness :
  create_incident sample_env (sample_incident 100 150 (VList [VStr (u "leakage")]))
    empty_world
  = (Raise (ValueError "qty_damaged cannot exceed qty_total_in_shipment"), empty_world).
Proof.
  apply (create_incident_rejects_excess sample_env _ empty_world 150 100).
  - reflexivity.
  - reflexivity.
  - lia.
Defined.

Lemma new_incident_Ok e body i :
  new_incident e body = Ok i ->
  body !! "incident_id" = Some (incident_id i)
  /\ damage_type i = get body "damage_type" (VList []).
Proof.
  unfold new_incident. destruct (forallb _ _); [|discriminate].
  unfold required.
  repeat match goal with
         | |- context [body !! ?k] =>
           lazymatch goal with
           | |- bind (match body !! k with _ => _ end) _ = _ -> _ =>
             destruct (body !! k) eqn:?; simpl bind; [|discriminate]
           end
         end.
  intros [= <-]. simpl. auto.
Qed.

Lemma asdict_damage_type i : asdict i !! "damage_type" = Some (damage_type i).
Proof. reflexivity. Qed.

Lemma insert_incident_Ok i w w' :
  insert_incident i w = (Ok tt, w') ->
  exists id document,
    incident_id i = VStr id
    /\ w' = {| products := products w;
               supplier_incidents := <[id := document]> (supplier_incidents w) |}
    /\ document !! "damage_type" = Some (damage_type i).
Proof.
  unfold insert_incident, _serialize_incident.
  destruct (isoformat (date_reported i)) as [reported|]; cbn [bind]; [|discriminate].
  destruct (isoformat (created_at i)) as [created|]; cbn [bind]; [|discriminate].
  unfold document_id.
  destruct (incident_id i) as [| | | |id| | |] eqn:Hid; try discriminate.
  destruct id as [|c id]; [discriminate|].
  intros [= <-]. eexists _, _. split; [reflexivity|]. split; [reflexivity|].
  rewrite !lookup_insert_ne by discriminate. apply asdict_damage_type.
Qed.

(** C9 (amended). For every payload [create_incident] accepts, exactly one
    document is written, under the incident id that is returned, and its
    [damage_type] is the submitted value: a single string becomes a
    one-element list, a list is kept as it is (an empty one too), and an
    omitted field becomes the empty list. *)
Theorem create_incident_damage_type (e : env) (payload : gmap string value)
    (w : world) (r : gmap string value) (w' : world) :
  create_incident e payload w = (Ok r, w') ->
  exists id document,
    r !! "incident_id" = Some (VStr id)
    /\ products w' = products w
    /\ supplier_incidents w' = <[id := document]> (supplier_incidents w)
    /\ document !! "damage_type" = Some (normalized_damage_type payload).
Proof.
  unfold create_incident. cbv zeta.
  set (body1 := if negb _ then _ else _).
  set (body2 := match get body1 "damage_type" VNone with VStr _ => _ | _ => body1 end).
  assert (H1 : body1 !! "damage_type" = payload !! "damage_type").
  { unfold body1. destruct (negb _); [|reflexivity].
    apply lookup_insert_ne. discriminate. }
  assert (H2 : get body2 "damage_type" (VList []) = normalized_damage_type payload).
  { unfold body2, normalized_damage_type, get. rewrite H1.
    destruct (payload !! "damage_type") as [v|] eqn:Hp; simpl.
    - destruct v; simpl; rewrite ?lookup_insert_eq, ?H1, ?Hp; reflexivity.
    - rewrite ?H1, ?Hp. reflexivity. }
  destruct (py_gt _ _) as [[|]|]; try discriminate.
  destruct (new_incident e body2) as [i|] eqn:Hi; [|discriminate].
  apply new_incident_Ok in Hi as [_ Hdt].
  destruct (insert_incident i w) as [[[]|] w1] eqn:Hins; [|discriminate].
  apply insert_incident_Ok in Hins as (id & document & Hid & -> & Hdoc).
  intros [= <- <-]. exists id, document. simpl.
  split; [rewrite lookup_insert_eq, Hid; reflexivity|].
  split; [reflexivity|]. split; [reflexivity|].
  rewrite Hdoc, Hdt, H2. reflexivity.
Qed.

Lemma create_incident_damage_type_witness :
  exists id document,
    (<["incident_id" := VStr (u "INC-0123456789ab")]> (<["created" := VBool true]> ∅)
       : gmap string value) !! "incident_id" = Some (VStr id)
    /\ products (snd (create_incident sample_env
                        (sample_incident 100 5 (VStr (u "leakage"))) empty_world))
       = products empty_world
    /\ supplier_incidents (snd (create_incident sample_env
                                  (sample_incident 100 5 (VStr (u "leakage")))
                                  empty_world))
       = <[id := document]> (supplier_incidents empty_world)
    /\ document !! "damage_type"
       = Some (normalized_damage_type (sample_incident 100 5 (VStr (u "leakage")))).
Proof.
  apply (create_incident_damage_type sample_env
           (sample_incident 100 5 (VStr (u "leakage"))) empty_world).
  vm_compute. reflexivity.
Defined.

(** C9 as stated fails: a payload whose [damage_type] is the empty list (the
    default of the API schema and of the dataclass) is accepted and stored
    with no tag. *)
Lemma accepted_incidents_have_tags_refuted : ~ accepted_incidents_have_tags.
Proof.
  intros H.
  set (p := sample_incident 100 5 (VList [])).
  assert (E : create_incident sample_env p empty_world
              = (Ok (returned (fst (create_incident sample_env p empty_world))),
                 snd (create_incident sample_env p empty_world)))
    by (vm_compute; reflexivity).
  destruct (H _ _ _ _ _ E) as (id & document & tags & Hid & Hdoc & Htags & Hne).
  vm_compute in Hid. injection Hid as <-.
  apply (f_equal (fun o => match o with
                           | Some d => d !! "damage_type"
                           | None => None
                           end)) in Hdoc.
  cbv beta iota in Hdoc. rewrite Htags in Hdoc.
  vm_compute in Hdoc. injection Hdoc as <-. apply Hne. reflexivity.
Qed.

(** ** Product upsert *)







(** ** The collection attribute *)

Lemma collection_lookup (U : unicode_db) name description :
  exists attributes,
    extract_attributes U name description = Ok attributes
    /\ attributes !! "attr_collection"
       = rule_value U (RGroup (COLLECTION_PATTERN U) 2 strip)
           (haystack_of name description).
Proof.
  destruct (extract_attributes_lookup U name description) as (attributes & E & L).
  exists attributes. split; [exact E|]. rewrite L. reflexivity.
Qed.

Lemma occurs_at_collection (U : unicode_db) t pre w caps :
  occurs_at U (COLLECTION_PATTERN U) t pre w caps ->
  exists tok, assoc_group 2 caps = Some tok /\ collection_occurrence U t pre tok.
Proof.
  intros Hocc. pose proof Hocc as (rest & s' & _ & Hm & ->).
  apply collection_group2 in Hm as (tok & Hg & _).
  exists tok. split; [exact Hg|]. apply collection_occurs_iff. eauto.
Qed.

(** X7. Call an occurrence: "colectia" or "colectiei" in any case
    (plain ASCII letters), white space, a token of 3 to 30 word characters or
    hyphens, and then either white space and a digit or nothing but white
    space up to the end of the text.  The collection attribute is the token
    of the leftmost occurrence in the combined text, and it is absent when
    the text has no occurrence. *)
Theorem collection_rule (U : unicode_db) (name : text) (description : option text) :
  unicode_ok U ->
  exists attributes,
    extract_attributes U name description = Ok attributes
    /\ (forall pre tok,
          collection_occurrence U (haystack_of name description) pre tok ->
          (forall pre' tok',
             collection_occurrence U (haystack_of name description) pre' tok' ->
             length pre <= length pre') ->
          attributes !! "attr_collection" = Some (VStr tok))
    /\ ((forall pre tok,
           ~ collection_occurrence U (haystack_of name description) pre tok) ->
        attributes !! "attr_collection" = None).
Proof.
  intros Hok. destruct (collection_lookup U name description) as (attributes & E & L).
  exists attributes. split; [exact E|]. rewrite L. clear E L.
  set (t := haystack_of name description). split.
  - intros pre tok Hocc Hleft.
    pose proof Hocc as Hocc0.
    apply collection_occurs_iff in Hocc as (w & caps & Hat & _).
    assert (Hs : is_Some (search U (COLLECTION_PATTERN U) t))
      by (apply search_is_Some; exists pre, w, caps; exact Hat).
    destruct Hs as [mo Hmo]. simpl. rewrite Hmo.
    destruct (search_Some _ _ _ _ Hmo) as (pre0 & Hat0 & _ & Hleft0).
    destruct (occurs_at_collection _ _ _ _ _ Hat0) as (tok0 & Hg & Hocc1).
    simpl. rewrite Hg.
    assert (Hlen : length pre = length pre0).
    { apply Nat.le_antisymm; [eauto|].
      destruct (Nat.le_gt_cases (length pre0) (length pre)) as [Hle|Hlt]; [exact Hle|].
      exfalso. eapply Hleft0; eauto. }
    assert (pre0 = pre).
    { destruct Hocc0 as (? & ? & ? & E1 & _). destruct Hocc1 as (? & ? & ? & E2 & _).
      rewrite E1 in E2. apply app_inj_1 in E2 as [-> _]; auto. }
    subst pre0.
    rewrite (collection_occurrence_unique U t pre tok0 tok Hok Hocc1 Hocc0).
    destruct Hocc0 as (_ & _ & _ & _ & _ & _ & _ & Ht & _).
    destruct (strip_token U tok Hok Ht) as [-> _]. reflexivity.
  - intros Hnone. simpl.
    assert (Hs : search U (COLLECTION_PATTERN U) t = None).
    { apply search_None. intros (pre & w & caps & Hat).
      destruct (occurs_at_collection _ _ _ _ _ Hat) as (tok & _ & Hocc).
      exact (Hnone pre tok Hocc). }
    rewrite Hs. reflexivity.
Qed.

Lemma collection_rule_witness :
  unicode_ok romanian_db
  /\ exists attributes,
       extract_attributes romanian_db (u "Oja COLECTIEI Glam-Rock  7 ml") None
       = Ok attributes
       /\ attributes !! "attr_collection" = Some (VStr (u "Glam-Rock")).
Proof.
  split; [exact romanian_db_ok|].
  destruct (collection_rule romanian_db (u "Oja COLECTIEI Glam-Rock  7 ml") None
              romanian_db_ok) as (attributes & E & Hsome & _).
  exists attributes. split; [exact E|].
  apply (Hsome (u "Oja ") (u "Glam-Rock")).
  - exists (u "COLECTIEI"), (u " "), (u "  7 ml").
    split; [vm_compute; reflexivity|].
    split; [right; vm_compute; repeat constructor|].
    split; [discriminate|].
    split; [vm_compute; repeat constructor|].
    split; [split; [vm_compute; lia | vm_compute; repeat constructor]|].
    left. exists (u "  "), 55%N, (u " ml").
    split; [vm_compute; reflexivity|]. split; [discriminate|].
    split; [vm_compute; repeat constructor | reflexivity].
  - intros pre' tok' (mk & ws & tail & Ht & Hmk & _).
    destruct (Nat.le_gt_cases 4 (length pre')) as [Hle|Hlt]; [exact Hle|].
    exfalso.
    assert (Hc : exists c r, mk = c :: r /\ ci_char 99 c = true).
    { destruct Hmk as [Hmk|Hmk]; inversion Hmk; subst; eauto. }
    destruct Hc as (c & r & -> & Hc).
    vm_compute in Ht.
    do 4 (destruct pre' as [|? pre'];
          [simpl in Ht; injection Ht as Hc' _; subst c; vm_compute in Hc; discriminate
          |simpl in Ht; injection Ht as _ Ht]).
    simpl in Hlt. lia.
Defined.

(** C5 as stated fails: "Colecția Glam 15 ml", with the marker spelled with
    its diacritic, gets no collection at all. *)
Lemma collection_after_marker_refuted : ~ collection_after_marker romanian_db.
Proof.
  intros H.
  specialize (H (u "Colecția Glam 15 ml") None
                (<["attr_volume_ml" := VFloat (15 # 1)]> ∅)
                [] (u "Colecția") (u " Glam 15 ml")).
  assert (Hv : (<["attr_volume_ml" := VFloat (15 # 1)]> ∅ : gmap string value)
                 !! "attr_collection"
               = Some (VStr (strip (until_digit romanian_db (u " Glam 15 ml"))))).
  { apply H; [vm_compute; reflexivity | vm_compute; reflexivity
             | left; vm_compute; reflexivity]. }
  vm_compute in Hv. discriminate.
Qed.

(** Nor is a marker followed by several words captured. *)
Example collection_several_words :
  extract_attributes romanian_db (u "Colectiei Glam Rock 15 ml") None
  = Ok (<["attr_volume_ml" := VFloat (15 # 1)]> ∅).
Proof. vm_compute. reflexivity. Qed.

(** ** The store's ordering *)

Section SortingFacts.

Context {A : Type} (leb : A -> A -> bool).

Hypothesis leb_total : forall a b, leb a b = false -> leb b a = true.
Hypothesis leb_trans : forall a b c, leb a b = true -> leb b c = true -> leb a c = true.

Lemma insert_sorted_perm x l : Permutation (insert_sorted leb x l) (x :: l).
Proof.
  induction l as [|y l IH]; simpl; [reflexivity|].
  destruct (leb x y); [reflexivity|].
  rewrite IH. apply perm_swap.
Qed.

Lemma sort_by_perm l : Permutation (sort_by leb l) l.
Proof.
  induction l as [|x l IH]; simpl; [reflexivity|].
  rewrite insert_sorted_perm, IH. reflexivity.
Qed.

Lemma sort_by_In x l : In x (sort_by leb l) <-> In x l.
Proof.
  split; apply Permutation_in; [apply sort_by_perm | symmetry; apply sort_by_perm].
Qed.

Lemma insert_sorted_strongly x l :
  StronglySorted (fun a b => leb a b = true) l ->
  StronglySorted (fun a b => leb a b = true) (insert_sorted leb x l).
Proof.
  induction 1 as [|y l Hs IH Hy]; simpl; [repeat constructor|].
  destruct (leb x y) eqn:E.
  - constructor; [constructor; assumption|].
    constructor; [exact E|].
    eapply List.Forall_impl; [|exact Hy]. intros b Hb. eauto.
  - constructor; [exact IH|].
    apply List.Forall_forall. intros b Hb.
    apply (Permutation_in _ (insert_sorted_perm x l)) in Hb as [<-|Hb].
    + auto.
    + revert b Hb. apply List.Forall_forall. exact Hy.
Qed.

Lemma sort_by_strongly l : StronglySorted (fun a b => leb a b = true) (sort_by leb l).
Proof.
  induction l as [|x l IH]; simpl; [constructor | apply insert_sorted_strongly, IH].
Qed.

End SortingFacts.

Lemma In_take {A} (x : A) n : forall l, In x (take n l) -> In x l.
Proof.
  induction n as [|n IH]; intros [|y l] H; simpl in *; try contradiction.
  destruct H as [->|H]; auto.
Qed.

Lemma StronglySorted_take {A} (R : A -> A -> Prop) n : forall l,
  StronglySorted R l -> StronglySorted R (take n l).
Proof.
  induction n as [|n IH]; intros l H; [constructor|].
  destruct H as [|x l Hs Hx]; simpl; [constructor|].
  constructor; [apply IH, Hs|].
  apply List.Forall_forall. intros b Hb. apply In_take in Hb.
  revert b Hb. apply List.Forall_forall. exact Hx.
Qed.

Lemma text_ltb_asym : forall a b, text_ltb a b = true -> text_ltb b a = false.
Proof.
  induction a as [|x a IH]; intros [|y b]; simpl; try reflexivity; try discriminate.
  rewrite orb_true_iff, andb_true_iff, orb_false_iff, andb_false_iff.
  rewrite N.ltb_lt, N.eqb_eq, N.ltb_ge, N.eqb_neq.
  intros [H | [-> H]].
  - split; [lia | left; lia].
  - split; [lia | right; apply IH, H].
Qed.

Lemma text_ltb_cotrans : forall c a b,
  text_ltb c a = true -> text_ltb c b = true \/ text_ltb b a = true.
Proof.
  induction c as [|x c IH]; intros [|y a] [|z b]; simpl; try discriminate; auto.
  rewrite !orb_true_iff, !andb_true_iff, !N.ltb_lt, !N.eqb_eq.
  intros [H | [-> H]].
  - destruct (N.lt_ge_cases x z); [auto | right; left; lia].
  - destruct (N.lt_trichotomy z y) as [Hz | [-> | Hz]]; [auto | | auto].
    destruct (IH _ b H); auto.
Qed.

Lemma text_leb_total a b : text_leb a b = false -> text_leb b a = true.
Proof.
  unfold text_leb. rewrite negb_false_iff, negb_true_iff. apply text_ltb_asym.
Qed.

Lemma text_leb_trans a b c :
  text_leb a b = true -> text_leb b c = true -> text_leb a c = true.
Proof.
  unfold text_leb. rewrite !negb_true_iff. intros H1 H2.
  destruct (text_ltb c a) eqn:E; [|reflexivity].
  destruct (text_ltb_cotrans _ _ b E); congruence.
Qed.






(** ** Rows of the queries, intake, upsert and the tools *)

(** *** The damage-rate and coverage rows *)

Lemma all_ok_map_In {A B} (f : A -> result B) l rows b :
  all_ok (map f l) = Ok rows -> In b rows -> exists a, In a l /\ f a = Ok b.
Proof.
  revert rows. induction l as [|a l IH]; simpl; intros rows H Hb.
  - injection H as <-. contradiction.
  - destruct (f a) as [b0|] eqn:E; [|discriminate]. cbn [bind] in H.
    destruct (all_ok (map f l)) as [r|] eqn:E2; [|discriminate]. cbn [bind] in H.
    injection H as <-. destruct Hb as [<-|Hb]; [eauto|].
    destruct (IH r eq_refl Hb) as (a' & Ha & Hf). eauto.
Qed.

Lemma all_ok_map_total {A B} (f : A -> result B) l :
  (forall a, In a l -> exists b, f a = Ok b) -> exists rows, all_ok (map f l) = Ok rows.
Proof.
  induction l as [|a l IH]; simpl; intros H; [eauto|].
  destruct (H a) as [b ->]; [auto|]. destruct IH as [r ->]; [auto|].
  cbn [bind]. eauto.
Qed.

Lemma all_ok_map_length {A B} (f : A -> result B) l rows :
  all_ok (map f l) = Ok rows -> length rows = length l.
Proof.
  revert rows. induction l as [|a l IH]; simpl; intros rows H.
  - injection H as <-. reflexivity.
  - destruct (f a) as [b0|]; [|discriminate]. cbn [bind] in H.
    destruct (all_ok (map f l)) as [r|]; [|discriminate]. cbn [bind] in H.
    injection H as <-. simpl. f_equal. auto.
Qed.

Lemma text_eqb_refl k : text_eqb k k = true.
Proof. unfold text_eqb. apply bool_decide_eq_true. reflexivity. Qed.

Lemma term_query_keyword field k doc : In k (keywords doc field) -> term_query field k doc = true.
Proof.
  intros H. unfold term_query. apply existsb_exists. exists k. auto using text_eqb_refl.
Qed.

Lemma term_query_In field k doc : term_query field k doc = true -> In k (keywords doc field).
Proof.
  unfold term_query. intros (x & Hx & E)%existsb_exists.
  unfold text_eqb in E. apply bool_decide_eq_true in E. subst. exact Hx.
Qed.

(** A bucket of a terms aggregation holds the documents that carry its key,
    and at least one. *)
Lemma terms_buckets_In field size docs k ds :
  In (k, ds) (terms_buckets field size docs) ->
  ds = List.filter (term_query field k) docs /\ ds <> []
  /\ (forall d, In d ds -> In d docs).
Proof.
  unfold terms_buckets. intros H%In_take%sort_by_In.
  apply in_map_iff in H as (k' & [= <- <-] & Hk).
  apply list_elem_of_In in Hk. rewrite elem_of_remove_dups in Hk.
  apply list_elem_of_In in Hk.
  apply in_flat_map in Hk as (d & Hd & Hkd).
  split; [reflexivity|]. split.
  - intros E. assert (Hin : In d (List.filter (term_query field k') docs)).
    { apply filter_In. auto using term_query_keyword. }
    rewrite E in Hin. contradiction.
  - intros d' Hd'. apply filter_In in Hd'. tauto.
Qed.

Lemma terms_buckets_length field size docs : length (terms_buckets field size docs) <= size.
Proof. unfold terms_buckets. rewrite length_take. lia. Qed.

Lemma sum_field_cons field d ds :
  sum_field field (d :: ds) = (sum_field field [d] + sum_field field ds)%Z.
Proof.
  unfold sum_field. simpl. rewrite app_nil_r.
  induction (integers d field) as [|x l IH]; simpl; [reflexivity|]. rewrite IH. lia.
Qed.

Lemma valid_sums (ds : list (gmap string value)) :
  (forall d, In d ds ->
     (0 <= sum_field "qty_damaged" [d] <= sum_field "qty_total_in_shipment" [d])%Z) ->
  (0 <= sum_field "qty_damaged" ds <= sum_field "qty_total_in_shipment" ds)%Z.
Proof.
  induction ds as [|d ds IH]; intros H.
  - unfold sum_field. simpl. lia.
  - rewrite !(sum_field_cons _ d ds).
    pose proof (H d (or_introl eq_refl)). 
    assert (0 <= sum_field "qty_damaged" ds <= sum_field "qty_total_in_shipment" ds)%Z
      by (apply IH; intros; apply H; right; assumption).
    lia.
Qed.

Lemma unit_fraction (d t : Z) :
  (0 <= d <= t)%Z -> (0 < t)%Z -> unit_ratio (inject_Z d / inject_Z t).
Proof.
  intros Hd Ht.
  assert (H : (inject_Z 0 < inject_Z t)%Q) by (rewrite <- Zlt_Qlt; exact Ht).
  change (inject_Z 0) with 0%Q in H.
  split.
  - apply Qle_shift_div_l; [assumption|]. rewrite Qmult_0_l.
    change 0%Q with (inject_Z 0). rewrite <- Zle_Qle. lia.
  - apply Qle_shift_div_r; [assumption|]. rewrite Qmult_1_l.
    rewrite <- Zle_Qle. lia.
Qed.

Lemma damage_rate_script_zero d t : (t == 0)%Q -> damage_rate_script d t = 0%Q.
Proof.
  intros H. unfold damage_rate_script. apply Qeq_bool_iff in H. rewrite H. reflexivity.
Qed.

Lemma damage_rate_script_unit (d t : Z) :
  (0 <= d <= t)%Z -> unit_ratio (damage_rate_script (inject_Z d) (inject_Z t)).
Proof.
  intros H. unfold damage_rate_script.
  destruct (Qeq_bool (inject_Z t) 0) eqn:E.
  - split; [apply Qle_refl | discriminate].
  - apply unit_fraction; [exact H|].
    assert (t <> 0)%Z.
    { intros ->. discriminate. }
    lia.
Qed.

Lemma rate_metrics_ok w docs rate :
  (forall d, In d docs -> In d (index_docs (supplier_incidents w))) ->
  read_damage_rate (rate_metrics docs) = Ok rate ->
  rate_ok w rate (rb_total_qty (rate_metrics docs)).
Proof.
  intros Hsub. unfold read_damage_rate, rate_metrics. simpl.
  destruct docs as [|d0 ds]; [discriminate|]. intros [= <-].
  split.
  - apply damage_rate_script_zero.
  - intros Hv. apply damage_rate_script_unit, valid_sums.
    intros d Hd. apply Hv, Hsub, Hd.
Qed.

Lemma kpi_of_bucket_ok w supplier type docs row :
  (forall d, In d docs -> In d (index_docs (supplier_incidents w))) ->
  kpi_of_bucket supplier type docs = Ok row ->
  rate_ok w (row_damage_rate row) (row_qty_total row)
  /\ row_supplier_id row = supplier /\ row_product_type row = type
  /\ row_qty_total row = inject_Z (sum_field "qty_total_in_shipment" docs)
  /\ row_qty_damaged row = inject_Z (sum_field "qty_damaged" docs).
Proof.
  intros Hsub. unfold kpi_of_bucket. cbv zeta.
  destruct (read_damage_rate (rate_metrics docs)) as [rate|] eqn:E; [|discriminate].
  cbn [bind]. intros [= <-]. simpl.
  split; [exact (rate_metrics_ok w docs rate Hsub E)|]. auto.
Qed.

Lemma kpi_of_bucket_total supplier type docs :
  docs <> [] -> exists row, kpi_of_bucket supplier type docs = Ok row.
Proof.
  intros H. unfold kpi_of_bucket, read_damage_rate, rate_metrics. cbv zeta. simpl.
  destruct docs; [contradiction|]. cbn [bind]. eauto.
Qed.

Lemma all_ok_map_project {A B C} (f : A -> result B) (g : B -> C) (h : A -> C) l rows :
  (forall a b, In a l -> f a = Ok b -> g b = h a) ->
  all_ok (map f l) = Ok rows -> map g rows = map h l.
Proof.
  revert rows. induction l as [|a l IH]; simpl; intros rows Hp H.
  - injection H as <-. reflexivity.
  - destruct (f a) as [b0|] eqn:E; [|discriminate]. cbn [bind] in H.
    destruct (all_ok (map f l)) as [r|] eqn:E2; [|discriminate]. cbn [bind] in H.
    injection H as <-. simpl. f_equal; [eauto|]. apply IH; auto.
Qed.

Lemma NoDup_take {A} (l : list A) n : List.NoDup l -> List.NoDup (take n l).
Proof.
  intros H. apply NoDup_ListNoDup. apply NoDup_ListNoDup in H.
  eapply sublist_NoDup; [exact H | apply sublist_take].
Qed.

Lemma terms_buckets_keys_NoDup field size docs :
  List.NoDup (map fst (terms_buckets field size docs)).
Proof.
  unfold terms_buckets. rewrite <- firstn_map. apply NoDup_take.
  eapply Permutation_NoDup.
  - symmetry. apply Permutation_map, sort_by_perm.
  - rewrite map_map. simpl. rewrite map_id. apply NoDup_ListNoDup, NoDup_remove_dups.
Qed.

Lemma kpi_docs_sub product_type w d :
  In d (kpi_docs product_type w) -> In d (index_docs (supplier_incidents w)).
Proof.
  unfold kpi_docs. destruct product_type as [[|c t]|]; auto.
  intros H%filter_In. tauto.
Qed.

(** X1. [damage_rate_per_supplier] always returns: at most 50 rows, one per
    supplier; each row stands for the incidents of its supplier among those
    the query works on, of which there is at least one; its quantities are
    their sums, its rate is the script's value on the sums, and it names no
    product type. *)
Theorem damage_rate_per_supplier_rows (product_type : option text) (w : world) :
  exists rows,
    damage_rate_per_supplier product_type w = Ok rows
    /\ length rows <= 50
    /\ List.NoDup (map row_supplier_id rows)
    /\ forall row, In row rows ->
         let docs := List.filter (term_query "supplier_id" (row_supplier_id row))
                       (kpi_docs product_type w) in
         docs <> []
         /\ row_product_type row = None
         /\ row_qty_total row = inject_Z (sum_field "qty_total_in_shipment" docs)
         /\ row_qty_damaged row = inject_Z (sum_field "qty_damaged" docs)
         /\ row_damage_rate row
            = damage_rate_script (row_qty_damaged row) (row_qty_total row).
Proof.
  unfold damage_rate_per_supplier. cbv zeta. fold (kpi_docs product_type w).
  set (docs := kpi_docs product_type w).
  set (f := fun b : text * list (gmap string value) => kpi_of_bucket (fst b) None (snd b)).
  destruct (all_ok_map_total f (terms_buckets "supplier_id" 50 docs)) as [rows E].
  { intros [k ds] Hin. apply terms_buckets_In in Hin as (_ & Hne & _).
    apply kpi_of_bucket_total, Hne. }
  assert (Hproj : forall a b, In a (terms_buckets "supplier_id" 50 docs) ->
                             f a = Ok b -> row_supplier_id b = fst a).
  { intros a b _ Hf. unfold f, kpi_of_bucket in Hf. cbv zeta in Hf.
    destruct (read_damage_rate _); [|discriminate]. cbn [bind] in Hf.
    injection Hf as <-. reflexivity. }
  exists rows. split; [exact E|]. split; [|split].
  - rewrite (all_ok_map_length _ _ _ E). apply terms_buckets_length.
  - rewrite (all_ok_map_project f row_supplier_id fst _ _ Hproj E).
    apply terms_buckets_keys_NoDup.
  - intros row Hrow. destruct (all_ok_map_In _ _ _ _ E Hrow) as ([k ds] & Hin & Hf).
    apply terms_buckets_In in Hin as (-> & Hne & Hsub).
    unfold f, kpi_of_bucket, read_damage_rate, rate_metrics in Hf. simpl in Hf.
    destruct (List.filter (term_query "supplier_id" k) docs) as [|d0 ds] eqn:Ed;
      [contradiction|].
    cbn [bind] in Hf. injection Hf as <-. simpl. rewrite Ed.
    repeat split; auto.
Qed.

Lemma damage_rate_per_supplier_ok product_type w rows row :
  damage_rate_per_supplier product_type w = Ok rows -> In row rows ->
  rate_ok w (row_damage_rate row) (row_qty_total row).
Proof.
  unfold damage_rate_per_supplier. cbv zeta. fold (kpi_docs product_type w).
  intros E Hrow. destruct (all_ok_map_In _ _ _ _ E Hrow) as ([k ds] & Hin & Hf).
  apply terms_buckets_In in Hin as (_ & _ & Hsub).
  eapply kpi_of_bucket_ok; [|exact Hf].
  intros d Hd. eapply kpi_docs_sub, Hsub, Hd.
Qed.

Lemma damage_rate_per_supplier_and_type_total w :
  exists rows, damage_rate_per_supplier_and_type w = Ok rows.
Proof.
  unfold damage_rate_per_supplier_and_type. cbv zeta.
  set (buckets := terms_buckets "supplier_id" 50 _).
  set (g := fun sb : text * list (gmap string value) =>
              map (fun tb : text * list (gmap string value) => (fst sb, tb))
                  (terms_buckets "product_type" 10 (snd sb))).
  set (f := fun p : text * (text * list (gmap string value)) =>
              kpi_of_bucket (fst p) (Some (fst (snd p))) (snd (snd p))).
  assert (Heq : forall l,
             flat_map (fun sb => map (fun tb : text * list (gmap string value) =>
                                        kpi_of_bucket (fst sb) (Some (fst tb)) (snd tb))
                                     (terms_buckets "product_type" 10 (snd sb))) l
             = map f (flat_map g l)).
  { induction l as [|sb l IH]; simpl; [reflexivity|].
    rewrite map_app, IH. f_equal. unfold g. rewrite map_map. reflexivity. }
  rewrite Heq. apply all_ok_map_total.
  intros [s [t ds]] Hin. apply in_flat_map in Hin as (sb & _ & Hin).
  unfold g in Hin. apply in_map_iff in Hin as ([t' ds'] & [= <- <- <-] & Hin).
  apply terms_buckets_In in Hin as (_ & Hne & _).
  apply kpi_of_bucket_total, Hne.
Qed.

Lemma damage_rate_per_supplier_and_type_ok w rows row :
  damage_rate_per_supplier_and_type w = Ok rows -> In row rows ->
  rate_ok w (row_damage_rate row) (row_qty_total row)
  /\ exists type, row_product_type row = Some type.
Proof.
  unfold damage_rate_per_supplier_and_type. cbv zeta.
  set (buckets := terms_buckets "supplier_id" 50 _).
  set (g := fun sb : text * list (gmap string value) =>
              map (fun tb : text * list (gmap string value) => (fst sb, tb))
                  (terms_buckets "product_type" 10 (snd sb))).
  set (f := fun p : text * (text * list (gmap string value)) =>
              kpi_of_bucket (fst p) (Some (fst (snd p))) (snd (snd p))).
  assert (Heq : forall l,
             flat_map (fun sb => map (fun tb : text * list (gmap string value) =>
                                        kpi_of_bucket (fst sb) (Some (fst tb)) (snd tb))
                                     (terms_buckets "product_type" 10 (snd sb))) l
             = map f (flat_map g l)).
  { induction l as [|sb l IH]; simpl; [reflexivity|].
    rewrite map_app, IH. f_equal. unfold g. rewrite map_map. reflexivity. }
  rewrite Heq. intros E Hrow.
  destruct (all_ok_map_In _ _ _ _ E Hrow) as ([s [t ds]] & Hin & Hf).
  apply in_flat_map in Hin as ([s' sds] & Hs & Hin).
  unfold g in Hin. apply in_map_iff in Hin as ([t' ds'] & [= <- <- <-] & Hin).
  simpl in Hin. apply terms_buckets_In in Hin as (_ & _ & Hsub).
  apply terms_buckets_In in Hs as (_ & _ & Hsub').
  unfold f in Hf. simpl in Hf.
  destruct (kpi_of_bucket_ok w _ _ _ _ (fun d Hd => Hsub' d (Hsub d Hd)) Hf)
    as (Hok & _ & Ht & _).
  split; [exact Hok | eauto].
Qed.

Lemma monthly_damage_rate_ok supplier w rows row :
  monthly_damage_rate_for_supplier supplier w = Ok rows -> In row rows ->
  rate_ok w (row_month_damage_rate row) (row_month_qty_total row).
Proof.
  unfold monthly_damage_rate_for_supplier. cbv zeta.
  intros E Hrow. destruct (all_ok_map_In _ _ _ _ E Hrow) as ([m ds] & Hin & Hf).
  simpl in Hf.
  destruct (read_damage_rate (rate_metrics ds)) as [rate|] eqn:Er; [|discriminate].
  cbn [bind] in Hf. injection Hf as <-. simpl.
  apply rate_metrics_ok; [|exact Er].
  intros d Hd. unfold month_buckets in Hin.
  destruct (least_Z _) as [lo|]; [|contradiction].
  destruct (maximum _) as [hi|]; [|contradiction].
  apply in_map_iff in Hin as (i & [= <- <-] & _).
  apply filter_In in Hd as [Hd _]. apply filter_In in Hd as [Hd _]. exact Hd.
Qed.

(** X2. In every row of the three damage-rate queries the rate is 0 when
    the total quantity is 0, and it lies in [0, 1] when the stored incidents
    have valid quantities; the two queries by supplier always return. *)
Theorem damage_rates_zero_rule_and_unit (w : world) :
  (forall product_type,
     exists rows, damage_rate_per_supplier product_type w = Ok rows
       /\ forall row, In row rows -> rate_ok w (row_damage_rate row) (row_qty_total row))
  /\ (exists rows, damage_rate_per_supplier_and_type w = Ok rows
        /\ forall row, In row rows ->
             rate_ok w (row_damage_rate row) (row_qty_total row))
  /\ (forall supplier rows,
        monthly_damage_rate_for_supplier supplier w = Ok rows ->
        forall row, In row rows ->
          rate_ok w (row_month_damage_rate row) (row_month_qty_total row)).
Proof.
  split; [|split].
  - intros product_type.
    destruct (damage_rate_per_supplier_rows product_type w) as (rows & E & _).
    exists rows. split; [exact E|]. eauto using damage_rate_per_supplier_ok.
  - destruct (damage_rate_per_supplier_and_type_total w) as [rows E].
    exists rows. split; [exact E|].
    intros row Hrow. eapply damage_rate_per_supplier_and_type_ok; eauto.
  - eauto using monthly_damage_rate_ok.
Qed.

Lemma value_count_filter field p docs :
  (0 <= value_count field (List.filter p docs) <= value_count field docs)%Z.
Proof.
  unfold value_count. split; [lia|]. apply Nat2Z.inj_le.
  induction docs as [|d docs IH]; simpl; [lia|].
  destruct (p d); simpl; rewrite ?length_app; lia.
Qed.

(** X3. [attribute_coverage_by_category] gives at most 200 rows, one per
    category; in each the count with the attribute is between 0 and the
    total, and the ratio lies in [0, 1], is 0 for a total of 0 and is the
    quotient of the two counts otherwise. *)
Theorem coverage_rows (attribute_field : string) (w : world) :
  length (attribute_coverage_by_category attribute_field w) <= 200
  /\ List.NoDup (map row_category_main (attribute_coverage_by_category attribute_field w))
  /\ forall row, In row (attribute_coverage_by_category attribute_field w) ->
       (0 <= row_with_attribute row <= row_total_skus row)%Z
       /\ unit_ratio (row_coverage_ratio row)
       /\ (row_total_skus row = 0%Z -> row_coverage_ratio row = 0%Q)
       /\ (row_total_skus row <> 0%Z ->
           row_coverage_ratio row
           = (inject_Z (row_with_attribute row) / inject_Z (row_total_skus row))%Q).
Proof.
  unfold attribute_coverage_by_category. split; [|split].
  - rewrite length_map. apply terms_buckets_length.
  - rewrite map_map. simpl. apply terms_buckets_keys_NoDup.
  - intros row Hrow. apply in_map_iff in Hrow as ([k ds] & <- & _). simpl.
    pose proof (value_count_filter "sku" (exists_query PRODUCTS_MAPPING attribute_field) ds)
      as Hc.
    split; [exact Hc|].
    destruct (Z.eqb_spec (value_count "sku" ds) 0) as [E|E].
    + split; [split; [apply Qle_refl | discriminate]|]. split; [reflexivity | contradiction].
    + split; [apply unit_fraction; lia|]. split; [contradiction | reflexivity].
Qed.


(** *** Incident intake, case by case *)

Lemma create_incident_unfold e payload w :
  create_incident e payload w
  = match py_gt (get (incident_body e payload) "qty_damaged" (VInt 0))
                (get (incident_body e payload) "qty_total_in_shipment" (VInt 0)) with
    | Raise x => (Raise x, w)
    | Ok true =>
      (Raise (ValueError "qty_damaged cannot exceed qty_total_in_shipment"), w)
    | Ok false =>
      match new_incident e (incident_body e payload) with
      | Raise x => (Raise x, w)
      | Ok incident =>
        match insert_incident incident w with
        | (Raise x, w') => (Raise x, w')
        | (Ok _, w') =>
          (Ok (<["incident_id" := incident_id incident]>
                 (<["created" := VBool true]> ∅)), w')
        end
      end
    end.
Proof.
  unfold create_incident, incident_body. cbv zeta.
  destruct (get (if negb _ then _ else _) "damage_type" VNone); reflexivity.
Qed.

Lemma insert_incident_Raise i w x w' : insert_incident i w = (Raise x, w') -> w' = w.
Proof.
  unfold insert_incident.
  destruct (_serialize_incident i); [|intros [= _ <-]; reflexivity].
  destruct (document_id (incident_id i)); [discriminate | intros [= _ <-]; reflexivity].
Qed.

Lemma serialize_incident_Ok i document :
  _serialize_incident i = Ok document ->
  exists reported created,
    date_reported i = VDateTime reported /\ created_at i = VDateTime created
    /\ document = incident_document i reported created.
Proof.
  unfold _serialize_incident, isoformat, incident_document.
  generalize (asdict i). intros d.
  destruct (date_reported i); cbn [bind]; try discriminate.
  destruct (created_at i); cbn [bind]; try discriminate.
  intros [= <-]. eauto.
Qed.

Lemma document_id_Ok v id : document_id v = Ok id -> v = VStr id /\ id <> [].
Proof.
  unfold document_id. destruct v as [| | | |s| | |]; try discriminate.
  destruct s; [discriminate|]. intros [= <-]. split; [reflexivity | discriminate].
Qed.

Lemma insert_incident_inv i w r w' :
  insert_incident i w = (r, w') ->
  (exists x, r = Raise x /\ w' = w)
  \/ (exists id reported created,
        r = Ok tt /\ incident_id i = VStr id /\ id <> []
        /\ date_reported i = VDateTime reported /\ created_at i = VDateTime created
        /\ w' = {| products := products w;
                   supplier_incidents :=
                     <[id := incident_document i reported created]>
                       (supplier_incidents w) |}).
Proof.
  unfold insert_incident.
  destruct (_serialize_incident i) as [document|y] eqn:Es;
    [|intros [= <- <-]; left; eauto].
  destruct (document_id (incident_id i)) as [id|y] eqn:Ei;
    [|intros [= <- <-]; left; eauto].
  apply serialize_incident_Ok in Es as (reported & created & Hr & Hc & ->).
  apply document_id_Ok in Ei as [Hi Hne].
  intros [= <- <-]. right. exists id, reported, created. auto 10.
Qed.

(** X10. A call of [create_incident] that raises leaves the store as it was. *)
Theorem create_incident_failure_writes_nothing (e : env)
    (payload : gmap string value) (w : world) (x : exn) (w' : world) :
  create_incident e payload w = (Raise x, w') -> w' = w.
Proof.
  rewrite create_incident_unfold.
  destruct (py_gt _ _) as [[|]|]; try (intros [= _ <-]; reflexivity).
  destruct (new_incident e _) as [i|]; [|intros [= _ <-]; reflexivity].
  destruct (insert_incident i w) as [[[]|y] w1] eqn:E; [discriminate|].
  intros [= _ <-]. eapply insert_incident_Raise, E.
Qed.

Lemma new_incident_inv e body i :
  new_incident e body = Ok i ->
  (forall k, is_Some (body !! k) -> In k incident_fields)
  /\ (forall k, In k required_fields -> is_Some (body !! k))
  /\ (forall k, In k incident_fields ->
        asdict i !! k = Some (get body k (incident_default e k))).
Proof.
  unfold new_incident.
  destruct (forallb _ _) eqn:Hall; [|discriminate].
  assert (Hkeys : forall k, is_Some (body !! k) -> In k incident_fields).
  { intros k [v Hk]. rewrite forallb_forall in Hall.
    specialize (Hall (k, v)).
    assert (Hin : In (k, v) (map_to_list body))
      by (apply list_elem_of_In, elem_of_map_to_list, Hk).
    apply Hall in Hin. change (existsb (String.eqb k) incident_fields = true) in Hin.
    apply existsb_exists in Hin as (k' & Hk' & E).
    apply String.eqb_eq in E. subst. exact Hk'. }
  unfold required.
  destruct (body !! "incident_id") as [v1|] eqn:E1; cbn [bind]; [|discriminate].
  destruct (body !! "supplier_id") as [v2|] eqn:E2; cbn [bind]; [|discriminate].
  destruct (body !! "supplier_name") as [v3|] eqn:E3; cbn [bind]; [|discriminate].
  destruct (body !! "date_reported") as [v4|] eqn:E4; cbn [bind]; [|discriminate].
  destruct (body !! "sku") as [v5|] eqn:E5; cbn [bind]; [|discriminate].
  destruct (body !! "product_type") as [v6|] eqn:E6; cbn [bind]; [|discriminate].
  destruct (body !! "category_main") as [v7|] eqn:E7; cbn [bind]; [|discriminate].
  destruct (body !! "qty_total_in_shipment") as [v8|] eqn:E8; cbn [bind]; [|discriminate].
  destruct (body !! "qty_damaged") as [v9|] eqn:E9; cbn [bind]; [|discriminate].
  intros [= <-]. split; [exact Hkeys|]. split.
  - intros k Hk. cbn [required_fields In] in Hk.
    repeat destruct Hk as [<-|Hk]; try contradiction; eauto.
  - intros k Hk. cbn [incident_fields In] in Hk. unfold get.
    repeat destruct Hk as [<-|Hk]; try contradiction;
      rewrite ?E1, ?E2, ?E3, ?E4, ?E5, ?E6, ?E7, ?E8, ?E9; reflexivity.
Qed.

Lemma asdict_dom i k : is_Some (asdict i !! k) <-> In k incident_fields.
Proof.
  unfold asdict. split.
  - intros [v Hv]. apply elem_of_list_to_map_2, list_elem_of_In in Hv.
    cbn [In] in Hv. cbn [incident_fields In].
    repeat destruct Hv as [[= <- _]|Hv]; try contradiction; tauto.
  - intros Hk. cbn [incident_fields In] in Hk.
    repeat destruct Hk as [<-|Hk]; try contradiction; eexists; reflexivity.
Qed.

Lemma create_incident_Ok_inv e payload w r w' :
  create_incident e payload w = (Ok r, w') ->
  exists i id reported created,
    py_gt (get (incident_body e payload) "qty_damaged" (VInt 0))
          (get (incident_body e payload) "qty_total_in_shipment" (VInt 0)) = Ok false
    /\ new_incident e (incident_body e payload) = Ok i
    /\ incident_id i = VStr id /\ id <> []
    /\ date_reported i = VDateTime reported /\ created_at i = VDateTime created
    /\ r = <["incident_id" := VStr id]> (<["created" := VBool true]> ∅)
    /\ w' = {| products := products w;
               supplier_incidents :=
                 <[id := incident_document i reported created]>
                   (supplier_incidents w) |}.
Proof.
  rewrite create_incident_unfold.
  destruct (py_gt _ _) as [[|]|] eqn:Hgt; try discriminate.
  destruct (new_incident e _) as [i|] eqn:Hi; [|discriminate].
  destruct (insert_incident i w) as [r1 w1] eqn:E.
  apply insert_incident_inv in E
    as [(x & -> & ->) | (id & reported & created & -> & Hid & Hne & Hr & Hc & ->)];
    [discriminate|].
  intros [= <- <-]. exists i, id, reported, created. rewrite Hid. auto 10.
Qed.


Lemma incident_body_other e payload k :
  k <> "incident_id" -> k <> "damage_type" ->
  incident_body e payload !! k = payload !! k.
Proof.
  intros H1 H2. unfold incident_body. cbv zeta.
  set (body := if negb _ then _ else _).
  assert (H : body !! k = payload !! k).
  { unfold body. destruct (negb _); [|reflexivity].
    apply lookup_insert_ne. congruence. }
  destruct (get body "damage_type" VNone); try exact H.
  rewrite lookup_insert_ne by congruence. exact H.
Qed.


Lemma in_fields k :
  existsb (String.eqb k) incident_fields = true -> In k incident_fields.
Proof.
  intros (k' & Hk & E)%existsb_exists. apply String.eqb_eq in E. subst. exact Hk.
Qed.

Lemma incident_document_lookup i reported created k :
  incident_document i reported created !! k
  = if String.eqb k "created_at" then Some (VStr created)
    else if String.eqb k "date_reported" then Some (VStr reported)
    else asdict i !! k.
Proof.
  unfold incident_document.
  destruct (String.eqb_spec k "created_at") as [->|H1]; [apply lookup_insert_eq|].
  rewrite lookup_insert_ne by congruence.
  destruct (String.eqb_spec k "date_reported") as [->|H2]; [apply lookup_insert_eq|].
  apply lookup_insert_ne. congruence.
Qed.

(** X12. The document stored for an accepted incident has exactly the nineteen
    fields of the record; the two dates are stored as their ISO strings, and
    every other field holds the value of the normalised payload, or the
    field's default when the payload leaves it out. *)
Theorem create_incident_document (e : env) (payload : gmap string value)
    (w : world) (r : gmap string value) (w' : world) :
  create_incident e payload w = (Ok r, w') ->
  exists id document reported created,
    r !! "incident_id" = Some (VStr id)
    /\ supplier_incidents w' !! id = Some document
    /\ (forall k, is_Some (document !! k) <-> In k incident_fields)
    /\ payload !! "date_reported" = Some (VDateTime reported)
    /\ document !! "date_reported" = Some (VStr reported)
    /\ get payload "created_at" (utcnow e) = VDateTime created
    /\ document !! "created_at" = Some (VStr created)
    /\ (forall k, In k incident_fields -> k <> "date_reported" -> k <> "created_at" ->
          document !! k
          = Some (get (incident_body e payload) k (incident_default e k))).
Proof.
  intros H.
  apply create_incident_Ok_inv in H
    as (i & id & reported & created & _ & Hi & Hid & _ & Hr & Hc & -> & ->).
  apply new_incident_inv in Hi as (_ & _ & Hf).
  exists id, (incident_document i reported created), reported, created.
  cbn [products supplier_incidents].
  split; [apply lookup_insert_eq|]. split; [apply lookup_insert_eq|].
  split.
  { intros k. rewrite incident_document_lookup.
    destruct (String.eqb_spec k "created_at") as [->|H1].
    - split; [intros _; apply in_fields; reflexivity | eauto].
    - destruct (String.eqb_spec k "date_reported") as [->|H2].
      + split; [intros _; apply in_fields; reflexivity | eauto].
      + apply asdict_dom. }
  pose proof (Hf "date_reported") as Hd.
  change (asdict i !! "date_reported") with (Some (date_reported i)) in Hd.
  pose proof (Hf "created_at") as Hcr.
  change (asdict i !! "created_at") with (Some (created_at i)) in Hcr.
  rewrite Hr in Hd. rewrite Hc in Hcr.
  specialize (Hd (in_fields "date_reported" eq_refl)). specialize (Hcr (in_fields "created_at" eq_refl)).
  unfold get in Hd, Hcr. rewrite incident_body_other in Hd, Hcr by discriminate.
  injection Hd as Hd. injection Hcr as Hcr.
  split.
  { destruct (payload !! "date_reported") as [v|]; simpl in Hd; [congruence|].
    discriminate Hd. }
  split; [rewrite incident_document_lookup; reflexivity|].
  split; [unfold get; symmetry; exact Hcr|].
  split; [rewrite incident_document_lookup; reflexivity|].
  intros k Hk H1 H2. rewrite incident_document_lookup.
  destruct (String.eqb_spec k "created_at"); [contradiction|].
  destruct (String.eqb_spec k "date_reported"); [contradiction|].
  apply Hf, Hk.
Qed.

Lemma py_gt_int_false d t : py_gt (VInt d) (VInt t) = Ok false -> (d <= t)%Z.
Proof.
  unfold py_gt. simpl. intros [= H]. apply negb_false_iff, Qle_bool_iff in H.
  rewrite <- Zle_Qle in H. exact H.
Qed.

(** An incident with integer quantities is accepted only if its damaged
    quantity does not exceed its total (0 for a payload without total). *)
Lemma create_incident_accepts_only_within_total (e : env)
    (payload : gmap string value) (w : world) (r : gmap string value) (w' : world)
    (d t : Z) :
  create_incident e payload w = (Ok r, w') ->
  payload !! "qty_damaged" = Some (VInt d) ->
  get payload "qty_total_in_shipment" (VInt 0) = VInt t ->
  (d <= t)%Z.
Proof.
  intros H Hd Ht.
  apply create_incident_Ok_inv in H as (i & id & rp & cr & Hgt & _).
  unfold get in Hgt, Ht. rewrite !incident_body_other in Hgt by discriminate.
  rewrite Hd, Ht in Hgt. simpl in Hgt. apply py_gt_int_false, Hgt.
Qed.





Lemma index_docs_insert (index : gmap text (gmap string value)) id document doc :
  In doc (index_docs (<[id := document]> index)) ->
  doc = document \/ In doc (index_docs index).
Proof.
  unfold index_docs. rewrite !in_map_iff. intros ([k d] & <- & Hin).
  apply list_elem_of_In, elem_of_map_to_list in Hin.
  apply lookup_insert_Some in Hin as [[_ <-] | [_ Hin]]; [left; reflexivity|].
  right. exists (k, d). split; [reflexivity|].
  apply list_elem_of_In, elem_of_map_to_list, Hin.
Qed.

Lemma sum_field_int field doc n :
  doc !! field = Some (VInt n) -> sum_field field [doc] = n.
Proof.
  intros H. unfold sum_field. cbn [flat_map]. unfold integers, values_of, get.
  rewrite H. simpl. lia.
Qed.

(** X14. An accepted incident whose integer quantities are not negative keeps
    the store's quantities valid. *)
Theorem create_incident_keeps_quantities_valid (e : env)
    (payload : gmap string value) (w : world) (r : gmap string value) (w' : world)
    (d t : Z) :
  valid_quantities w ->
  create_incident e payload w = (Ok r, w') ->
  payload !! "qty_damaged" = Some (VInt d) ->
  payload !! "qty_total_in_shipment" = Some (VInt t) ->
  (0 <= d)%Z ->
  valid_quantities w'.
Proof.
  intros Hv H Hd Ht H0.
  apply create_incident_Ok_inv in H as (i & id & rp & cr & Hgt & Hi & _ & _ & _ & _ & _ & ->).
  apply new_incident_inv in Hi as (_ & _ & Hf).
  unfold get in Hgt. rewrite !incident_body_other in Hgt by discriminate.
  rewrite Hd, Ht in Hgt. simpl in Hgt. apply py_gt_int_false in Hgt.
  intros doc Hin. cbn [supplier_incidents] in Hin.
  apply index_docs_insert in Hin as [-> | Hin]; [|apply Hv, Hin].
  rewrite (sum_field_int "qty_damaged" _ d), (sum_field_int "qty_total_in_shipment" _ t).
  - lia.
  - unfold incident_document. rewrite !lookup_insert_ne by discriminate.
    rewrite (Hf _ (in_fields "qty_total_in_shipment" eq_refl)).
    unfold get. rewrite incident_body_other by discriminate. rewrite Ht. reflexivity.
  - unfold incident_document. rewrite !lookup_insert_ne by discriminate.
    rewrite (Hf _ (in_fields "qty_damaged" eq_refl)).
    unfold get. rewrite incident_body_other by discriminate. rewrite Hd. reflexivity.
Qed.


(** *** Product upsert and fetch *)


Lemma drop_none_Some (d : gmap string value) k v :
  drop_none d !! k = Some v <-> d !! k = Some v /\ v <> VNone.
Proof.
  unfold drop_none. rewrite map_lookup_filter_Some. simpl.
  split; intros [H1 H2]; (split; [exact H1|]).
  - intros ->. discriminate.
  - destruct v; try reflexivity. contradiction.
Qed.

Lemma drop_none_None (d : gmap string value) k :
  drop_none d !! k = None <-> d !! k = None \/ d !! k = Some VNone.
Proof.
  destruct (drop_none d !! k) as [v|] eqn:E.
  - apply drop_none_Some in E as [E Hv]. rewrite E. split; [discriminate|].
    intros [H|H]; [discriminate | congruence].
  - split; [intros _ | reflexivity].
    destruct (d !! k) as [v|] eqn:Ev; [|auto]. right. f_equal.
    assert (Hdec : v = VNone \/ v <> VNone)
      by (destruct v; auto; right; discriminate).
    destruct Hdec as [->|Hn]; [reflexivity|].
    assert (drop_none d !! k = Some v) by (apply drop_none_Some; auto). congruence.
Qed.





(** X16. A payload without a SKU, or with None for it, is refused with
    KeyError and nothing is written. *)
Theorem upsert_product_requires_sku (U : unicode_db) (e : env)
    (payload : gmap string value) (w : world) :
  payload !! "sku" = None \/ payload !! "sku" = Some VNone ->
  upsert_product U e payload w = (Raise (KeyError "sku"), w).
Proof.
  intros H. apply drop_none_None in H. unfold upsert_product. cbv zeta.
  rewrite H. reflexivity.
Qed.











(** *** The damage-type distribution and the monthly histogram *)

Lemma bucket_leb_total a b : bucket_leb a b = false -> bucket_leb b a = true.
Proof.
  unfold bucket_leb. intros H. apply orb_false_iff in H as [H1 H2].
  apply Nat.ltb_ge in H1.
  destruct (Nat.ltb_spec (length (snd a)) (length (snd b))); [reflexivity|].
  assert (E : length (snd a) = length (snd b)) by lia.
  rewrite E, Nat.eqb_refl in *. simpl in *. apply text_leb_total, H2.
Qed.

Lemma bucket_leb_trans a b c :
  bucket_leb a b = true -> bucket_leb b c = true -> bucket_leb a c = true.
Proof.
  unfold bucket_leb. intros H1 H2.
  apply orb_true_iff in H1 as [H1|H1]; apply orb_true_iff in H2 as [H2|H2];
    rewrite ?andb_true_iff, ?Nat.ltb_lt, ?Nat.eqb_eq in *; apply orb_true_iff.
  - left. apply Nat.ltb_lt. lia.
  - left. apply Nat.ltb_lt. lia.
  - left. apply Nat.ltb_lt. lia.
  - right. rewrite andb_true_iff, Nat.eqb_eq. destruct H1, H2.
    split; [lia | eauto using text_leb_trans].
Qed.

Lemma bucket_leb_count a b :
  bucket_leb a b = true -> length (snd b) <= length (snd a).
Proof.
  unfold bucket_leb. intros H. apply orb_true_iff in H as [H|H].
  - apply Nat.ltb_lt in H. lia.
  - apply andb_true_iff in H as [H _]. apply Nat.eqb_eq in H. lia.
Qed.

Lemma terms_buckets_sorted field size docs :
  StronglySorted (fun a b => length (snd b) <= length (snd a))
                 (terms_buckets field size docs).
Proof.
  unfold terms_buckets.
  assert (H : StronglySorted (fun a b => bucket_leb a b = true)
                (take size (sort_by bucket_leb
                   (map (fun k => (k, List.filter (term_query field k) docs))
                        (remove_dups (flat_map (fun doc => keywords doc field) docs)))))).
  { apply StronglySorted_take, sort_by_strongly.
    - apply bucket_leb_total.
    - apply bucket_leb_trans. }
  induction H as [|a l Hs IH Ha]; constructor; [exact IH|].
  eapply List.Forall_impl; [|exact Ha]. intros b. apply bucket_leb_count.
Qed.

Lemma StronglySorted_map {A B} (f : A -> B) (R' : A -> A -> Prop)
    (R : B -> B -> Prop) l :
  (forall a b, R' a b -> R (f a) (f b)) ->
  StronglySorted R' l -> StronglySorted R (map f l).
Proof.
  intros HR. induction 1 as [|a l Hs IH Ha]; simpl; constructor; [exact IH|].
  apply List.Forall_forall. intros b Hb. apply in_map_iff in Hb as (x & <- & Hx).
  rewrite List.Forall_forall in Ha. auto.
Qed.

(** X4. The damage-type distribution. *)
Theorem damage_types_distribution_rows (w : world) :
  length (damage_types_distribution_per_supplier w) <= 50
  /\ List.NoDup (map dist_supplier_id (damage_types_distribution_per_supplier w))
  /\ forall row, In row (damage_types_distribution_per_supplier w) ->
       supplier_docs (dist_supplier_id row) w <> []
       /\ length (dist_damage_types row) <= 20
       /\ List.NoDup (map fst (dist_damage_types row))
       /\ StronglySorted (fun a b => (snd b <= snd a)%Z) (dist_damage_types row)
       /\ forall type count, In (type, count) (dist_damage_types row) ->
            (1 <= count)%Z
            /\ count = Z.of_nat (length (List.filter (term_query "damage_type" type)
                                           (supplier_docs (dist_supplier_id row) w))).
Proof.
  unfold damage_types_distribution_per_supplier. split; [|split].
  - rewrite length_map. apply terms_buckets_length.
  - rewrite map_map. simpl. apply terms_buckets_keys_NoDup.
  - intros row Hrow. apply in_map_iff in Hrow as ([s ds] & <- & Hin). simpl.
    destruct (terms_buckets_In _ _ _ _ _ Hin) as (Hds & Hne & _).
    fold (supplier_docs s w) in Hds. rewrite <- Hds.
    split; [exact Hne|]. split; [|split; [|split]].
    + rewrite length_map. apply terms_buckets_length.
    + rewrite map_map. simpl. apply terms_buckets_keys_NoDup.
    + apply (StronglySorted_map _ (fun a b => length (snd b) <= length (snd a)));
        [|apply terms_buckets_sorted].
      intros a b H. cbn [snd]. apply inj_le, H.
    + intros type count Hc. apply in_map_iff in Hc as ([t ts] & [= <- <-] & Ht).
      destruct (terms_buckets_In _ _ _ _ _ Ht) as (Hts & Hnt & _).
      rewrite <- Hts. split; [|reflexivity].
      destruct ts; [contradiction | simpl; lia].
Qed.






Lemma month_buckets_In docs m ds :
  In (m, ds) (month_buckets docs) ->
  ds = List.filter (fun doc => bool_decide (doc_month doc = Some m)) docs.
Proof.
  unfold month_buckets. destruct (least_Z _) as [lo|]; [|contradiction].
  destruct (maximum _) as [hi|]; [|contradiction].
  intros H. apply in_map_iff in H as (i & [= <- <-] & _). reflexivity.
Qed.






(** *** The fix list as a cut of the sorted matches *)




(** *** Numbers, keywords and flags of extracted attributes *)

Section NumberFacts.

Variable U : unicode_db.

Ltac inv_matches :=
  repeat match goal with
  | H : matches _ (Seq _ _) _ _ _ |- _ => inversion H; subst; clear H
  | H : matches _ (Grp ?i _) _ _ _ |- _ =>
    let Hb := fresh "Hbody" in
    inversion H as [ | | | | | |? ? ? ? ? Hb| | ]; subst; clear H;
    pose proof (close_group_caps _ _ i _ _ _ Hb)
  | H : matches _ (Alt _ _) _ _ _ |- _ => inversion H; subst; clear H
  | H : matches _ (Rep _ _ _ _) _ _ _ |- _ => inversion H; subst; clear H
  | H : matches _ (Chr _) _ _ _ |- _ => inversion H; subst; clear H
  | H : matches _ WordB _ _ _ |- _ => inversion H; subst; clear H
  | H : matches _ Eos _ _ _ |- _ => inversion H; subst; clear H
  | H : matches _ Eps _ _ _ |- _ => inversion H; subst; clear H
  end.

Ltac caps :=
  repeat match goal with
  | H : ms_caps (close_group ?i ?a ?b) = _ |- context [ms_caps (close_group ?i ?a ?b)] =>
    rewrite H
  | H : step _ _ = Some ?b |- context [ms_caps ?b] => rewrite (step_caps _ _ _ H)
  | H : run _ _ _ ?b |- context [ms_caps ?b] => rewrite (run_caps _ _ _ _ H)
  end.

Ltac width :=
  eexists; split; [reflexivity|];
  match goal with
  | H : forall h, Some ?n = Some h -> _ |- _ => specialize (H n eq_refl); simpl in H; lia
  end.

Lemma volume_width : width_pattern U 3 (VOLUME_PATTERN U).
Proof.
  unfold width_pattern, VOLUME_PATTERN. vm_compute (u "ml"). cbn [seq_all ci_lits map].
  intros s w s' H. inv_matches. caps. simpl. width.
Qed.

Lemma length_width : width_pattern U 4 (LENGTH_PATTERN U).
Proof.
  unfold width_pattern, LENGTH_PATTERN. vm_compute (u "mm"). cbn [seq_all ci_lits map].
  intros s w s' H. inv_matches. caps. simpl. width.
Qed.

Lemma strength_width : width_pattern U 3 (STRENGTH_PATTERN U).
Proof.
  unfold width_pattern, STRENGTH_PATTERN. cbn [seq_all].
  intros s w s' H. inv_matches. caps. simpl. width.
Qed.

Lemma first_match_width n pat t x :
  width_pattern U n pat -> _first_match U pat t = Some x -> length x <= n.
Proof.
  intros Hp. unfold _first_match.
  destruct (search U pat t) as [mo|] eqn:E; [|discriminate].
  apply search_Some in E as (pre & (rest & s' & -> & Hm & Hc) & _).
  apply Hp in Hm as (d & Hd & Hl). simpl. rewrite Hc, Hd. intros [= <-]. exact Hl.
Qed.

Lemma decimal_value_le c d :
  decimal_digits_ok U -> decimal_value U c = Some d -> (d <= 9)%N.
Proof.
  intros Hok. unfold decimal_value. destruct (is_ascii c); [|apply Hok].
  unfold in_range. destruct (_ && _) eqn:E; [|discriminate]. intros [= <-].
  apply andb_true_iff in E as [E1 E2]. apply N.leb_le in E1, E2. lia.
Qed.

Lemma digits_value_bound s : forall acc n,
  decimal_digits_ok U -> digits_value U acc s = Some n ->
  (n < (acc + 1) * 10 ^ N.of_nat (length s))%N.
Proof.
  induction s as [|c s IH]; intros acc n Hok; simpl digits_value.
  - intros [= <-]. simpl. lia.
  - destruct (decimal_value U c) as [d|] eqn:Ed; [|discriminate]. intros H.
    apply IH in H; [|exact Hok]. apply decimal_value_le in Ed; [|exact Hok].
    cbn [length]. rewrite Nat2N.inj_succ, N.pow_succ_r'.
    set (P := (10 ^ N.of_nat (length s))%N) in *. nia.
Qed.

Lemma py_float_bound d q n :
  decimal_digits_ok U -> py_float U d = Ok q -> length d <= n ->
  exists z, q = inject_Z z /\ (0 <= z < 10 ^ Z.of_nat n)%Z.
Proof.
  intros Hok Hq Hl. unfold py_float in Hq. destruct d as [|c d]; [discriminate|].
  destruct (digits_value U 0 (c :: d)) as [v|] eqn:Ev; [|discriminate].
  injection Hq as <-. exists (Z.of_N v). split; [reflexivity|].
  apply digits_value_bound in Ev; [|exact Hok]. split; [lia|].
  rewrite N.add_0_l, N.mul_1_l in Ev.
  assert (Hp : (10 ^ N.of_nat (length (c :: d)) <= 10 ^ N.of_nat n)%N)
    by (apply N.pow_le_mono_r; lia).
  assert (Hz : Z.of_N (10 ^ N.of_nat n) = (10 ^ Z.of_nat n)%Z).
  { rewrite N2Z.inj_pow. f_equal. lia. }
  lia.
Qed.

Lemma rule_float_bound pat t q n :
  decimal_digits_ok U -> width_pattern U n pat ->
  rule_value U (RFloat pat) t = Some (VFloat q) ->
  exists z, q = inject_Z z /\ (0 <= z < 10 ^ Z.of_nat n)%Z.
Proof.
  intros Hok Hp. simpl. destruct (_first_match U pat t) as [x|] eqn:E; [|discriminate].
  destruct (nonempty x); [|discriminate].
  destruct (py_float U x) as [q'|] eqn:Hq; [|discriminate]. intros [= <-].
  eapply py_float_bound; eauto using first_match_width.
Qed.

End NumberFacts.

(** X21. The numbers the extractor returns. *)
Theorem extracted_numbers_bounded (U : unicode_db) (name : text)
    (description : option text) :
  decimal_digits_ok U ->
  exists attributes,
    extract_attributes U name description = Ok attributes
    /\ forall key q, attributes !! key = Some (VFloat q) ->
         exists z, q = inject_Z z /\ (0 <= z <= number_bound key)%Z.
Proof.
  intros Hok. destruct (extract_attributes_lookup U name description) as (attributes & E & L).
  exists attributes. split; [exact E|]. intros key q Hv. rewrite L in Hv.
  destruct (assoc key (attribute_rules U)) as [r|] eqn:Ha; [|discriminate].
  apply assoc_In in Ha. unfold attribute_rules in Ha. cbn [In] in Ha.
  repeat destruct Ha as [Ha|Ha]; try contradiction; injection Ha as <- <-.
  all: try (apply rule_keyword_sound in Hv as (k & _ & _ & _ & [=]); fail).
  all: try (apply rule_group_sound in Hv as (_ & mo & g & pre & _ & _ & _ & [=]); fail).
  all: try (apply rule_verbatim_sound in Hv as (_ & x & [=] & _); fail).
  - apply (rule_float_bound U _ _ _ 3 Hok (volume_width U)) in Hv as (z & -> & Hz).
    exists z. split; [reflexivity|]. change (number_bound "attr_volume_ml") with 999%Z.
    change (10 ^ Z.of_nat 3)%Z with 1000%Z in Hz. lia.
  - apply (rule_float_bound U _ _ _ 3 Hok (strength_width U)) in Hv as (z & -> & Hz).
    exists z. split; [reflexivity|]. change (number_bound "attr_strength_percent") with 999%Z.
    change (10 ^ Z.of_nat 3)%Z with 1000%Z in Hz. lia.
  - apply (rule_float_bound U _ _ _ 4 Hok (length_width U)) in Hv as (z & -> & Hz).
    exists z. split; [reflexivity|]. change (number_bound "attr_length_mm") with 9999%Z.
    change (10 ^ Z.of_nat 4)%Z with 10000%Z in Hz. lia.
Qed.

(** X22. The keyword attributes take their values from the keyword lists (for
    the curing type, from the four normalised forms). *)
Theorem keyword_attributes_vocabulary (U : unicode_db) (name : text)
    (description : option text) :
  exists attributes,
    extract_attributes U name description = Ok attributes
    /\ (forall key keywords norm v,
          In (key, RKeyword keywords norm) (attribute_rules U) ->
          attributes !! key = Some v ->
          exists k, In k keywords /\ v = VStr (norm k))
    /\ (forall v, attributes !! "attr_curing_type" = Some v ->
          exists s, v = VStr s /\ In s CURING_VALUES).
Proof.
  destruct (extract_attributes_lookup U name description) as (attributes & E & L).
  exists attributes. split; [exact E|]. split.
  - intros key keywords norm v Hin Hv. rewrite L in Hv.
    rewrite (In_assoc _ _ _ (attribute_keys_NoDup U) Hin) in Hv.
    apply rule_keyword_sound in Hv as (k & Hk & _ & _ & ->). eauto.
  - intros v Hv. rewrite L in Hv. cbn [assoc attribute_rules String.eqb Ascii.eqb Bool.eqb] in Hv.
    apply rule_keyword_sound in Hv as (k & Hk & _ & _ & ->).
    eexists. split; [reflexivity|].
    unfold CURING_KEYWORDS in Hk. cbn [map In] in Hk.
    destruct Hk as [<- | [<- | [<- | [<- | []]]]]; vm_compute; tauto.
Qed.

(** X23. On what the extractor returns, [flag_attributes] does not raise, and
    its flags are those of the extracted volume followed by that of the
    extracted grit. *)
Theorem flag_attributes_of_extracted (U : unicode_db) (name : text)
    (description : option text) :
  unicode_ok U ->
  exists attributes volume grit,
    extract_attributes U name description = Ok attributes
    /\ attributes !! "attr_volume_ml" = option_map VFloat volume
    /\ attributes !! "attr_grit" = option_map VStr grit
    /\ flag_attributes attributes = Ok (volume_flags volume ++ grit_flags grit).
Proof.
  intros Hok. destruct (extract_attributes_lookup U name description) as (attributes & E & L).
  assert (Hv : exists volume, attributes !! "attr_volume_ml" = option_map VFloat volume).
  { destruct (attributes !! "attr_volume_ml") as [v|] eqn:Ev; [|exists None; reflexivity].
    pose proof Ev as Ev'. rewrite L in Ev'.
    destruct (assoc _ _) as [r|] eqn:Ha; [|discriminate]. apply assoc_In in Ha.
    destruct (rule_value_typed U _ _ _ _ Hok Ha Ev') as [_ [q ->]].
    exists (Some q). reflexivity. }
  assert (Hg : exists grit, attributes !! "attr_grit" = option_map VStr grit
                            /\ grit <> Some []).
  { destruct (attributes !! "attr_grit") as [v|] eqn:Ev;
      [|exists None; split; [reflexivity | discriminate]].
    pose proof Ev as Ev'. rewrite L in Ev'.
    destruct (assoc _ _) as [r|] eqn:Ha; [|discriminate]. apply assoc_In in Ha.
    destruct (rule_value_typed U _ _ _ _ Hok Ha Ev') as [_ (s & -> & Hs)].
    exists (Some s). split; [reflexivity | congruence]. }
  destruct Hv as [volume Hv], Hg as (grit & Hg & Hne).
  exists attributes, volume, grit. repeat split; try assumption.
  unfold flag_attributes, get. rewrite Hv, Hg. unfold grit_flags, volume_flags.
  destruct grit as [[|c g]|]; [exfalso; apply Hne; reflexivity | |].
  - destruct volume as [q|]; cbn [option_map default from_option id bind truthy nonempty].
    + unfold py_eq_int, py_gt. cbn [as_number]. change (inject_Z 0) with 0%Q.
      change (inject_Z 200) with 200%Q.
      destruct (Qeq_bool q 0); cbn [bind];
        [destruct (existsb (text_eqb (c :: g)) USUAL_GRITS); reflexivity|].
      destruct (Qle_bool q 200); cbn [bind negb];
        destruct (existsb (text_eqb (c :: g)) USUAL_GRITS); reflexivity.
    + destruct (existsb (text_eqb (c :: g)) USUAL_GRITS); reflexivity.
  - destruct volume as [q|]; cbn [option_map default from_option id bind truthy nonempty].
    + unfold py_eq_int, py_gt. cbn [as_number]. change (inject_Z 0) with 0%Q.
      change (inject_Z 200) with 200%Q. rewrite app_nil_r.
      destruct (Qeq_bool q 0); cbn [bind]; [reflexivity|].
      destruct (Qle_bool q 200); reflexivity.
    + reflexivity.
Qed.


(** *** List cells of the export *)

Lemma split_on_nonempty sep s : split_on sep s <> [].
Proof.
  destruct s as [|c r]; simpl; [discriminate|].
  destruct (c =? sep)%N; [discriminate|]. destruct (split_on sep r); discriminate.
Qed.

Lemma split_on_no_sep sep s p : In p (split_on sep s) -> ~ In sep p.
Proof.
  revert p. induction s as [|c r IH]; simpl; intros p Hp.
  - destruct Hp as [<- | []]. intros [].
  - destruct (N.eqb_spec c sep) as [->|Hne].
    + destruct Hp as [<- | Hp]; [intros [] | auto].
    + destruct (split_on sep r) as [|q qs] eqn:E.
      * destruct Hp as [<- | []]. intros [H | []]. congruence.
      * destruct Hp as [<- | Hp].
        -- intros [H | H]; [congruence|]. apply (IH q); [left; reflexivity | exact H].
        -- apply IH. right. exact Hp.
Qed.

Lemma split_on_app sep p r :
  ~ In sep p -> split_on sep (p ++ sep :: r) = p :: split_on sep r.
Proof.
  induction p as [|c p IH]; simpl; intros Hn.
  - rewrite N.eqb_refl. reflexivity.
  - destruct (N.eqb_spec c sep) as [->|Hne]; [exfalso; apply Hn; left; reflexivity|].
    rewrite IH by (intros H; apply Hn; right; exact H). reflexivity.
Qed.

Lemma split_on_whole sep p : ~ In sep p -> split_on sep p = [p].
Proof.
  induction p as [|c p IH]; simpl; intros Hn; [reflexivity|].
  destruct (N.eqb_spec c sep) as [->|Hne]; [exfalso; apply Hn; left; reflexivity|].
  rewrite IH by (intros H; apply Hn; right; exact H). reflexivity.
Qed.

Lemma lstrip_suffix s : exists pre, s = pre ++ lstrip s.
Proof.
  induction s as [|c s [pre IH]]; simpl; [exists []; reflexivity|].
  destruct (is_space c); [|exists []; reflexivity].
  exists (c :: pre). simpl. f_equal. exact IH.
Qed.

Lemma lstrip_head s c : head (lstrip s) = Some c -> is_space c = false.
Proof.
  induction s as [|x s IH]; simpl; [discriminate|].
  destruct (is_space x) eqn:E; [exact IH|]. simpl. intros [= <-]. exact E.
Qed.

Lemma lstrip_fixed s :
  (forall c, head s = Some c -> is_space c = false) -> lstrip s = s.
Proof.
  destruct s as [|c s]; simpl; intros H; [reflexivity|].
  rewrite (H c eq_refl). reflexivity.
Qed.

Lemma last_app_ne {A} (pre l : list A) : l <> [] -> last (pre ++ l) = last l.
Proof.
  intros Hne. destruct l as [|x l] using rev_ind; [contradiction|].
  rewrite app_assoc, !last_snoc. reflexivity.
Qed.

Lemma lstrip_last s c : last (lstrip s) = Some c -> last s = Some c.
Proof.
  intros H. destruct (lstrip_suffix s) as [pre E].
  rewrite E at 1. rewrite last_app_ne; [exact H|]. intros E'. rewrite E' in H. discriminate.
Qed.

Lemma head_rev {A} (l : list A) : head (rev l) = last l.
Proof.
  destruct l as [|x l] using rev_ind; [reflexivity|].
  rewrite rev_unit, last_snoc. reflexivity.
Qed.

Lemma last_rev {A} (l : list A) : last (rev l) = head l.
Proof. rewrite <- (rev_involutive l) at 2. symmetry. apply head_rev. Qed.

Lemma strip_head s c : head (strip s) = Some c -> is_space c = false.
Proof.
  unfold strip. rewrite head_rev. intros H. apply lstrip_last in H.
  rewrite last_rev in H. eapply lstrip_head, H.
Qed.

Lemma strip_last s c : last (strip s) = Some c -> is_space c = false.
Proof. unfold strip. rewrite last_rev. apply lstrip_head. Qed.

Lemma strip_In s c : In c (strip s) -> In c s.
Proof.
  unfold strip. rewrite <- in_rev. intros H.
  destruct (lstrip_suffix (rev (lstrip s))) as [pre E].
  assert (H1 : In c (rev (lstrip s))) by (rewrite E; apply in_or_app; right; exact H).
  rewrite <- in_rev in H1. destruct (lstrip_suffix s) as [pre' E'].
  rewrite E'. apply in_or_app. right. exact H1.
Qed.

Lemma strip_fixed p :
  (forall c, head p = Some c -> is_space c = false) ->
  (forall c, last p = Some c -> is_space c = false) -> strip p = p.
Proof.
  intros Hh Hl. unfold strip. rewrite (lstrip_fixed p Hh).
  rewrite lstrip_fixed; [apply rev_involutive|].
  intros c. rewrite head_rev. apply Hl.
Qed.

Lemma strip_space p : strip (32%N :: p) = strip p.
Proof. reflexivity. Qed.

Lemma nonempty_ne (s : text) : nonempty s = true <-> s <> [].
Proof. destruct s; simpl; split; congruence. Qed.

(** X24. What [_split_list] returns. *)
Theorem split_list_parts (value : option text) (parts : list text) :
  _split_list value = Some parts ->
  parts <> [] /\ forall p, In p parts -> clean_part p.
Proof.
  unfold _split_list. destruct value as [s|]; [|discriminate].
  destruct (List.filter nonempty (map strip (split_on 44 s))) as [|p0 ps] eqn:E;
    [discriminate|].
  intros [= <-]. split; [discriminate|]. rewrite <- E. intros p Hp.
  apply filter_In in Hp as [Hp Hne]. apply in_map_iff in Hp as (raw & <- & Hraw).
  split; [apply nonempty_ne, Hne|]. split; [|split].
  - intros H. apply strip_In in H. exact (split_on_no_sep _ _ _ Hraw H).
  - apply strip_head.
  - apply strip_last.
Qed.

Lemma split_list_join_aux parts :
  parts <> [] -> (forall p, In p parts -> clean_part p) ->
  List.filter nonempty (map strip (split_on 44 (join_comma parts))) = parts.
Proof.
  induction parts as [|p ps IH]; intros Hne Hc; [contradiction|].
  destruct (Hc p (or_introl eq_refl)) as (Hp & Hcomma & Hh & Hl).
  assert (Hs : strip p = p) by (apply strip_fixed; assumption).
  assert (Hn : nonempty p = true) by (apply nonempty_ne, Hp).
  destruct ps as [|q ps].
  - simpl. rewrite split_on_whole by exact Hcomma. simpl. rewrite Hs, Hn. reflexivity.
  - change (join_comma (p :: q :: ps)) with (p ++ 44%N :: 32%N :: join_comma (q :: ps)).
    rewrite split_on_app by exact Hcomma. cbn [map List.filter]. rewrite Hs, Hn. f_equal.
    set (X := join_comma (q :: ps)) in *.
    assert (IH' : List.filter nonempty (map strip (split_on 44 X)) = q :: ps).
    { apply IH; [discriminate|]. intros x Hx. apply Hc. right. exact Hx. }
    cbn [split_on]. change ((32 =? 44)%N) with false. cbv iota.
    destruct (split_on 44 X) as [|a l] eqn:Ea; [exfalso; eapply split_on_nonempty, Ea|].
    cbn [map] in *. rewrite strip_space. exact IH'.
Qed.

(** X25. Joining clean parts with a comma and a space and splitting the result
    gives the parts back. *)
Theorem split_list_join (parts : list text) :
  parts <> [] -> (forall p, In p parts -> clean_part p) ->
  _split_list (Some (join_comma parts)) = Some parts.
Proof.
  intros Hne Hc. unfold _split_list. rewrite split_list_join_aux by assumption.
  destruct parts; [contradiction | reflexivity].
Qed.

(** *** The share of documents without a field *)

Lemma filter_length_le {A} (p : A -> bool) l : length (List.filter p l) <= length l.
Proof. induction l as [|a l IH]; simpl; [lia|]. destruct (p a); simpl; lia. Qed.

Lemma filter_nil_iff {A} (p : A -> bool) l :
  List.filter p l = [] <-> forall a, In a l -> p a = false.
Proof.
  induction l as [|a l IH]; simpl; [tauto|]. destruct (p a) eqn:E.
  - split; [discriminate|]. intros H. rewrite (H a (or_introl eq_refl)) in E. discriminate.
  - rewrite IH. split; [intros H b [<- | Hb]; auto | intros H b Hb; auto].
Qed.

(** X26. With the number of documents of the index for [total], as
    [report_missing_fields] calls it, the missing share lies in [0, 1], and it
    is 0 exactly when every document holds the field. *)
Theorem missing_percentage_of_index (field : string) (w : world) :
  unit_ratio (missing_percentage field (count_products w) w)
  /\ ((missing_percentage field (count_products w) w == 0)%Q <->
      forall doc, In doc (index_docs (products w)) ->
        exists_query PRODUCTS_MAPPING field doc = true).
Proof.
  unfold missing_percentage, count_missing, count_products.
  set (docs := index_docs (products w)).
  set (missing := List.filter _ docs).
  pose proof (filter_length_le (fun doc => negb (exists_query PRODUCTS_MAPPING field doc)) docs)
    as Hle. fold missing in Hle.
  destruct (Z.eqb_spec (Z.of_nat (length docs)) 0) as [E|E].
  - split; [split; [apply Qle_refl | discriminate]|].
    split; [|reflexivity]. intros _ doc Hd. destruct docs; [contradiction | discriminate].
  - split; [apply unit_fraction; lia|].
    assert (Hpos : ~ (inject_Z (Z.of_nat (length docs)) == 0)%Q).
    { change 0%Q with (inject_Z 0). rewrite inject_Z_injective. exact E. }
    split.
    + intros H. apply Qmult_inj_r with (z := inject_Z (Z.of_nat (length docs))) in H;
        [|exact Hpos].
      rewrite Qmult_0_l in H. unfold Qdiv in H.
      rewrite <- Qmult_assoc, (Qmult_comm (/ _)), Qmult_inv_r, Qmult_1_r in H by exact Hpos.
      change 0%Q with (inject_Z 0) in H. rewrite inject_Z_injective in H.
      assert (Hm : missing = []) by (destruct missing; [reflexivity | discriminate]).
      intros doc Hd. apply filter_nil_iff with (a := doc) in Hm; [|exact Hd].
      apply negb_false_iff, Hm.
    + intros H. assert (Hm : missing = []).
      { apply filter_nil_iff. intros doc Hd. rewrite (H doc Hd). reflexivity. }
      rewrite Hm. simpl. unfold Qdiv. apply Qmult_0_l.
Qed.


(** *** Merging settings *)

Lemma merge_entry_dicts base override :
  merge_entry (Some (VDict base)) (VDict override) = VDict (_merge base override).
Proof. reflexivity. Qed.

Lemma merge_entry_leaf old v :
  (forall d, v <> VDict d) \/ (forall d, old <> Some (VDict d)) -> merge_entry old v = v.
Proof.
  intros [H | H]; destruct v as [| | | | | | |d]; try reflexivity.
  - exfalso. apply (H d). reflexivity.
  - destruct old as [[| | | | | | |b]|]; try reflexivity. exfalso. apply (H b). reflexivity.
Qed.

Lemma merge_lookup base override k :
  _merge base override !! k
  = match override !! k with
    | Some v => Some (merge_entry (base !! k) v)
    | None => base !! k
    end.
Proof.
  unfold _merge. revert k.
  apply (map_fold_weak_ind
           (fun result m => forall k,
              result !! k = match m !! k with
                            | Some v => Some (merge_entry (base !! k) v)
                            | None => base !! k
                            end)).
  - intros k. rewrite lookup_empty. reflexivity.
  - intros i x m r Hi IH k. destruct (decide (k = i)) as [->|Hne].
    + rewrite !lookup_insert_eq. rewrite IH, Hi. reflexivity.
    + rewrite !lookup_insert_ne by congruence. apply IH.
Qed.

Lemma depth_lookup d k x : d !! k = Some x -> depth x < depth (VDict d).
Proof.
  simpl. revert k x.
  apply (map_fold_weak_ind
           (fun r m => forall k x, m !! k = Some x -> depth x < S r)).
  - intros k x H. rewrite lookup_empty in H. discriminate.
  - intros i y m r Hi IH k x H. apply lookup_insert_Some in H as [[_ <-] | [_ H]].
    + lia.
    + specialize (IH k x H). lia.
Qed.

Lemma merge_entry_self_depth n : forall v, depth v <= n -> merge_entry (Some v) v = v.
Proof.
  induction n as [|n IH]; intros v Hd; destruct v as [| | | | | | |d]; try reflexivity.
  - simpl in Hd. lia.
  - rewrite merge_entry_dicts. f_equal. apply map_eq. intros k. rewrite merge_lookup.
    destruct (d !! k) as [x|] eqn:E; [|reflexivity].
    rewrite IH; [reflexivity|]. pose proof (depth_lookup _ _ _ E). lia.
Qed.

Lemma merge_entry_idem_depth n : forall v old,
  depth v <= n -> merge_entry (Some (merge_entry old v)) v = merge_entry old v.
Proof.
  induction n as [|n IH]; intros v old Hd; destruct v as [| | | | | | |o]; try reflexivity.
  - simpl in Hd. lia.
  - assert (Hcase : (exists b, old = Some (VDict b)) \/ forall b, old <> Some (VDict b)).
    { destruct old as [[| | | | | | |b]|]; eauto; right; intros b'; discriminate. }
    destruct Hcase as [[b ->] | Hold].
    + rewrite !merge_entry_dicts. f_equal. apply map_eq. intros k.
      rewrite !merge_lookup. destruct (o !! k) as [x|] eqn:E; [|reflexivity].
      rewrite IH; [reflexivity|]. pose proof (depth_lookup _ _ _ E). lia.
    + rewrite (merge_entry_leaf old (VDict o)) by (right; exact Hold).
      apply (merge_entry_self_depth (S n)). exact Hd.
Qed.

(** X28. What [_merge] holds under a key. *)
Theorem merge_rule (base override : gmap string value) :
  (forall k, override !! k = None -> _merge base override !! k = base !! k)
  /\ (forall k v, override !! k = Some v ->
        (forall d, v <> VDict d) \/ (forall d, base !! k <> Some (VDict d)) ->
        _merge base override !! k = Some v)
  /\ (forall k bd od, base !! k = Some (VDict bd) -> override !! k = Some (VDict od) ->
        _merge base override !! k = Some (VDict (_merge bd od))
        /\ forall k', od !! k' = None -> _merge bd od !! k' = bd !! k').
Proof.
  split; [|split].
  - intros k H. rewrite merge_lookup, H. reflexivity.
  - intros k v H Hleaf. rewrite merge_lookup, H. f_equal. apply merge_entry_leaf, Hleaf.
  - intros k bd od Hb Ho. split.
    + rewrite merge_lookup, Ho, Hb. reflexivity.
    + intros k' H. rewrite merge_lookup, H. reflexivity.
Qed.

(** X29. Merging is idempotent, and the empty dict is neutral on both sides. *)
Theorem merge_idempotent (base override : gmap string value) :
  _merge (_merge base override) override = _merge base override
  /\ _merge override override = override
  /\ _merge base ∅ = base
  /\ _merge ∅ override = override.
Proof.
  split; [|split; [|split]]; apply map_eq; intros k; rewrite !merge_lookup.
  - destruct (override !! k) as [v|]; [|reflexivity].
    f_equal. apply (merge_entry_idem_depth (depth v)). lia.
  - destruct (override !! k) as [v|]; [|reflexivity].
    f_equal. apply (merge_entry_self_depth (depth v)). lia.
  - rewrite lookup_empty. reflexivity.
  - rewrite lookup_empty. destruct (override !! k) as [v|]; [|reflexivity].
    f_equal. apply merge_entry_leaf. right. intros d. discriminate.
Qed.


(** *** Routes *)

Lemma text_eqb_eq (a b : text) : text_eqb a b = true -> a = b.
Proof. unfold text_eqb. apply bool_decide_eq_true_1. Qed.

(** X27. No request reaches [get_missing_attributes]: every path of its route
    is taken by the route of [get_product], declared before it, with the
    last segment for SKU; every other endpoint is reached by some request. *)
Theorem missing_attributes_route_shadowed :
  (forall m path params,
     Api.dispatch m path <> Some (Api.get_missing_attributes, params))
  /\ (forall path,
        Api.match_path ([Api.literal "api"; Api.literal "products"; Api.literal "missing-attributes"]) path
          <> None ->
        Api.dispatch Api.GET path
        = Some (Api.get_product, [("sku", u "missing-attributes")]))
  /\ (forall e, e <> Api.get_missing_attributes ->
        exists m path params, Api.dispatch m path = Some (e, params)).
Proof.
  assert (Hshadow : forall path,
            Api.match_path ([Api.literal "api"; Api.literal "products"; Api.literal "missing-attributes"]) path
              <> None ->
            Api.match_path ([Api.literal "api"; Api.literal "products"; Api.Param "sku"]) path
            = Some [("sku", u "missing-attributes")]).
  { intros path H. unfold Api.literal in *.
    destruct path as [|a path]; [simpl in H; congruence|].
    cbn [Api.match_path] in *. destruct (text_eqb (u "api") a); [|congruence].
    destruct path as [|b path]; [simpl in H; congruence|].
    cbn [Api.match_path] in *. destruct (text_eqb (u "products") b); [|congruence].
    destruct path as [|c path]; [simpl in H; congruence|].
    cbn [Api.match_path] in *.
    destruct (text_eqb (u "missing-attributes") c) eqn:E; [|congruence].
    apply text_eqb_eq in E as <-.
    destruct path; [reflexivity | simpl in H; congruence]. }
  split; [|split].
  - intros m path params. unfold Api.dispatch, Api.routes.
    destruct m; cbn [Api.dispatch_in Api.method_eqb].
    + destruct (Api.match_path ([Api.literal "healthz"]) path); [discriminate|].
      destruct (Api.match_path ([Api.literal "api"; Api.literal "products"; Api.Param "sku"]) path) eqn:E1;
        [discriminate|].
      destruct (Api.match_path ([Api.literal "api"; Api.literal "products"; Api.literal "missing-attributes"]) path)
        eqn:E2.
      { rewrite Hshadow in E1 by congruence. discriminate. }
      repeat match goal with
             | |- context [match Api.match_path ?p path with _ => _ end] =>
               destruct (Api.match_path p path)
             end; discriminate.
    + repeat match goal with
             | |- context [match Api.match_path ?p path with _ => _ end] =>
               destruct (Api.match_path p path)
             end; discriminate.
  - intros path H. unfold Api.dispatch, Api.routes. cbn [Api.dispatch_in Api.method_eqb].
    rewrite (Hshadow path H).
    destruct (Api.match_path ([Api.literal "healthz"]) path) eqn:E; [|reflexivity].
    exfalso. unfold Api.literal in *.
    destruct path as [|a [|b path]]; simpl in H, E; try congruence.
    + destruct (text_eqb (u "api") a); congruence.
    + destruct (text_eqb (u "healthz") a); congruence.
  - intros e He. destruct e; try contradiction.
    + exists Api.GET, [u "healthz"]. eexists. vm_compute. reflexivity.
    + exists Api.POST, [u "api"; u "products"]. eexists. vm_compute. reflexivity.
    + exists Api.GET, [u "api"; u "products"; u "X"]. eexists. vm_compute. reflexivity.
    + exists Api.POST, [u "api"; u "incidents"]. eexists. vm_compute. reflexivity.
    + exists Api.GET, [u "api"; u "incidents"]. eexists. vm_compute. reflexivity.
    + exists Api.GET, [u "api"; u "incidents"; u "kpis"]. eexists. vm_compute. reflexivity.
    + exists Api.GET, [u "api"; u "incidents"; u "kpis"; u "by-type"]. eexists.
      vm_compute. reflexivity.
    + exists Api.GET, [u "api"; u "incidents"; u "kpis"; u "S"; u "monthly"]. eexists.
      vm_compute. reflexivity.
    + exists Api.GET, [u "api"; u "incidents"; u "summary"; u "damage-types"]. eexists.
      vm_compute. reflexivity.
    + exists Api.GET, [u "api"; u "stats"; u "daily"; u "X"]. eexists. vm_compute. reflexivity.
Qed.


(** *** Instances *)



Lemma create_incident_failure_writes_nothing_witness :
  snd (create_incident sample_env (sample_incident 100 150 (VList [])) empty_world)
  = empty_world.
Proof.
  apply (create_incident_failure_writes_nothing sample_env
           (sample_incident 100 150 (VList [])) empty_world
           (ValueError "qty_damaged cannot exceed qty_total_in_shipment")).
  vm_compute. reflexivity.
Defined.


Lemma create_incident_document_witness :
  exists id document,
    returned (fst created_sample) !! "incident_id" = Some (VStr id)
    /\ supplier_incidents (snd created_sample) !! id = Some document
    /\ (forall k, is_Some (document !! k) <-> In k incident_fields).
Proof.
  destruct (create_incident_document sample_env
              (sample_incident 100 5 (VList [VStr (u "leakage")])) empty_world
              (returned (fst created_sample)) (snd created_sample))
    as (id & document & reported & created & Hr & Hd & Hk & _);
    [vm_compute; reflexivity|].
  exists id, document. auto.
Defined.


Lemma create_incident_keeps_quantities_valid_witness :
  valid_quantities (snd created_sample).
Proof.
  apply (create_incident_keeps_quantities_valid sample_env
           (sample_incident 100 5 (VList [VStr (u "leakage")])) empty_world
           (returned (fst created_sample)) (snd created_sample) 5 100).
  - intros doc Hd. vm_compute in Hd. contradiction.
  - vm_compute. reflexivity.
  - vm_compute. reflexivity.
  - vm_compute. reflexivity.
  - lia.
Defined.


Lemma upsert_product_requires_sku_witness :
  upsert_product romanian_db sample_env ∅ empty_world
  = (Raise (KeyError "sku"), empty_world).
Proof.
  apply (upsert_product_requires_sku romanian_db sample_env ∅ empty_world).
  left. reflexivity.
Defined.







Lemma extracted_numbers_bounded_witness :
  exists attributes,
    extract_attributes romanian_db (u "Gel 15 ml") None = Ok attributes
    /\ forall key q, attributes !! key = Some (VFloat q) ->
         exists z, q = inject_Z z /\ (0 <= z <= number_bound key)%Z.
Proof.
  apply (extracted_numbers_bounded romanian_db (u "Gel 15 ml") None).
  intros c n H. discriminate.
Defined.

Lemma flag_attributes_of_extracted_witness :
  exists attributes volume grit,
    extract_attributes romanian_db (u "Pila 100/180 250 ml") None = Ok attributes
    /\ attributes !! "attr_volume_ml" = option_map VFloat volume
    /\ attributes !! "attr_grit" = option_map VStr grit
    /\ flag_attributes attributes = Ok (volume_flags volume ++ grit_flags grit).
Proof.
  apply (flag_attributes_of_extracted romanian_db (u "Pila 100/180 250 ml") None).
  exact romanian_db_ok.
Defined.

Lemma split_list_parts_witness :
  [u "A1"; u "B 2"; u "C3"] <> []
  /\ forall p, In p [u "A1"; u "B 2"; u "C3"] -> clean_part p.
Proof.
  apply (split_list_parts (Some (u "A1, B 2 ,,C3"))). vm_compute. reflexivity.
Defined.

Lemma split_list_join_witness :
  _split_list (Some (join_comma [u "SKU 1"; u "SKU-2"])) = Some [u "SKU 1"; u "SKU-2"].
Proof.
  apply (split_list_join [u "SKU 1"; u "SKU-2"]); [discriminate|].
  intros p [<- | [<- | []]]; (split; [discriminate|]); (split; [|split]).
  1, 4: vm_compute; intros H; repeat (destruct H as [H|H]; [discriminate H|]); exact H.
  all: intros c Hc; vm_compute in Hc; injection Hc as <-; reflexivity.
Defined.

